(** * cxx_argp: typed option registration and dispatch on top of argp

    A shallow embedding of the two parser headers of the repository:
    - [ParserH]  : [cxx_argp_parser.h]   (converters are boolean functions
                   of the raw text, the [counter_] map, registry lookup
                   before the lifecycle switch);
    - [Part000]  : [unnamed/part_000]    (converters of type [arg_parser],
                   lifecycle switch before the registry lookup).

    The C and C++ library routines the headers call ([strtol], [std::stol],
    [std::stoi], [getline]) and the argp engine ([argp_parse], [argp_error],
    [argp_failure], [argp_help]) are not part of the repository; they are
    modelled in [Libc] and [Argp] from their documented behaviour (LP64,
    C locale). *)

From stdpp Require Import base gmap list strings.
From Stdlib Require Import ZArith Lia Ascii String.

Open Scope Z_scope.

(** ** References to caller-owned destinations

    A converter closes over its destination by reference ([T &x]). The
    destinations live in a caller-owned store [S]; a reference is a way to
    read and to overwrite one location of it. *)

Record ref (S T : Type) := Ref {
  load : S -> T;
  store : T -> S -> S;
  load_store : forall v s, load (store v s) = v
}.
Arguments Ref {S T} _ _ _.
Arguments load {S T} _ _.
Arguments store {S T} _ _ _.
Arguments load_store {S T} _ _ _.

(** A variable that is the whole store (a local such as [T val;]). *)
Definition self_ref (T : Type) : ref T T :=
  Ref (fun s => s) (fun v _ => v) (fun _ _ => eq_refl).

Definition fst_ref (A B : Type) : ref (A * B) A :=
  Ref (fun s => s.1) (fun v s => (v, s.2)) (fun _ _ => eq_refl).

Definition snd_ref (A B : Type) : ref (A * B) B :=
  Ref (fun s => s.2) (fun v s => (s.1, v)) (fun _ _ => eq_refl).

(** ** Integer types of the target (LP64) *)

Record int_type := IntType { bits : Z; is_signed : bool }.

Definition t_int : int_type := IntType 32 true.
Definition t_unsigned : int_type := IntType 32 false.
Definition t_long : int_type := IntType 64 true.
Definition t_size_t : int_type := IntType 64 false.
Definition t_ssize_t : int_type := IntType 64 true.

(** Conversion of an integer value to type [T]: reduction modulo [2^bits],
    read back as signed where [T] is signed. *)
Definition cast (T : int_type) (v : Z) : Z :=
  let m := 2 ^ bits T in
  if is_signed T then (v + m / 2) mod m - m / 2 else v mod m.

Definition LONG_MAX : Z := 2 ^ 63 - 1.
Definition LONG_MIN : Z := - 2 ^ 63.
Definition INT_MAX : Z := 2 ^ 31 - 1.
Definition INT_MIN : Z := - 2 ^ 31.

(** ** The C and C++ library routines used by the converters *)

Module Libc.

Definition ERANGE : Z := 34.

Definition code (c : ascii) : Z := Z.of_N (N_of_ascii c).

(** [isspace] in the C locale: space, \t, \n, \v, \f, \r. *)
Definition isspace (c : ascii) : bool :=
  (code c =? 32) || ((9 <=? code c) && (code c <=? 13)).

(** Value of a character read as a digit or a letter. *)
Definition digit_of (c : ascii) : option Z :=
  let n := code c in
  if (48 <=? n) && (n <=? 57) then Some (n - 48)
  else if (97 <=? n) && (n <=? 122) then Some (n - 87)
  else if (65 <=? n) && (n <=? 90) then Some (n - 55)
  else None.

Definition digit_in (base : Z) (c : ascii) : option Z :=
  match digit_of c with
  | Some d => if d <? base then Some d else None
  | None => None
  end.

Fixpoint skip_space (s : string) : string :=
  match s with
  | String c s' => if isspace c then skip_space s' else s
  | EmptyString => s
  end.

(** The digit loop of [strtol]: accumulates while the next character is a
    digit of [base]; returns the accumulated value, whether any digit was
    read, and the rest of the text. *)
Fixpoint digits (base acc : Z) (any : bool) (s : string) : Z * bool * string :=
  match s with
  | String c s' =>
      match digit_in base c with
      | Some d => digits base (acc * base + d) true s'
      | None => (acc, any, s)
      end
  | EmptyString => (acc, any, s)
  end.

Definition is_x (c : ascii) : bool := (code c =? 120) || (code c =? 88).

(** What [strtol] hands back: the value, the unconsumed rest of the text
    ([*endptr] and what follows it) and the [errno] it leaves (the caller
    has cleared it before). *)
Record strtol_result := StrtolResult {
  value : Z;
  endptr : string;
  errno : Z
}.

(** The optional sign: whether it is a minus, and the text after it. *)
Definition read_sign (s : string) : bool * string :=
  match s with
  | String c s' =>
      if code c =? 45 then (true, s')
      else if code c =? 43 then (false, s')
      else (false, s)
  | EmptyString => (false, s)
  end.

(** The base in effect and the text from which the digits are read; for
    base 0, [0x] or [0X] selects 16 and is skipped, a leading [0] selects 8
    and is left in place, anything else selects 10. The third component is
    the text from the [x] on when a prefix was skipped. *)
Definition read_prefix (base : Z) (s : string) : Z * string * option string :=
  match s with
  | String c0 (String cx s') =>
      if (code c0 =? 48) && is_x cx && (base =? 0) then (16, s', Some (String cx s'))
      else if (code c0 =? 48) && (base =? 0) then (8, s, None)
      else if base =? 0 then (10, s, None)
      else (base, s, None)
  | String c0 EmptyString =>
      if (code c0 =? 48) && (base =? 0) then (8, s, None)
      else if base =? 0 then (10, s, None)
      else (base, s, None)
  | EmptyString => (if base =? 0 then 10 else base, s, None)
  end.

(** [strtol(nptr, &end, base)] for [base] 0 or 10: white space, an optional
    sign, the prefix, then the digits. Without any digit nothing is
    converted, [end = nptr] and the value is 0, except that [0x] without a
    hexadecimal digit converts the [0] and leaves [end] at the [x]. A value
    outside [long] is clamped and [errno] is [ERANGE]. *)
Definition strtol (nptr : string) (base : Z) : strtol_result :=
  let '(neg, s1) := read_sign (skip_space nptr) in
  let '(b, s2, hex) := read_prefix base s1 in
  let '(acc, any, rest) := digits b 0 false s2 in
  if any then
    if neg then
      if 2 ^ 63 <? acc then StrtolResult LONG_MIN rest ERANGE
      else StrtolResult (- acc) rest 0
    else
      if LONG_MAX <? acc then StrtolResult LONG_MAX rest ERANGE
      else StrtolResult acc rest 0
  else
    match hex with
    | Some at_x => StrtolResult 0 at_x 0
    | None => StrtolResult 0 nptr 0
    end.

(** *** Classes of texts, to state what the conversions accept *)

Fixpoint all_chars (f : ascii -> bool) (s : string) : bool :=
  match s with
  | EmptyString => true
  | String c s' => f c && all_chars f s'
  end.

(** [isdigit] *)
Definition is_digit (c : ascii) : bool := (48 <=? code c) && (code c <=? 57).

Definition is_sign (c : ascii) : bool := (code c =? 43) || (code c =? 45).

(** [isxdigit] *)
Definition is_xdigit (c : ascii) : bool :=
  match digit_of c with
  | Some d => d <? 16
  | None => false
  end.

(** The characters of the texts that [strtol] with base 0 can consume to
    the end: white space, signs, the [x] of the prefix, digits up to [f]. *)
Definition numeric_char (c : ascii) : bool :=
  isspace c || is_sign c || is_x c || is_xdigit c.

(** The value of a decimal numeral, continuing from [acc]. *)
Fixpoint decimal (acc : Z) (ds : string) : Z :=
  match ds with
  | EmptyString => acc
  | String c ds' => decimal (acc * 10 + (code c - 48)) ds'
  end.

(** Whether a decimal digit follows the white space and the optional sign
    at the start of the text. *)
Definition leading_digit (s : string) : bool :=
  match skip_space s with
  | String c s' =>
      if is_sign c then
        match s' with
        | String c' _ => is_digit c'
        | EmptyString => false
        end
      else is_digit c
  | EmptyString => false
  end.

(** The exceptions [std::stol] and [std::stoi] throw. *)
Inductive exception := invalid_argument | out_of_range.

(** [std::stol(str)] (base 10, no position requested): [strtol] on the text;
    [invalid_argument] when nothing was converted ([end == str]),
    [out_of_range] on [ERANGE]. Text after the numeral is not looked at. *)
Definition stol (str : string) : Z + exception :=
  let r := strtol str 10 in
  if (String.length (endptr r) =? String.length str)%nat then inr invalid_argument
  else if errno r =? ERANGE then inr out_of_range
  else inl (value r).

(** [std::stoi(str)]: as [std::stol], and [out_of_range] as well when the
    value does not fit an [int]. *)
Definition stoi (str : string) : Z + exception :=
  let r := strtol str 10 in
  if (String.length (endptr r) =? String.length str)%nat then inr invalid_argument
  else if (errno r =? ERANGE) || (value r <? INT_MIN) || (INT_MAX <? value r)
       then inr out_of_range
  else inl (value r).

(** A [std::stringstream] as the converters use it: the unread text and
    whether the end of the text has been hit ([eofbit]). *)
Record stringstream := StringStream { rdbuf : string; eofbit : bool }.

(** Characters up to the delimiter; the second component is what follows
    the delimiter, or [None] when the text ended first. *)
Fixpoint read_until (delim : ascii) (s : string) : string * option string :=
  match s with
  | EmptyString => (EmptyString, None)
  | String c s' =>
      if Ascii.eqb c delim then (EmptyString, Some s')
      else let '(v, r) := read_until delim s' in (String c v, r)
  end.

(** [getline(s, val, delim)]: fails on a stream that is not good; the
    delimiter is extracted and dropped; hitting the end sets [eofbit], and
    fails when no character at all was extracted. [None] is the stream
    testing false in the loop condition. *)
Definition getline (ss : stringstream) (delim : ascii)
  : option (string * stringstream) :=
  if eofbit ss then None
  else
    match read_until delim (rdbuf ss) with
    | (v, Some rest) => Some (v, StringStream rest false)
    | (v, None) =>
        match v with
        | EmptyString => None
        | _ => Some (v, StringStream EmptyString true)
        end
    end.

(** The successive values of [val] in [while (getline(s, val, delim))]; the
    loop bodies of the converters never touch the stream. [fuel] bounds the
    number of [getline] calls. *)
Fixpoint getlines (fuel : nat) (ss : stringstream) (delim : ascii) : list string :=
  match fuel with
  | O => []
  | Datatypes.S fuel' =>
      match getline ss delim with
      | None => []
      | Some (v, ss') => v :: getlines fuel' ss' delim
      end
  end.

(** One call more than there are characters always reaches the failing
    [getline] (see [getlines_fuel]). *)
Definition pieces (arg : string) : list string :=
  getlines (Datatypes.S (String.length arg)) (StringStream arg false) ","%char.

End Libc.

(** ** The argp engine, as far as the headers use it *)

Module Argp.

Abbreviation error_t := Z (only parsing).

(** Keys of argp.h. *)
Definition ARGP_KEY_ARG : Z := 0.
Definition ARGP_KEY_END : Z := 0x1000001.
Definition ARGP_KEY_NO_ARGS : Z := 0x1000002.
Definition ARGP_KEY_INIT : Z := 0x1000003.
Definition ARGP_KEY_SUCCESS : Z := 0x1000004.
Definition ARGP_KEY_ERROR : Z := 0x1000005.
Definition ARGP_KEY_FINI : Z := 0x1000007.

(** Flags of [argp_parse], and the help flag the driver passes. *)
Definition ARGP_NO_ERRS : Z := 0x02.
Definition ARGP_NO_HELP : Z := 0x10.
Definition ARGP_NO_EXIT : Z := 0x20.
Definition ARGP_HELP_USAGE : Z := 0x01.

(** [argp_err_exit_status], which the headers never assign: [EX_USAGE]. *)
Definition EX_USAGE : Z := 64.
Definition argp_err_exit_status : Z := EX_USAGE.

(** [flags & bit] as a condition. *)
Definition has (flags bit : Z) : bool := negb (Z.land flags bit =? 0).

Record argp_option := ArgpOption {
  o_name : option string;
  o_key : Z;
  o_arg : option string;
  o_flags : Z;
  o_doc : option string;
  o_group : Z
}.

(** The zeroed entry [{}] that terminates an option vector. *)
Definition option_end : argp_option := ArgpOption None 0 None 0 None 0.

(** Arguments of a printf format, kept unformatted. *)
Inductive fmt_arg :=
| FmtString (s : string)
| FmtChar (c : Z)
| FmtWhat (e : Libc.exception).

(** The calls into the engine that the headers make. A handler is a pure
    function that returns, with its status, the calls it made in order; the
    engine decides what each of them prints and whether it terminates the
    process. *)
Inductive call :=
| argp_error (fmt : string) (args : list fmt_arg)
| argp_failure (status errnum : Z) (fmt : string) (args : list fmt_arg)
| argp_help (help_flags : Z).

(** What one call does under the flags of the running parse: the lines
    added to stderr and, when the engine calls [exit], its status.
    - [argp_error]: nothing under [ARGP_NO_ERRS]; else the message, then
      [argp_state_help(ARGP_HELP_STD_ERR)], which exits with
      [argp_err_exit_status] unless [ARGP_NO_EXIT] is set ([ARGP_NO_HELP]
      plays no part in it);
    - [argp_failure]: nothing under [ARGP_NO_ERRS]; else the message, and
      [exit(status)] when [status] is not 0 and [ARGP_NO_EXIT] is not set;
    - [argp_help]: prints and returns. *)
Definition perform (flags : Z) (c : call) : list call * option Z :=
  match c with
  | argp_error _ _ =>
      if has flags ARGP_NO_ERRS then ([], None)
      else if has flags ARGP_NO_EXIT then ([c], None)
      else ([c], Some argp_err_exit_status)
  | argp_failure status _ _ _ =>
      if has flags ARGP_NO_ERRS then ([], None)
      else if (status =? 0) || has flags ARGP_NO_EXIT then ([c], None)
      else ([c], Some status)
  | argp_help _ => ([c], None)
  end.

(** The calls of one handler run, in order, up to the first that exits. *)
Fixpoint perform_all (flags : Z) (cs : list call) (stderr : list call)
  : list call * option Z :=
  match cs with
  | [] => (stderr, None)
  | c :: cs' =>
      match perform flags c with
      | (out, Some status) => (stderr ++ out, Some status)
      | (out, None) => perform_all flags cs' (stderr ++ out)
      end
  end.

(** A computation either returns to its caller or the process has exited. *)
Inductive outcome (A : Type) :=
| Returned (a : A)
| Exited (status : Z).
Arguments Returned {A} _.
Arguments Exited {A} _.

(** The parser function handed to the engine: key, text, state in; status,
    state and the engine calls made out. *)
Abbreviation callback St := (Z -> string -> St -> error_t * St * list call)
  (only parsing).

(** A run of the engine: how it ended, the state, what stderr holds. *)
Abbreviation run St A := (outcome A * St * list call)%type (only parsing).

Section Engine.
Context {St : Type}.

Definition and_then {A B : Type} (m : run St A)
    (f : A -> St -> list call -> run St B) : run St B :=
  match m with
  | (Returned a, st, stderr) => f a st stderr
  | (Exited status, st, stderr) => (Exited status, st, stderr)
  end.

(** One call of the parser function by the engine. *)
Definition group_parse (cb : callback St) (flags key : Z) (arg : string)
    (st : St) (stderr : list call) : run St error_t :=
  let '(e, st', cs) := cb key arg st in
  match perform_all flags cs stderr with
  | (stderr', Some status) => (Exited status, st', stderr')
  | (stderr', None) => (Returned e, st', stderr')
  end.

(** The events of the command line, in order, until one is refused. *)
Fixpoint parser_parse_next (cb : callback St) (flags : Z)
    (evs : list (Z * string)) (st : St) (stderr : list call) : run St error_t :=
  match evs with
  | [] => (Returned 0, st, stderr)
  | (key, arg) :: evs' =>
      and_then (group_parse cb flags key arg st stderr) (fun e st' stderr' =>
        if e =? 0 then parser_parse_next cb flags evs' st' stderr'
        else (Returned e, st', stderr'))
  end.

(** After the events: [ARGP_KEY_NO_ARGS] when no positional argument was
    processed, [ARGP_KEY_END], then [ARGP_KEY_SUCCESS] or, once a status is
    not 0, [ARGP_KEY_ERROR]; [ARGP_KEY_FINI] last. The statuses of the
    last two calls are ignored. *)
Definition parser_finalize (cb : callback St) (flags : Z) (args_processed : bool)
    (e : error_t) (st : St) (stderr : list call) : run St error_t :=
  let fini (e : error_t) (st : St) (stderr : list call) : run St error_t :=
    and_then (group_parse cb flags ARGP_KEY_FINI "" st stderr)
      (fun _ st' stderr' => (Returned e, st', stderr')) in
  let failed (e : error_t) (st : St) (stderr : list call) : run St error_t :=
    and_then (group_parse cb flags ARGP_KEY_ERROR "" st stderr)
      (fun _ st' stderr' => fini e st' stderr') in
  if e =? 0 then
    and_then
      (if args_processed then (Returned 0, st, stderr)
       else group_parse cb flags ARGP_KEY_NO_ARGS "" st stderr)
      (fun e1 st1 stderr1 =>
         if e1 =? 0 then
           and_then (group_parse cb flags ARGP_KEY_END "" st1 stderr1)
             (fun e2 st2 stderr2 =>
                if e2 =? 0 then
                  and_then (group_parse cb flags ARGP_KEY_SUCCESS "" st2 stderr2)
                    (fun e3 st3 stderr3 => fini e3 st3 stderr3)
                else failed e2 st2 stderr2)
         else failed e1 st1 stderr1)
  else failed e st stderr.

Definition has_args (evs : list (Z * string)) : bool :=
  existsb (fun ev => ev.1 =? ARGP_KEY_ARG) evs.

(** [argp_parse] on a command line that the engine has tokenised into the
    events [evs] (key and text of every option and positional argument it
    hands to the parser function): [ARGP_KEY_INIT], the events, the closing
    keys. Lifecycle keys carry no text (the empty string stands for the
    null pointer, which no handler reads). The engine's own options and
    errors (help, unknown options) never reach the parser function and are
    not part of the model, nor is the special status ARGP_ERR_UNKNOWN. *)
Definition argp_parse (cb : callback St) (flags : Z) (evs : list (Z * string))
    (st : St) (stderr : list call) : run St error_t :=
  and_then (group_parse cb flags ARGP_KEY_INIT "" st stderr) (fun e0 st0 stderr0 =>
    if e0 =? 0 then
      and_then (parser_parse_next cb flags evs st0 stderr0) (fun e1 st1 stderr1 =>
        parser_finalize cb flags (has_args evs) e1 st1 stderr1)
    else (Returned e0, st0, stderr0)).

(** The part of [argp_parse] before the closing keys: [ARGP_KEY_INIT],
    then the events. Status 0 here means that the parser function accepted
    every option and positional argument of the command line. *)
Definition parse_events (cb : callback St) (flags : Z) (evs : list (Z * string))
    (st : St) (stderr : list call) : run St error_t :=
  and_then (group_parse cb flags ARGP_KEY_INIT "" st stderr) (fun e0 st0 stderr0 =>
    if e0 =? 0 then parser_parse_next cb flags evs st0 stderr0
    else (Returned e0, st0, stderr0)).

(** The run returned to its caller. *)
Definition returns {A} (m : run St A) : Prop := exists a, m.1.1 = Returned a.

(** Two runs with the same ending, the same stderr and states related by
    [R]. *)
Definition sim (R : St -> St -> Prop) {A} (m1 m2 : run St A) : Prop :=
  m1.1.1 = m2.1.1 /\ m1.2 = m2.2 /\ R m1.1.2 m2.1.2.

(** The same for the results of a handler on two states. *)
Definition cb_sim (R : St -> St -> Prop) (cb : callback St)
    (key : Z) (arg : string) (s1 s2 : St) : Prop :=
  (cb key arg s1).1.1 = (cb key arg s2).1.1
  /\ (cb key arg s1).2 = (cb key arg s2).2
  /\ R (cb key arg s1).1.2 (cb key arg s2).1.2.

End Engine.

(** The event of a positional argument. *)
Definition ev_arg (text : string) : Z * string := (ARGP_KEY_ARG, text).

(** The keys the engine itself passes to a parser function. *)
Definition reserved_keys : list Z :=
  [ARGP_KEY_ARG; ARGP_KEY_END; ARGP_KEY_NO_ARGS; ARGP_KEY_INIT;
   ARGP_KEY_SUCCESS; ARGP_KEY_ERROR; ARGP_KEY_FINI].

End Argp.

(** [std::map::insert]: no effect when the key is already present. *)
Definition map_insert {V : Type} (k : Z) (v : V) (m : gmap Z V) : gmap Z V :=
  match m !! k with
  | Some _ => m
  | None => <[k := v]> m
  end.

Definition registered {V : Type} (m : gmap Z V) (k : Z) : bool :=
  match m !! k with
  | Some _ => true
  | None => false
  end.

(** No option of the registry uses a key of the engine. *)
Definition no_reserved_key {V : Type} (m : gmap Z V) : bool :=
  forallb (fun k => negb (registered m k)) Argp.reserved_keys.

(** The unlimited sentinel: -1 stored in the [ssize_t], seen from the
    constructor's [size_t] parameter. *)
Definition unlimited : Z := 2 ^ 64 - 1.

(** The engine calls of the end event for expected arity [n] and [m]
    accumulated positional arguments. *)
Definition arity_calls (too_few too_many : Argp.call) (n m : Z) : list Argp.call :=
  if n =? unlimited then []
  else if m <? n then [too_few]
  else if n <? m then [too_many]
  else [].

(** [v.insert(v.end() - 1, o)] on an option vector, which always ends with
    its terminator (inserting into an empty vector does not occur). *)
Fixpoint insert_before_end (o : Argp.argp_option) (v : list Argp.argp_option)
  : list Argp.argp_option :=
  match v with
  | [] => [o]
  | [t] => [o; t]
  | x :: v' => x :: insert_before_end o v'
  end.

(** ** cxx_argp_parser.h *)

Module ParserH.
Import Libc Argp.

(** A converter: the raw text in, success out, acting on the caller's
    destinations [D]. *)
Abbreviation check_function D := (string -> D -> bool * D) (only parsing).

Section WithDestinations.
Context {D : Type}.

(** for integers: [strtol(arg, &end, 0)], accepted when [errno == 0] and
    [*end] is the terminator; [x = v] converts the [long] to [T]. *)
Definition make_check_function_integer (T : int_type) (x : ref D Z)
  : check_function D :=
  fun arg d =>
    let r := strtol arg 0 in
    if (errno r =? 0) && (String.length (endptr r) =? 0)%nat
    then (true, store x (cast T (value r)) d)
    else (false, d).

(** specialised for std::strings *)
Definition make_check_function_string (x : ref D string) : check_function D :=
  fun arg d => (true, store x arg d).

(** [x.push_back(v)] *)
Definition push_back {T : Type} (x : ref D (list T)) (v : T) (d : D) : D :=
  store x (load x d ++ [v]) d.

(** specialised for vectors with string: the body of the [getline] loop,
    over the successive values of [val]. *)
Fixpoint push_back_all (x : ref D (list string)) (vals : list string) (d : D) : D :=
  match vals with
  | [] => d
  | val :: vals' => push_back_all x vals' (push_back x val d)
  end.

Definition make_check_function_vector_string (x : ref D (list string))
  : check_function D :=
  fun arg d => (true, push_back_all x (pieces arg) d).

(** specialised for vectors with integers: [x.push_back(std::stoi(val))]
    per piece, [return false] from the catch clause at the first piece on
    which [std::stoi] throws. *)
Fixpoint push_back_stoi (T : int_type) (x : ref D (list Z)) (vals : list string)
    (d : D) : bool * D :=
  match vals with
  | [] => (true, d)
  | val :: vals' =>
      match stoi val with
      | inl v => push_back_stoi T x vals' (push_back x (cast T v) d)
      | inr _ => (false, d)
      end
  end.

Definition make_check_function_vector (T : int_type) (x : ref D (list Z))
  : check_function D :=
  fun arg d => push_back_stoi T x (pieces arg) d.

(** specialisation for bool -> set to true *)
Definition make_check_function_bool (x : ref D bool) : check_function D :=
  fun _ d => (true, store x true d).

Record parser := Parser {
  options_ : list argp_option;
  convert_ : gmap Z (check_function D);
  expected_argument_count_ : Z;
  arguments_ : list string;
  counter_ : gmap Z Z;
  flags_ : Z
}.

Definition set_arguments_ (p : parser) (a : list string) : parser :=
  Parser (options_ p) (convert_ p) (expected_argument_count_ p) a
         (counter_ p) (flags_ p).

Definition set_counter_ (p : parser) (c : gmap Z Z) : parser :=
  Parser (options_ p) (convert_ p) (expected_argument_count_ p) (arguments_ p)
         c (flags_ p).

Definition set_flags_ (p : parser) (f : Z) : parser :=
  Parser (options_ p) (convert_ p) (expected_argument_count_ p) (arguments_ p)
         (counter_ p) f.

(** [arguments_.size()] *)
Definition size (p : parser) : Z := Z.of_nat (List.length (arguments_ p)).

(** argp-callback. The state is the parser and the destinations its
    converters refer to. *)
Definition parseoptions_ (key : Z) (arg : string) (st : parser * D)
  : error_t * (parser * D) * list call :=
  let '(p, d) := st in
  match convert_ p !! key with
  | Some opt =>
      let p' := set_counter_ p
        (<[key := cast t_size_t (default 0 (counter_ p !! key) + 1)]> (counter_ p)) in
      let '(ok, d') := opt arg d in
      if negb ok then
        (-1, (p', d'),
         [argp_error "argument '%s' not usable for '%c'" [FmtString arg; FmtChar key]])
      else (0, (p', d'), [])
  | None =>
      if key =? ARGP_KEY_INIT then (0, (set_arguments_ p [], d), [])
      else if key =? ARGP_KEY_ARG then
        (0, (set_arguments_ p (arguments_ p ++ [arg]), d), [])
      else if key =? ARGP_KEY_END then
        if expected_argument_count_ p =? -1 then (0, (p, d), [])
        else if cast t_size_t (expected_argument_count_ p) <? size p then
          (0, (p, d), [argp_failure 1 0 "too many arguments given" []])
        else if size p <? cast t_size_t (expected_argument_count_ p) then
          (0, (p, d), [argp_failure 1 0 "too few arguments given" []])
        else (0, (p, d), [])
      else if key =? ARGP_KEY_ERROR then (0, (p, d), [])
      else (0, (p, d), [])
  end.

(** [parser(size_t expected_argument_count_ = 0)]: the count is stored in
    an [ssize_t]. *)
Definition new_parser (expected_argument_count : Z) : parser :=
  Parser [option_end] ∅ (cast t_ssize_t expected_argument_count) [] ∅ 0.

(** add an argp-option to the options we care about *)
Definition add_option (o : argp_option) (custom : check_function D) (p : parser)
  : parser :=
  Parser (insert_before_end o (options_ p))
         (map_insert (o_key o) custom (convert_ p))
         (expected_argument_count_ p) (arguments_ p)
         (map_insert (o_key o) 0 (counter_ p))
         (flags_ p).

(** [argp_help(&argp, stderr, ARGP_HELP_USAGE, argv[0])] unless
    [ARGP_NO_HELP]. *)
Definition usage_unless_no_help (p : parser) (stderr : list call) : list call :=
  if has (flags_ p) ARGP_NO_HELP then stderr
  else stderr ++ [argp_help ARGP_HELP_USAGE].

(** processes arguments with argp_parse and evaluate standard arguments *)
Definition parse (evs : list (Z * string)) (p : parser) (d : D)
    (stderr : list call) : outcome bool * (parser * D) * list call :=
  and_then (argp_parse parseoptions_ (flags_ p) evs (p, d) stderr)
    (fun ret st stderr' =>
       let p' := st.1 in
       if has (flags_ p') ARGP_NO_ERRS then (Returned true, st, stderr')
       else if negb (ret =? 0) then
         (Returned false, st, usage_unless_no_help p' stderr')
       else if negb (expected_argument_count_ p' =? -1)
               && negb (cast t_size_t (expected_argument_count_ p') =? size p')
       then (Returned false, st, usage_unless_no_help p' stderr')
       else (Returned true, st, stderr')).

(** [flags_ |= flags] and [flags_ &= ~flags] on an [unsigned]. *)
Definition add_flags (flags : Z) (p : parser) : parser :=
  set_flags_ p (Z.lor (flags_ p) flags).

Definition remove_flags (flags : Z) (p : parser) : parser :=
  set_flags_ p (Z.land (flags_ p) (cast t_unsigned (Z.lnot flags))).

Definition arguments (p : parser) : list string := arguments_ p.

(** The two complaints of the end event. *)
Definition too_few : call := argp_failure 1 0 "too few arguments given" [].
Definition too_many : call := argp_failure 1 0 "too many arguments given" [].

(** What a parse never touches: the option table, the registry, the
    expected count, the flags. *)
Definition config (p : parser) :=
  (options_ p, convert_ p, expected_argument_count_ p, flags_ p).

(** Two states of parser and destinations that differ in [counter_] at
    most. *)
Definition alike (s1 s2 : parser * D) : Prop :=
  config s1.1 = config s2.1 /\ arguments_ s1.1 = arguments_ s2.1 /\ s1.2 = s2.2.

(** The public operations other than [parse]; [arguments()] is const. *)
Inductive method :=
| call_add_option (o : argp_option) (custom : check_function D)
| call_add_flags (flags : Z)
| call_remove_flags (flags : Z)
| call_arguments.

Definition invoke (p : parser) (m : method) : parser :=
  match m with
  | call_add_option o custom => add_option o custom p
  | call_add_flags flags => add_flags flags p
  | call_remove_flags flags => remove_flags flags p
  | call_arguments => p
  end.

End WithDestinations.
Arguments parser : clear implicits.
Arguments method : clear implicits.

End ParserH.

(** ** unnamed/part_000 *)

Module Part000.
Import Libc Argp.

(** [arg_parser]: key, raw text and engine state in, status out; the calls
    made on the engine state are returned with the status. *)
Abbreviation arg_parser D := (Z -> string -> D -> error_t * D * list call)
  (only parsing).

Section WithDestinations.
Context {D : Type}.

(** for integers: [x = std::stol(arg)], any exception reported through
    [argp_error] and turned into -1. *)
Definition make_check_function_integer (T : int_type) (x : ref D Z)
  : arg_parser D :=
  fun _ arg d =>
    match stol arg with
    | inl v => (0, store x (cast T v) d, [])
    | inr err =>
        (-1, d,
         [argp_error "unable to interpret '%s' as a whole number, %s"
                     [FmtString arg; FmtWhat err]])
    end.

(** specialised for std::strings *)
Definition make_check_function_string (x : ref D string) : arg_parser D :=
  fun _ arg d => (0, store x arg d, []).

(** specialisation for bool -> set to true *)
Definition make_check_function_bool (x : ref D bool) : arg_parser D :=
  fun _ _ d => (0, store x true d, []).

(** [x.push_back(v)] *)
Definition push_back {T : Type} (x : ref D (list T)) (v : T) (d : D) : D :=
  store x (load x d ++ [v]) d.

(** specialise above for vectors: the body of the [getline] loop over the
    successive pieces. The piece itself is shadowed by the local [T val];
    the element converter is built on that local and is run on the key, on
    [arg] (the whole raw text) and on the engine state. [val0] is the value
    of the uninitialised local. *)
Fixpoint vector_loop {T : Type} (make : ref T T -> arg_parser T) (val0 : T)
    (x : ref D (list T)) (key : Z) (arg : string) (vals : list string) (d : D)
  : error_t * D * list call :=
  match vals with
  | [] => (0, d, [])
  | _ :: vals' =>
      let '(e, val, cs) := make (self_ref T) key arg val0 in
      if negb (e =? 0) then (-1, d, cs)
      else
        let '(e', d', cs') :=
          vector_loop make val0 x key arg vals' (push_back x val d) in
        (e', d', cs ++ cs')
  end.

Definition make_check_function_vector {T : Type}
    (make : ref T T -> arg_parser T) (val0 : T) (x : ref D (list T))
  : arg_parser D :=
  fun key arg d => vector_loop make val0 x key arg (pieces arg) d.

Record parser := Parser {
  options_ : list argp_option;
  convert_ : gmap Z (arg_parser D);
  expected_argument_count_ : Z;
  arguments_ : list string;
  flags_ : Z;
  help_via_argp_flags : bool
}.

Definition set_arguments_ (p : parser) (a : list string) : parser :=
  Parser (options_ p) (convert_ p) (expected_argument_count_ p) a
         (flags_ p) (help_via_argp_flags p).

Definition set_flags_ (p : parser) (f : Z) : parser :=
  Parser (options_ p) (convert_ p) (expected_argument_count_ p) (arguments_ p)
         f (help_via_argp_flags p).

(** [arguments_.size()] *)
Definition size (p : parser) : Z := Z.of_nat (List.length (arguments_ p)).

(** The virtual handler behind the argp-callback [parseoptions_cb_]. *)
Definition parseoptions_ (key : Z) (arg : string) (st : parser * D)
  : error_t * (parser * D) * list call :=
  let '(p, d) := st in
  if key =? ARGP_KEY_INIT then (0, (set_arguments_ p [], d), [])
  else if key =? ARGP_KEY_ARG then
    (0, (set_arguments_ p (arguments_ p ++ [arg]), d), [])
  else if key =? ARGP_KEY_END then
    if expected_argument_count_ p =? -1 then (0, (p, d), [])
    else if cast t_size_t (expected_argument_count_ p) <? size p then
      (0, (p, d), [argp_error "too many arguments given" []])
    else if size p <? cast t_size_t (expected_argument_count_ p) then
      (0, (p, d), [argp_error "too few arguments given" []])
    else (0, (p, d), [])
  else if key =? ARGP_KEY_ERROR then (0, (p, d), [])
  else
    match convert_ p !! key with
    | Some opt => let '(e, d', cs) := opt key arg d in (e, (p, d'), cs)
    | None => (0, (p, d), [])
    end.

(** [parser(size_t expected_argument_count = 0)] *)
Definition new_parser (expected_argument_count : Z) : parser :=
  Parser [option_end] ∅ (cast t_ssize_t expected_argument_count) [] 0 true.

(** add an argp-option to the options we care about *)
Definition add_option (o : argp_option) (custom : arg_parser D) (p : parser)
  : parser :=
  Parser (insert_before_end o (options_ p))
         (map_insert (o_key o) custom (convert_ p))
         (expected_argument_count_ p) (arguments_ p) (flags_ p)
         (help_via_argp_flags p).

(** The overload for a boolean function of the raw text: its wrapper
    reports a refusal through [argp_error] and turns it into -1. *)
Definition wrap_custom (custom : string -> D -> bool * D) : arg_parser D :=
  fun key arg d =>
    let '(ok, d') := custom arg d in
    if negb ok then
      (-1, d',
       [argp_error "argument '%s' not usable for '%c'" [FmtString arg; FmtChar key]])
    else (0, d', []).

Definition add_option_function (o : argp_option)
    (custom : string -> D -> bool * D) (p : parser) : parser :=
  Parser (insert_before_end o (options_ p))
         (map_insert (o_key o) (wrap_custom custom) (convert_ p))
         (expected_argument_count_ p) (arguments_ p) (flags_ p)
         (help_via_argp_flags p).

(** [argp_help(&argp, stderr, ARGP_HELP_USAGE, argv[0])] unless
    [help_disabled]. *)
Definition usage_unless_disabled (p : parser) (stderr : list call) : list call :=
  if help_via_argp_flags p && has (flags_ p) ARGP_NO_HELP then stderr
  else stderr ++ [argp_help ARGP_HELP_USAGE].

(** processes arguments with argp_parse and evaluate standard arguments *)
Definition parse (evs : list (Z * string)) (p : parser) (d : D)
    (stderr : list call) : outcome bool * (parser * D) * list call :=
  and_then (argp_parse parseoptions_ (flags_ p) evs (p, d) stderr)
    (fun ret st stderr' =>
       let p' := st.1 in
       if has (flags_ p') ARGP_NO_ERRS then (Returned true, st, stderr')
       else if negb (ret =? 0) then
         (Returned false, st, usage_unless_disabled p' stderr')
       else if negb (expected_argument_count_ p' =? -1)
               && negb (cast t_size_t (expected_argument_count_ p') =? size p')
       then (Returned false, st, usage_unless_disabled p' stderr')
       else (Returned true, st, stderr')).

(** [flags_ |= flags] and [flags_ &= ~flags] on an [unsigned]. *)
Definition add_flags (flags : Z) (p : parser) : parser :=
  set_flags_ p (Z.lor (flags_ p) flags).

Definition remove_flags (flags : Z) (p : parser) : parser :=
  set_flags_ p (Z.land (flags_ p) (cast t_unsigned (Z.lnot flags))).

Definition arguments (p : parser) : list string := arguments_ p.

(** The two complaints of the end event. *)
Definition too_few : call := argp_error "too few arguments given" [].
Definition too_many : call := argp_error "too many arguments given" [].

(** What a parse never touches: everything but [arguments_]. *)
Definition config (p : parser) :=
  (options_ p, convert_ p, expected_argument_count_ p, flags_ p,
   help_via_argp_flags p).

(** The public operations other than [parse], the assignment of the public
    member [help_via_argp_flags] among them; [arguments()] is const. *)
Inductive method :=
| call_add_option (o : argp_option) (custom : arg_parser D)
| call_add_option_function (o : argp_option) (custom : string -> D -> bool * D)
| call_add_flags (flags : Z)
| call_remove_flags (flags : Z)
| assign_help_via_argp_flags (b : bool)
| call_arguments.

Definition invoke (p : parser) (m : method) : parser :=
  match m with
  | call_add_option o custom => add_option o custom p
  | call_add_option_function o custom => add_option_function o custom p
  | call_add_flags flags => add_flags flags p
  | call_remove_flags flags => remove_flags flags p
  | assign_help_via_argp_flags b =>
      Parser (options_ p) (convert_ p) (expected_argument_count_ p)
             (arguments_ p) (flags_ p) b
  | call_arguments => p
  end.

End WithDestinations.
Arguments parser : clear implicits.
Arguments method : clear implicits.

End Part000.

(** * Notions used to state further properties *)

Module Views.
Import Libc Argp.

(** The texts of the positional events of a command line, in order. *)
Fixpoint arg_texts (evs : list (Z * string)) : list string :=
  match evs with
  | [] => []
  | (key, arg) :: evs' =>
      if key =? ARGP_KEY_ARG then arg :: arg_texts evs' else arg_texts evs'
  end.

(** The descriptors that a sequence of operations registers, in order. *)
Fixpoint h_registered {D : Type} (ms : list (ParserH.method D)) : list argp_option :=
  match ms with
  | [] => []
  | ParserH.call_add_option o _ :: ms' => o :: h_registered ms'
  | _ :: ms' => h_registered ms'
  end.

Fixpoint p_registered {D : Type} (ms : list (Part000.method D)) : list argp_option :=
  match ms with
  | [] => []
  | Part000.call_add_option o _ :: ms' => o :: p_registered ms'
  | Part000.call_add_option_function o _ :: ms' => o :: p_registered ms'
  | _ :: ms' => p_registered ms'
  end.

(** The elements of a sequence written as one option text. *)
Fixpoint join (l : list string) : string :=
  match l with
  | [] => EmptyString
  | [v] => v
  | v :: l' => v +:+ String ","%char (join l')
  end.

Definition not_comma (c : ascii) : bool := negb (Ascii.eqb c ","%char).

(** Whether [std::stoi] converts a piece, and to what. *)
Definition stoi_ok (val : string) : bool :=
  match stoi val with
  | inl _ => true
  | inr _ => false
  end.

Definition stoi_value (val : string) : Z :=
  match stoi val with
  | inl v => v
  | inr _ => 0
  end.

(** What [strtol] with base 0 reads the digits of a text from, once the
    white space, the sign and the prefix are through, and in which base. *)
Definition base_in_effect (arg : string) : Z :=
  (read_prefix 0 (read_sign (skip_space arg)).2).1.1.

Definition numeral_body (arg : string) : string :=
  (read_prefix 0 (read_sign (skip_space arg)).2).1.2.

Definition digit_of_base (base : Z) (c : ascii) : bool :=
  match digit_in base c with
  | Some _ => true
  | None => false
  end.

(** The registry and the counters of cxx_argp_parser.h have the same
    keys. *)
Definition same_keys {D : Type} (p : ParserH.parser D) : Prop :=
  forall k, is_Some (ParserH.convert_ p !! k) <-> is_Some (ParserH.counter_ p !! k).

End Views.

(** * Concrete parsers and command lines *)

Module Runs.
Import Libc Argp.

(** [-n N], [--count=N] *)
Definition opt_n : argp_option :=
  ArgpOption (Some "count") 110 (Some "N") 0 (Some "a count") 0.

(** Exactly two positional arguments and the integer option [-n], bound to
    an [int] that is the whole store. *)
Definition h_parser : ParserH.parser Z :=
  ParserH.add_option opt_n
    (ParserH.make_check_function_integer t_int (self_ref Z))
    (ParserH.new_parser 2).

Definition p_parser : Part000.parser Z :=
  Part000.add_option opt_n
    (Part000.make_check_function_integer t_int (self_ref Z))
    (Part000.new_parser 2).

(** Two custom converters that leave their mark in the store. *)
Definition h_writes (v : Z) : ParserH.check_function Z := fun _ _ => (true, v).
Definition p_writes (v : Z) : Part000.arg_parser Z := fun _ _ _ => (0, v, []).

(** [-v LIST], bound to a vector of [int] that is the whole store; no
    positional argument expected. *)
Definition opt_v : argp_option :=
  ArgpOption (Some "values") 118 (Some "LIST") 0 (Some "some values") 0.

Definition h_vector_parser : ParserH.parser (list Z) :=
  ParserH.add_option opt_v
    (ParserH.make_check_function_vector t_int (self_ref (list Z)))
    (ParserH.new_parser 0).

Definition p_vector_parser : Part000.parser (list Z) :=
  Part000.add_option opt_v
    (Part000.make_check_function_vector
       (Part000.make_check_function_integer t_int) 0 (self_ref (list Z)))
    (Part000.new_parser 0).

(** [-n 5 a b] and [-n x a b] as the engine hands them over. *)
Definition good_line : list (Z * string) := [(110, "5"); ev_arg "a"; ev_arg "b"].
Definition bad_option : list (Z * string) := [(110, "x"); ev_arg "a"; ev_arg "b"].
Definition bad_arity : list (Z * string) := [ev_arg "a"].
Definition bad_both : list (Z * string) := [(110, "x"); ev_arg "a"].

End Runs.
(** * Facts about the library models *)

Module LibcFacts.
Import Libc.

Lemma read_until_rest delim s v rest :
  read_until delim s = (v, Some rest) ->
  (String.length rest < String.length s)%nat.
Proof.
  revert v rest. induction s as [|c s IH]; intros v rest; simpl.
  - discriminate.
  - destruct (Ascii.eqb c delim).
    + intros H. simplify_eq. simpl. lia.
    + destruct (read_until delim s) as [v' r'] eqn:E.
      intros H. simplify_eq. specialize (IH _ _ eq_refl). simpl. lia.
Qed.

Lemma read_until_none delim s :
  read_until delim s = (EmptyString, None) -> s = EmptyString.
Proof.
  destruct s as [|c s]; simpl; [done|].
  destruct (Ascii.eqb c delim); [discriminate|].
  destruct (read_until delim s); discriminate.
Qed.

(** The loop over [getline] ends: more fuel than one call per character
    plus one changes nothing. *)
Lemma getlines_fuel n : forall fuel ss delim,
  (String.length (rdbuf ss) < n)%nat -> (n <= fuel)%nat ->
  getlines fuel ss delim = getlines n ss delim.
Proof.
  induction n as [|n IH]; intros fuel ss delim Hlen Hfuel; [lia|].
  destruct fuel as [|fuel]; [lia|]. simpl.
  unfold getline. destruct ss as [buf eof]; simpl in *.
  destruct eof; [done|].
  destruct (read_until delim buf) as [v [rest|]] eqn:E.
  - f_equal. apply IH; simpl; [|lia].
    apply read_until_rest in E. lia.
  - destruct v as [|c v]; [done|]. f_equal.
    destruct buf as [|b buf]; [simpl in E; discriminate|]. simpl in Hlen.
    destruct fuel as [|fuel]; [lia|]. destruct n as [|n]; [lia|]. reflexivity.
Qed.

Lemma pieces_fuel arg fuel :
  (Datatypes.S (String.length arg) <= fuel)%nat ->
  getlines fuel (StringStream arg false) ","%char = pieces arg.
Proof. intros H. unfold pieces. apply getlines_fuel; simpl; lia. Qed.

End LibcFacts.

(** * Facts about the engine model *)

Module ArgpFacts.
Import Argp.

Lemma perform_no_errs flags c :
  has flags ARGP_NO_ERRS = true -> (perform flags c).2 = None.
Proof. intros H. destruct c; simpl; rewrite ?H; reflexivity. Qed.

Lemma perform_all_no_errs flags cs : forall stderr,
  has flags ARGP_NO_ERRS = true -> (perform_all flags cs stderr).2 = None.
Proof.
  induction cs as [|c cs IH]; intros stderr H; simpl; [done|].
  pose proof (perform_no_errs flags c H) as Hc.
  destruct (perform flags c) as [out [status|]]; simpl in Hc; [done|].
  by apply IH.
Qed.

Section Engine.
Context {St : Type}.
Implicit Types (cb : callback St) (st : St) (stderr : list call).

(** A handler that calls nothing on the engine state just returns. *)
Lemma group_parse_quiet cb flags key arg st stderr e st' :
  cb key arg st = (e, st', []) ->
  group_parse cb flags key arg st stderr = (Returned e, st', stderr).
Proof. intros H. unfold group_parse. rewrite H. reflexivity. Qed.

Lemma group_parse_state cb flags key arg st stderr :
  (group_parse cb flags key arg st stderr).1.2 = (cb key arg st).1.2.
Proof.
  unfold group_parse. destruct (cb key arg st) as [[e st'] cs]. simpl.
  destruct (perform_all flags cs stderr) as [err' [status|]]; reflexivity.
Qed.

(** *** Splitting a run at an event *)

Lemma parser_parse_next_app cb flags l1 l2 : forall st stderr,
  parser_parse_next cb flags (l1 ++ l2) st stderr
  = and_then (parser_parse_next cb flags l1 st stderr) (fun e st' stderr' =>
      if e =? 0 then parser_parse_next cb flags l2 st' stderr'
      else (Returned e, st', stderr')).
Proof.
  induction l1 as [|[key arg] l1 IH]; intros st stderr; simpl; [done|].
  destruct (group_parse cb flags key arg st stderr) as [[[e|status] st'] stderr'];
    simpl; [|done].
  destruct (e =? 0) eqn:E; [apply IH|]. simpl. by rewrite E.
Qed.

(** Once every event has been accepted, the closing keys are all that is
    left of the run. *)
Lemma argp_parse_after_events cb flags evs st stderr st1 stderr1 :
  parse_events cb flags evs st stderr = (Returned 0, st1, stderr1) ->
  argp_parse cb flags evs st stderr
  = parser_finalize cb flags (has_args evs) 0 st1 stderr1.
Proof.
  unfold parse_events, argp_parse.
  destruct (group_parse cb flags ARGP_KEY_INIT "" st stderr)
    as [[[e0|status] st0] stderr0]; simpl; [|done].
  destruct (Z.eqb_spec e0 0) as [->|Hne].
  - by intros ->.
  - intros H. congruence.
Qed.

(** An event at which the process exits, after events that were accepted:
    what follows it is never looked at. *)
Lemma argp_parse_exits_at cb flags pre key arg rest st stderr st1 stderr1
    status st2 stderr2 :
  parse_events cb flags pre st stderr = (Returned 0, st1, stderr1) ->
  group_parse cb flags key arg st1 stderr1 = (Exited status, st2, stderr2) ->
  argp_parse cb flags (pre ++ (key, arg) :: rest) st stderr
  = (Exited status, st2, stderr2).
Proof.
  unfold parse_events, argp_parse.
  destruct (group_parse cb flags ARGP_KEY_INIT "" st stderr)
    as [[[e0|status0] st0] stderr0]; simpl; [|done].
  destruct (Z.eqb_spec e0 0) as [->|Hne]; [|intros H; congruence].
  intros Hpre Hexit. rewrite parser_parse_next_app, Hpre. simpl.
  by rewrite Hexit.
Qed.

(** *** Properties of the state kept by every handler run *)

Section Invariant.
Variable I : St -> Prop.
Variable cb : callback St.
Hypothesis cb_keeps : forall key arg st, I st -> I (cb key arg st).1.2.

Lemma group_parse_keeps flags key arg st stderr :
  I st -> I (group_parse cb flags key arg st stderr).1.2.
Proof. intros H. rewrite group_parse_state. by apply cb_keeps. Qed.

Lemma and_then_keeps {A B} (m : run St A) (f : A -> St -> list call -> run St B) :
  I m.1.2 -> (forall a st stderr, I st -> I (f a st stderr).1.2) ->
  I (and_then m f).1.2.
Proof.
  destruct m as [[[a|status] st] stderr]; simpl; intros Hm Hf; [by apply Hf|done].
Qed.

Lemma parser_parse_next_keeps flags evs : forall st stderr,
  I st -> I (parser_parse_next cb flags evs st stderr).1.2.
Proof.
  induction evs as [|[key arg] evs IH]; intros st stderr H; simpl; [done|].
  apply and_then_keeps; [by apply group_parse_keeps|].
  intros e st' stderr' H'. destruct (e =? 0); [by apply IH|done].
Qed.

Lemma parser_finalize_keeps flags b e st stderr :
  I st -> I (parser_finalize cb flags b e st stderr).1.2.
Proof.
  intros H. unfold parser_finalize.
  assert (Hfini : forall (e : error_t) st stderr, I st ->
    I (and_then (group_parse cb flags ARGP_KEY_FINI "" st stderr)
         (fun _ st' stderr' => (Returned e, st', stderr'))).1.2).
  { intros. apply and_then_keeps; [by apply group_parse_keeps|done]. }
  assert (Hfailed : forall (e : error_t) st stderr, I st ->
    I (and_then (group_parse cb flags ARGP_KEY_ERROR "" st stderr)
         (fun _ st' stderr' =>
            and_then (group_parse cb flags ARGP_KEY_FINI "" st' stderr')
              (fun _ st'' stderr'' => (Returned e, st'', stderr'')))).1.2).
  { intros. apply and_then_keeps; [by apply group_parse_keeps|]. intros. by apply Hfini. }
  destruct (e =? 0); [|by apply Hfailed].
  apply and_then_keeps.
  { destruct b; [done|by apply group_parse_keeps]. }
  intros e1 st1 stderr1 H1. destruct (e1 =? 0); [|by apply Hfailed].
  apply and_then_keeps; [by apply group_parse_keeps|].
  intros e2 st2 stderr2 H2. destruct (e2 =? 0); [|by apply Hfailed].
  apply and_then_keeps; [by apply group_parse_keeps|].
  intros. by apply Hfini.
Qed.

Lemma argp_parse_keeps flags evs st stderr :
  I st -> I (argp_parse cb flags evs st stderr).1.2.
Proof.
  intros H. unfold argp_parse.
  apply and_then_keeps; [by apply group_parse_keeps|].
  intros e0 st0 stderr0 H0. destruct (e0 =? 0); [|done].
  apply and_then_keeps; [by apply parser_parse_next_keeps|].
  intros. by apply parser_finalize_keeps.
Qed.

End Invariant.

(** *** Under [ARGP_NO_ERRS] the engine always returns *)

Lemma and_then_returns {A B} (m : run St A) (f : A -> St -> list call -> run St B) :
  returns m -> (forall a st stderr, returns (f a st stderr)) ->
  returns (and_then m f).
Proof.
  intros [a Ha] Hf. destruct m as [[[a'|status] st] stderr]; simpl in *; [apply Hf|done].
Qed.

Section NoErrs.
Variable cb : callback St.
Variable flags : Z.
Hypothesis no_errs : has flags ARGP_NO_ERRS = true.

Lemma group_parse_returns key arg st stderr :
  returns (group_parse cb flags key arg st stderr).
Proof.
  unfold group_parse. destruct (cb key arg st) as [[e st'] cs].
  pose proof (perform_all_no_errs flags cs stderr no_errs) as H.
  destruct (perform_all flags cs stderr) as [err' [status|]]; simpl in H; [done|].
  by exists e.
Qed.

Lemma parser_parse_next_returns evs : forall st stderr,
  returns (parser_parse_next cb flags evs st stderr).
Proof.
  induction evs as [|[key arg] evs IH]; intros st stderr; simpl; [by exists 0|].
  apply and_then_returns; [apply group_parse_returns|].
  intros e st' stderr'. destruct (e =? 0); [apply IH|by exists e].
Qed.

Lemma parser_finalize_returns b e st stderr :
  returns (parser_finalize cb flags b e st stderr).
Proof.
  unfold parser_finalize.
  assert (Hfini : forall (e : error_t) st stderr, returns
    (and_then (group_parse cb flags ARGP_KEY_FINI "" st stderr)
         (fun _ st' stderr' => (Returned e, st', stderr')))).
  { intros e' **. apply and_then_returns; [apply group_parse_returns|]. intros. by exists e'. }
  assert (Hfailed : forall (e : error_t) st stderr, returns
    (and_then (group_parse cb flags ARGP_KEY_ERROR "" st stderr)
         (fun _ st' stderr' =>
            and_then (group_parse cb flags ARGP_KEY_FINI "" st' stderr')
              (fun _ st'' stderr'' => (Returned e, st'', stderr''))))).
  { intros. apply and_then_returns; [apply group_parse_returns|]. intros. apply Hfini. }
  destruct (e =? 0); [|apply Hfailed].
  apply and_then_returns.
  { destruct b; [by exists 0|apply group_parse_returns]. }
  intros e1 st1 stderr1. destruct (e1 =? 0); [|apply Hfailed].
  apply and_then_returns; [apply group_parse_returns|].
  intros e2 st2 stderr2. destruct (e2 =? 0); [|apply Hfailed].
  apply and_then_returns; [apply group_parse_returns|].
  intros. apply Hfini.
Qed.

Lemma argp_parse_returns evs st stderr :
  returns (argp_parse cb flags evs st stderr).
Proof.
  unfold argp_parse.
  apply and_then_returns; [apply group_parse_returns|].
  intros e0 st0 stderr0. destruct (e0 =? 0); [|by exists e0].
  apply and_then_returns; [apply parser_parse_next_returns|].
  intros. apply parser_finalize_returns.
Qed.

End NoErrs.

(** *** Two runs from related states *)

Section Simulation.
Variable R : St -> St -> Prop.
Variable cb : callback St.

Lemma group_parse_sim flags key arg s1 s2 stderr :
  cb_sim R cb key arg s1 s2 ->
  sim R (group_parse cb flags key arg s1 stderr)
      (group_parse cb flags key arg s2 stderr).
Proof.
  unfold cb_sim, sim, group_parse.
  destruct (cb key arg s1) as [[e1 s1'] cs1], (cb key arg s2) as [[e2 s2'] cs2].
  simpl. intros (-> & -> & HR).
  by destruct (perform_all flags cs2 stderr) as [stderr' [status|]].
Qed.

Lemma and_then_sim {A B} (m1 m2 : run St A)
    (f : A -> St -> list call -> run St B) :
  sim R m1 m2 ->
  (forall a s1 s2 stderr, R s1 s2 -> sim R (f a s1 stderr) (f a s2 stderr)) ->
  sim R (and_then m1 f) (and_then m2 f).
Proof.
  destruct m1 as [[[a1|x1] s1] err1], m2 as [[[a2|x2] s2] err2];
    unfold sim; simpl; intros (Ho & He & HR) Hf; simplify_eq.
  - by apply Hf.
  - done.
Qed.

Hypothesis cb_sims : forall key arg s1 s2, R s1 s2 -> cb_sim R cb key arg s1 s2.

Lemma parser_parse_next_sim flags evs : forall s1 s2 stderr,
  R s1 s2 ->
  sim R (parser_parse_next cb flags evs s1 stderr)
      (parser_parse_next cb flags evs s2 stderr).
Proof.
  induction evs as [|[key arg] evs IH]; intros s1 s2 stderr H; simpl; [done|].
  apply and_then_sim; [by apply group_parse_sim, cb_sims|].
  intros e s1' s2' stderr' H'. destruct (e =? 0); [by apply IH|done].
Qed.

Lemma parser_finalize_sim flags b e s1 s2 stderr :
  R s1 s2 ->
  sim R (parser_finalize cb flags b e s1 stderr)
      (parser_finalize cb flags b e s2 stderr).
Proof.
  intros H. unfold parser_finalize.
  assert (Hfini : forall (e : error_t) s1 s2 stderr, R s1 s2 -> sim R
    (and_then (group_parse cb flags ARGP_KEY_FINI "" s1 stderr)
         (fun _ st' stderr' => (Returned e, st', stderr')))
    (and_then (group_parse cb flags ARGP_KEY_FINI "" s2 stderr)
         (fun _ st' stderr' => (Returned e, st', stderr')))).
  { intros. apply and_then_sim; [by apply group_parse_sim, cb_sims|done]. }
  assert (Hfailed : forall (e : error_t) s1 s2 stderr, R s1 s2 -> sim R
    (and_then (group_parse cb flags ARGP_KEY_ERROR "" s1 stderr)
         (fun _ st' stderr' =>
            and_then (group_parse cb flags ARGP_KEY_FINI "" st' stderr')
              (fun _ st'' stderr'' => (Returned e, st'', stderr''))))
    (and_then (group_parse cb flags ARGP_KEY_ERROR "" s2 stderr)
         (fun _ st' stderr' =>
            and_then (group_parse cb flags ARGP_KEY_FINI "" st' stderr')
              (fun _ st'' stderr'' => (Returned e, st'', stderr''))))).
  { intros. apply and_then_sim; [by apply group_parse_sim, cb_sims|].
    intros. by apply Hfini. }
  destruct (e =? 0); [|by apply Hfailed].
  apply and_then_sim.
  { destruct b; [done|by apply group_parse_sim, cb_sims]. }
  intros e1 t1 t2 stderr1 H1. destruct (e1 =? 0); [|by apply Hfailed].
  apply and_then_sim; [by apply group_parse_sim, cb_sims|].
  intros e2 u1 u2 stderr2 H2. destruct (e2 =? 0); [|by apply Hfailed].
  apply and_then_sim; [by apply group_parse_sim, cb_sims|].
  intros. by apply Hfini.
Qed.

(** The states need only be related once [ARGP_KEY_INIT] has been
    handled. *)
Lemma argp_parse_sim flags evs s1 s2 stderr :
  cb_sim R cb ARGP_KEY_INIT "" s1 s2 ->
  sim R (argp_parse cb flags evs s1 stderr) (argp_parse cb flags evs s2 stderr).
Proof.
  intros H. unfold argp_parse.
  apply and_then_sim; [by apply group_parse_sim|].
  intros e0 t1 t2 stderr0 H0. destruct (e0 =? 0); [|done].
  apply and_then_sim; [by apply parser_parse_next_sim|].
  intros. by apply parser_finalize_sim.
Qed.

End Simulation.

End Engine.

End ArgpFacts.

(** * Facts about [strtol] *)

Module StrtolFacts.
Import Libc.

Lemma skip_space_all f s :
  (forall c, isspace c = true -> f c = true) ->
  all_chars f (skip_space s) = true -> all_chars f s = true.
Proof.
  intros Hf. induction s as [|c s IH]; simpl; [done|].
  destruct (isspace c) eqn:E; simpl.
  - intros H. by rewrite (Hf c E), IH.
  - done.
Qed.

Lemma digits_all f base s : forall acc any acc' any' rest,
  (forall c d, digit_in base c = Some d -> f c = true) ->
  digits base acc any s = (acc', any', rest) ->
  all_chars f rest = true -> all_chars f s = true.
Proof.
  induction s as [|c s IH]; simpl; intros acc any acc' any' rest Hf Hd Hrest.
  - by simplify_eq.
  - destruct (digit_in base c) as [dv|] eqn:E.
    + rewrite (Hf c dv E). simpl. by eapply IH.
    + by simplify_eq.
Qed.

Lemma digit_in_numeric base c d :
  base <= 16 -> digit_in base c = Some d -> numeric_char c = true.
Proof.
  unfold digit_in, numeric_char, is_xdigit. intros Hb.
  destruct (digit_of c) as [dv|]; [|done].
  destruct (Z.ltb_spec dv base); [|done]. intros _.
  destruct (Z.ltb_spec dv 16); [|lia]. by rewrite !orb_true_r.
Qed.

Lemma read_sign_numeric s neg s1 :
  read_sign s = (neg, s1) ->
  all_chars numeric_char s1 = true -> all_chars numeric_char s = true.
Proof.
  unfold read_sign. destruct s as [|c s']; [by intros; simplify_eq|].
  assert (Hs : is_sign c = true -> numeric_char c = true).
  { unfold numeric_char. intros ->. by rewrite ?orb_true_r. }
  unfold is_sign in Hs.
  destruct (code c =? 45) eqn:E1; [|destruct (code c =? 43) eqn:E2];
    intros H H1; simplify_eq; simpl; rewrite ?H1; try done.
  - rewrite Hs; [done|by rewrite orb_true_r].
  - by rewrite Hs.
Qed.

Lemma read_prefix_numeric s b s2 hex :
  read_prefix 0 s = (b, s2, hex) ->
  b <= 16
  /\ (all_chars numeric_char s2 = true -> all_chars numeric_char s = true)
  /\ (forall at_x, hex = Some at_x -> at_x <> EmptyString).
Proof.
  assert (H0 : forall c, (code c =? 48) = true -> numeric_char c = true).
  { intros c Hc. apply Z.eqb_eq in Hc. unfold numeric_char, is_xdigit, digit_of.
    rewrite Hc. simpl. by rewrite ?orb_true_r. }
  assert (Hx : forall c, is_x c = true -> numeric_char c = true).
  { intros c Hc. unfold numeric_char. rewrite Hc. by rewrite ?orb_true_r. }
  unfold read_prefix. destruct s as [|c0 [|cx s']]; simpl.
  - intros H. simplify_eq. split; [lia|]. split; [done|]. by intros.
  - destruct (code c0 =? 48); simpl; intros H; simplify_eq;
      (split; [lia|]); (split; [done|]); by intros.
  - destruct (code c0 =? 48) eqn:E0; simpl.
    + destruct (is_x cx) eqn:Ex; simpl; intros H; simplify_eq.
      * split; [lia|]. split.
        -- intros ->. by rewrite (H0 c0 E0), (Hx cx Ex).
        -- intros at_x H. by simplify_eq.
      * split; [lia|]. split; [done|]. by intros.
    + intros H; simplify_eq. split; [lia|]. split; [done|]. by intros.
Qed.

(** A text that [strtol] with base 0 takes to its end is made of numeric
    characters only. *)
Lemma strtol_full_numeric s :
  endptr (strtol s 0) = EmptyString -> all_chars numeric_char s = true.
Proof.
  destruct s as [|c s'] eqn:Hs; [done|]. rewrite <- Hs.
  assert (Hne : s <> EmptyString) by by rewrite Hs.
  clear Hs. unfold strtol.
  destruct (read_sign (skip_space s)) as [neg s1] eqn:Hsign.
  destruct (read_prefix 0 s1) as [[b s2] hex] eqn:Hpre.
  destruct (digits b 0 false s2) as [[acc any] rest] eqn:Hd.
  destruct (read_prefix_numeric _ _ _ _ Hpre) as (Hb & Hs2 & Hhex).
  intros Hend.
  assert (Hrest : any = true /\ rest = EmptyString).
  { destruct any.
    - split; [done|]. by repeat case_match.
    - destruct hex as [at_x|]; simpl in Hend; [by apply Hhex in Hend|done]. }
  destruct Hrest as [_ ->].
  apply skip_space_all.
  { intros c1 Hc. unfold numeric_char. by rewrite Hc. }
  eapply read_sign_numeric; [done|]. apply Hs2.
  eapply digits_all; [|done|done].
  intros c1 d1. by apply digit_in_numeric.
Qed.

(** A text that [strtol] with base 0 takes to its end is, after the white
    space, the sign and the prefix, made of digits of the base in effect. *)
Lemma strtol_full_body s :
  endptr (strtol s 0) = EmptyString ->
  all_chars (Views.digit_of_base (Views.base_in_effect s)) (Views.numeral_body s)
  = true.
Proof.
  destruct s as [|c s'] eqn:Hs; [intros _; reflexivity|]. rewrite <- Hs.
  assert (Hne : s <> EmptyString) by by rewrite Hs.
  clear Hs. unfold strtol, Views.base_in_effect, Views.numeral_body.
  destruct (read_sign (skip_space s)) as [neg s1] eqn:Hsign. cbn [fst snd].
  destruct (read_prefix 0 s1) as [[b s2] hex] eqn:Hpre.
  destruct (digits b 0 false s2) as [[acc any] rest] eqn:Hd.
  destruct (read_prefix_numeric _ _ _ _ Hpre) as (Hb & Hs2 & Hhex).
  intros Hend. cbn [fst snd].
  assert (Hrest : rest = EmptyString).
  { destruct any.
    - by repeat case_match.
    - destruct hex as [at_x|]; simpl in Hend; [by apply Hhex in Hend|done]. }
  subst rest.
  apply (digits_all _ b s2 0 false acc any EmptyString); [|exact Hd|reflexivity].
  intros c1 d1 H1. unfold Views.digit_of_base. by rewrite H1.
Qed.

(** *** Decimal numerals *)

Lemma is_digit_digit_in c :
  is_digit c = true -> digit_in 10 c = Some (code c - 48).
Proof.
  unfold is_digit, digit_in, digit_of. intros H. rewrite H.
  apply andb_true_iff in H as [H1 H2].
  apply Z.leb_le in H1, H2.
  by destruct (Z.ltb_spec (code c - 48) 10); [|lia].
Qed.

Lemma not_digit_digit_in c : is_digit c = false -> digit_in 10 c = None.
Proof.
  unfold is_digit, digit_in, digit_of. intros ->.
  destruct ((97 <=? code c) && (code c <=? 122)) eqn:E1.
  { apply andb_true_iff in E1 as [H1 H2]. apply Z.leb_le in H1, H2.
    by destruct (Z.ltb_spec (code c - 87) 10); [lia|]. }
  destruct ((65 <=? code c) && (code c <=? 90)) eqn:E2; [|done].
  apply andb_true_iff in E2 as [H1 H2]. apply Z.leb_le in H1, H2.
  by destruct (Z.ltb_spec (code c - 55) 10); [lia|].
Qed.

(** The digit loop on a decimal numeral followed by something else. *)
Lemma digits_decimal ds : forall acc any c tail,
  all_chars is_digit ds = true -> is_digit c = false ->
  digits 10 acc any (ds +:+ String c tail)
  = (decimal acc ds, match ds with EmptyString => any | _ => true end,
     String c tail).
Proof.
  induction ds as [|c0 ds IH]; intros acc any c tail Hds Hc; simpl.
  - by rewrite (not_digit_digit_in c Hc).
  - simpl in Hds. apply andb_true_iff in Hds as [H0 Hds].
    rewrite (is_digit_digit_in c0 H0), IH by done. by destruct ds.
Qed.

Lemma digits_decimal_end ds : forall acc any,
  all_chars is_digit ds = true ->
  digits 10 acc any ds
  = (decimal acc ds, match ds with EmptyString => any | _ => true end,
     EmptyString).
Proof.
  induction ds as [|c0 ds IH]; intros acc any Hds; simpl; [done|].
  simpl in Hds. apply andb_true_iff in Hds as [H0 Hds].
  rewrite (is_digit_digit_in c0 H0), IH by done. by destruct ds.
Qed.

(** [strtol], base 0 or 10, on a decimal numeral that does not start with
    [0], followed by a character that is not a digit: the numeral is
    converted and [end] is left at that character. *)
Lemma strtol_decimal_then base c0 ds c tail :
  base = 0 \/ base = 10 ->
  is_digit c0 = true -> code c0 <> 48 ->
  all_chars is_digit ds = true -> is_digit c = false ->
  strtol (String c0 ds +:+ String c tail) base
  = if LONG_MAX <? decimal 0 (String c0 ds)
    then StrtolResult LONG_MAX (String c tail) ERANGE
    else StrtolResult (decimal 0 (String c0 ds)) (String c tail) 0.
Proof.
  intros Hbase H0 Hnz Hds Hc.
  assert (Hr : 48 <= code c0 <= 57).
  { unfold is_digit in H0. apply andb_true_iff in H0 as [H1 H2].
    apply Z.leb_le in H1, H2. lia. }
  unfold strtol. simpl skip_space.
  assert (Hsp : isspace c0 = false).
  { unfold isspace.
    destruct (Z.eqb_spec (code c0) 32); [lia|].
    destruct (Z.leb_spec 9 (code c0)), (Z.leb_spec (code c0) 13); simpl; try done; lia. }
  rewrite Hsp. unfold read_sign. simpl.
  destruct (Z.eqb_spec (code c0) 45); [lia|].
  destruct (Z.eqb_spec (code c0) 43); [lia|].
  assert (Hpre : read_prefix base (String c0 (ds +:+ String c tail))
                 = (10, String c0 (ds +:+ String c tail), None)).
  { unfold read_prefix. destruct (Z.eqb_spec (code c0) 48); [lia|]. simpl.
    destruct ds; simpl; by destruct Hbase as [-> | ->]. }
  rewrite Hpre.
  change (String c0 (ds +:+ String c tail)) with (String c0 ds +:+ String c tail).
  rewrite digits_decimal; [|by simpl; rewrite H0, Hds|done]. reflexivity.
Qed.

Lemma read_prefix_10 s : read_prefix 10 s = (10, s, None).
Proof.
  unfold read_prefix. destruct s as [|c0 [|cx s']]; simpl;
    by rewrite ?andb_false_r.
Qed.

Lemma digits_no_digit c s :
  is_digit c = false -> digits 10 0 false (String c s) = (0, false, String c s).
Proof. intros H. simpl. by rewrite (not_digit_digit_in c H). Qed.

(** Without a leading digit [strtol] with base 10 converts nothing. *)
Lemma strtol_no_digit s :
  leading_digit s = false -> strtol s 10 = StrtolResult 0 s 0.
Proof.
  unfold leading_digit, strtol, read_sign, is_sign.
  destruct (skip_space s) as [|c s'] eqn:Hs; [done|].
  destruct (code c =? 45) eqn:E45; [|destruct (code c =? 43) eqn:E43];
    cbn [orb]; rewrite ?orb_true_r.
  - destruct s' as [|c' s'']; [done|]. intros Hd.
    by rewrite read_prefix_10, digits_no_digit.
  - destruct s' as [|c' s'']; [done|]. intros Hd.
    by rewrite read_prefix_10, digits_no_digit.
  - intros Hd. by rewrite read_prefix_10, digits_no_digit.
Qed.

End StrtolFacts.

(** * Facts about the integer conversions *)

Lemma cast_size_ssize n :
  0 <= n < 2 ^ 64 -> cast t_size_t (cast t_ssize_t n) = n.
Proof.
  intros H. unfold cast. cbn [bits is_signed t_size_t t_ssize_t].
  change (2 ^ 64 / 2) with (2 ^ 63).
  destruct (Z_lt_ge_dec n (2 ^ 63)).
  - rewrite (Z.mod_small (n + 2 ^ 63)) by lia. rewrite Z.mod_small; lia.
  - replace (n + 2 ^ 63) with ((n - 2 ^ 63) + 1 * 2 ^ 64) by lia.
    rewrite Z.mod_add by lia. rewrite (Z.mod_small (n - 2 ^ 63)) by lia.
    replace (n - 2 ^ 63 - 2 ^ 63) with (n + (-1) * 2 ^ 64) by lia.
    rewrite Z.mod_add by lia. rewrite Z.mod_small; lia.
Qed.

Lemma cast_ssize_unlimited n :
  0 <= n < 2 ^ 64 -> (cast t_ssize_t n =? -1) = (n =? unlimited).
Proof.
  intros H. unfold cast, unlimited. cbn [bits is_signed t_ssize_t].
  change (2 ^ 64 / 2) with (2 ^ 63).
  destruct (Z_lt_ge_dec n (2 ^ 63)).
  - rewrite (Z.mod_small (n + 2 ^ 63)) by lia.
    destruct (Z.eqb_spec (n + 2 ^ 63 - 2 ^ 63) (-1)), (Z.eqb_spec n (2 ^ 64 - 1)); lia.
  - replace (n + 2 ^ 63) with ((n - 2 ^ 63) + 1 * 2 ^ 64) by lia.
    rewrite Z.mod_add by lia. rewrite (Z.mod_small (n - 2 ^ 63)) by lia.
    destruct (Z.eqb_spec (n - 2 ^ 63 - 2 ^ 63) (-1)), (Z.eqb_spec n (2 ^ 64 - 1)); lia.
Qed.

Lemma no_reserved_key_lookup {V} (m : gmap Z V) k :
  no_reserved_key m = true -> In k Argp.reserved_keys -> m !! k = None.
Proof.
  unfold no_reserved_key. rewrite forallb_forall. intros H Hk.
  specialize (H k Hk). unfold registered in H. by destruct (m !! k).
Qed.

Lemma has_args_ev_arg args :
  Argp.has_args (map Argp.ev_arg args) = match args with [] => false | _ => true end.
Proof. by destruct args. Qed.

(** * Facts about cxx_argp_parser.h *)

Module ParserHFacts.
Import Libc Argp ArgpFacts ParserH.

Section WithDestinations.
Context {D : Type}.
Implicit Types (p : parser D) (d : D).

Lemma h_parseoptions_config key arg (st : parser D * D) :
  config (parseoptions_ key arg st).1.2.1 = config st.1.
Proof.
  destruct st as [p d]. unfold parseoptions_.
  destruct (convert_ p !! key) as [opt|].
  - destruct (opt arg d) as [[] d']; reflexivity.
  - repeat case_match; reflexivity.
Qed.

Lemma h_argp_parse_config flags evs p d stderr :
  config (argp_parse parseoptions_ flags evs (p, d) stderr).1.2.1 = config p.
Proof.
  apply (argp_parse_keeps (fun st => config st.1 = config p) parseoptions_); [|done].
  intros key arg st H. by rewrite h_parseoptions_config.
Qed.

(** An event whose key is neither registered nor one of the lifecycle
    cases of the switch changes nothing. *)
Lemma h_parseoptions_unknown key arg p d :
  convert_ p !! key = None ->
  key <> ARGP_KEY_INIT -> key <> ARGP_KEY_ARG -> key <> ARGP_KEY_END ->
  parseoptions_ key arg (p, d) = (0, (p, d), []).
Proof.
  intros Hk H1 H2 H3. unfold parseoptions_. rewrite Hk.
  rewrite (proj2 (Z.eqb_neq _ _) H1), (proj2 (Z.eqb_neq _ _) H2),
    (proj2 (Z.eqb_neq _ _) H3).
  by destruct (key =? ARGP_KEY_ERROR).
Qed.

Lemma h_parseoptions_init arg p d :
  convert_ p !! ARGP_KEY_INIT = None ->
  parseoptions_ ARGP_KEY_INIT arg (p, d) = (0, (set_arguments_ p [], d), []).
Proof. intros Hk. unfold parseoptions_. by rewrite Hk. Qed.

Lemma h_parseoptions_arg arg p d :
  convert_ p !! ARGP_KEY_ARG = None ->
  parseoptions_ ARGP_KEY_ARG arg (p, d)
  = (0, (set_arguments_ p (arguments_ p ++ [arg]), d), []).
Proof. intros Hk. unfold parseoptions_. by rewrite Hk. Qed.

Lemma h_parseoptions_end n arg p d :
  0 <= n < 2 ^ 64 ->
  expected_argument_count_ p = cast t_ssize_t n ->
  convert_ p !! ARGP_KEY_END = None ->
  parseoptions_ ARGP_KEY_END arg (p, d)
  = (0, (p, d), arity_calls too_few too_many n (size p)).
Proof.
  intros Hn He Hk. unfold parseoptions_, arity_calls. rewrite Hk. simpl.
  rewrite He, cast_ssize_unlimited, cast_size_ssize by done.
  destruct (n =? unlimited); [done|].
  destruct (Z.ltb_spec n (size p)), (Z.ltb_spec (size p) n); try reflexivity; lia.
Qed.

Lemma h_set_arguments_id p : set_arguments_ p (arguments_ p) = p.
Proof. by destruct p. Qed.

(** A run of positional arguments is appended in order. *)
Lemma h_parser_parse_next_positional flags args : forall p d stderr,
  convert_ p !! ARGP_KEY_ARG = None ->
  parser_parse_next parseoptions_ flags (map ev_arg args) (p, d) stderr
  = (Returned 0, (set_arguments_ p (arguments_ p ++ args), d), stderr).
Proof.
  induction args as [|a args IH]; intros p d stderr Hk; simpl.
  - by rewrite app_nil_r, h_set_arguments_id.
  - rewrite (group_parse_quiet _ _ _ _ _ _ _ _ (h_parseoptions_arg a p d Hk)).
    simpl. rewrite IH by done. simpl. by rewrite <- app_assoc.
Qed.

(** The whole engine run on a command line of positional arguments only:
    nothing but the end event calls the engine. *)
Lemma h_argp_parse_positional n flags args p d stderr :
  0 <= n < 2 ^ 64 ->
  expected_argument_count_ p = cast t_ssize_t n ->
  no_reserved_key (convert_ p) = true ->
  argp_parse parseoptions_ flags (map ev_arg args) (p, d) stderr
  = match perform_all flags
            (arity_calls too_few too_many n (Z.of_nat (List.length args))) stderr with
    | (stderr', Some status) => (Exited status, (set_arguments_ p args, d), stderr')
    | (stderr', None) => (Returned 0, (set_arguments_ p args, d), stderr')
    end.
Proof.
  intros Hn He Hres.
  assert (Hkey : forall k, In k reserved_keys -> convert_ p !! k = None)
    by (intros; by apply no_reserved_key_lookup).
  assert (Hquiet : forall k a stderr0, In k reserved_keys ->
    k <> ARGP_KEY_INIT -> k <> ARGP_KEY_ARG -> k <> ARGP_KEY_END ->
    group_parse parseoptions_ flags k a (set_arguments_ p args, d) stderr0
    = (Returned 0, (set_arguments_ p args, d), stderr0)).
  { intros k a stderr0 Hin H1 H2 H3. apply group_parse_quiet.
    apply h_parseoptions_unknown; try done. by apply Hkey. }
  unfold argp_parse.
  assert (Hinit : convert_ p !! ARGP_KEY_INIT = None)
    by (apply Hkey; simpl; tauto).
  rewrite (group_parse_quiet _ _ _ _ _ _ _ _ (h_parseoptions_init "" p d Hinit)).
  simpl.
  rewrite h_parser_parse_next_positional by (apply Hkey; simpl; tauto). simpl.
  change (set_arguments_ (set_arguments_ p []) args) with (set_arguments_ p args).
  unfold parser_finalize. simpl.
  assert (Hend :
    group_parse parseoptions_ flags ARGP_KEY_END "" (set_arguments_ p args, d) stderr
    = match perform_all flags
              (arity_calls too_few too_many n (Z.of_nat (List.length args))) stderr with
      | (stderr', Some status) => (Exited status, (set_arguments_ p args, d), stderr')
      | (stderr', None) => (Returned 0, (set_arguments_ p args, d), stderr')
      end).
  { unfold group_parse.
    rewrite (h_parseoptions_end n) by (try done; apply Hkey; simpl; tauto).
    reflexivity. }
  rewrite has_args_ev_arg.
  assert (Hna : (if match args with [] => false | _ => true end
                 then (Returned 0, (set_arguments_ p args, d), stderr)
                 else group_parse parseoptions_ flags ARGP_KEY_NO_ARGS ""
                        (set_arguments_ p args, d) stderr)
                = (Returned 0, (set_arguments_ p args, d), stderr)).
  { destruct args; [|done]. apply Hquiet; [simpl; tauto|done..]. }
  rewrite Hna. simpl. rewrite Hend.
  destruct (perform_all flags _ stderr) as [stderr' [status|]]; [done|]. simpl.
  rewrite Hquiet by (try done; simpl; tauto). simpl.
  rewrite Hquiet by (try done; simpl; tauto). reflexivity.
Qed.

(** The driver on positional arguments only. *)
Lemma h_parse_positional n args p d stderr :
  0 <= n < 2 ^ 64 -> n <> unlimited ->
  expected_argument_count_ p = cast t_ssize_t n ->
  no_reserved_key (convert_ p) = true ->
  has (flags_ p) ARGP_NO_ERRS = false ->
  (parse (map ev_arg args) p d stderr).1.1 = Returned true
  <-> Z.of_nat (List.length args) = n.
Proof.
  intros Hn Hu He Hres Hf. unfold parse.
  rewrite (h_argp_parse_positional n) by done.
  assert (Hun : (n =? unlimited) = false) by by apply Z.eqb_neq.
  unfold arity_calls. rewrite Hun.
  assert (Hne : (cast t_ssize_t n =? -1) = false)
    by by rewrite cast_ssize_unlimited.
  destruct (Z.ltb_spec (Z.of_nat (List.length args)) n) as [Hlt|Hge];
    [|destruct (Z.ltb_spec n (Z.of_nat (List.length args))) as [Hgt|Hle]].
  - destruct (perform_all (flags_ p) _ stderr) as [stderr' [status|]] eqn:E; simpl.
    + split; [done|lia].
    + rewrite Hf, He, Hne, cast_size_ssize by done. unfold size. simpl.
      destruct (Z.eqb_spec n (Z.of_nat (List.length args))); simpl; [lia|].
      split; [done|lia].
  - destruct (perform_all (flags_ p) _ stderr) as [stderr' [status|]] eqn:E; simpl.
    + split; [done|lia].
    + rewrite Hf, He, Hne, cast_size_ssize by done. unfold size. simpl.
      destruct (Z.eqb_spec n (Z.of_nat (List.length args))); simpl; [lia|].
      split; [done|lia].
  - simpl. rewrite Hf, He, Hne, cast_size_ssize by done. unfold size. simpl.
    destruct (Z.eqb_spec n (Z.of_nat (List.length args))); simpl; [|lia].
    split; [lia|done].
Qed.

(** On any command line: with an expected count and without
    [ARGP_NO_ERRS], a [true] from [parse] means the count was met. *)
Lemma h_parse_true_arity n evs p d stderr :
  0 <= n < 2 ^ 64 -> n <> unlimited ->
  expected_argument_count_ p = cast t_ssize_t n ->
  has (flags_ p) ARGP_NO_ERRS = false ->
  (parse evs p d stderr).1.1 = Returned true ->
  size (parse evs p d stderr).1.2.1 = n.
Proof.
  intros Hn Hu He Hf. unfold parse.
  pose proof (h_argp_parse_config (flags_ p) evs p d stderr) as Hc.
  destruct (argp_parse parseoptions_ (flags_ p) evs (p, d) stderr)
    as [[[ret|status] [p' d']] stderr']; simpl in *; [|done].
  unfold config in Hc. injection Hc as _ _ He' Hf'. rewrite Hf', Hf, He', He.
  rewrite cast_ssize_unlimited, cast_size_ssize by done.
  rewrite (proj2 (Z.eqb_neq _ _) Hu). simpl.
  destruct (ret =? 0); simpl; [|done].
  destruct (Z.eqb_spec n (size p')); simpl; [done|done].
Qed.

(** Without an expected count the driver accepts any number of positional
    arguments. *)
Lemma h_parse_positional_unlimited args p d stderr :
  expected_argument_count_ p = -1 ->
  no_reserved_key (convert_ p) = true ->
  (parse (map ev_arg args) p d stderr).1.1 = Returned true.
Proof.
  intros He Hres. unfold parse.
  rewrite (h_argp_parse_positional unlimited); [|done|by rewrite He|done].
  unfold arity_calls. simpl. rewrite He. simpl.
  by destruct (has (flags_ p) ARGP_NO_ERRS).
Qed.

End WithDestinations.
End ParserHFacts.

(** * Facts about unnamed/part_000 *)

Module Part000Facts.
Import Libc Argp ArgpFacts Part000.

Section WithDestinations.
Context {D : Type}.
Implicit Types (p : parser D) (d : D).

(** A handler run changes nothing of the parser but [arguments_]. *)
Lemma p_parseoptions_frame key arg (st : parser D * D) :
  exists a, (parseoptions_ key arg st).1.2.1 = set_arguments_ st.1 a.
Proof.
  destruct st as [p d]. unfold parseoptions_.
  assert (Hid : exists a, p = set_arguments_ p a)
    by (exists (arguments_ p); by destruct p).
  repeat case_match; simpl; eauto.
Qed.

Lemma p_parseoptions_config key arg (st : parser D * D) :
  config (parseoptions_ key arg st).1.2.1 = config st.1.
Proof. destruct (p_parseoptions_frame key arg st) as [a ->]. reflexivity. Qed.

Lemma p_argp_parse_config flags evs p d stderr :
  config (argp_parse parseoptions_ flags evs (p, d) stderr).1.2.1 = config p.
Proof.
  apply (argp_parse_keeps (fun st => config st.1 = config p) parseoptions_); [|done].
  intros key arg st H. by rewrite p_parseoptions_config.
Qed.

(** An event whose key is neither registered nor one of the lifecycle
    cases of the switch changes nothing. *)
Lemma p_parseoptions_unknown key arg p d :
  convert_ p !! key = None ->
  key <> ARGP_KEY_INIT -> key <> ARGP_KEY_ARG -> key <> ARGP_KEY_END ->
  parseoptions_ key arg (p, d) = (0, (p, d), []).
Proof.
  intros Hk H1 H2 H3. unfold parseoptions_. rewrite Hk.
  rewrite (proj2 (Z.eqb_neq _ _) H1), (proj2 (Z.eqb_neq _ _) H2),
    (proj2 (Z.eqb_neq _ _) H3).
  by destruct (key =? ARGP_KEY_ERROR).
Qed.

Lemma p_parseoptions_init arg p d :
  parseoptions_ ARGP_KEY_INIT arg (p, d) = (0, (set_arguments_ p [], d), []).
Proof. reflexivity. Qed.

Lemma p_parseoptions_arg arg p d :
  parseoptions_ ARGP_KEY_ARG arg (p, d)
  = (0, (set_arguments_ p (arguments_ p ++ [arg]), d), []).
Proof. reflexivity. Qed.

Lemma p_parseoptions_end n arg p d :
  0 <= n < 2 ^ 64 ->
  expected_argument_count_ p = cast t_ssize_t n ->
  parseoptions_ ARGP_KEY_END arg (p, d)
  = (0, (p, d), arity_calls too_few too_many n (size p)).
Proof.
  intros Hn He. unfold parseoptions_, arity_calls. simpl.
  rewrite He, cast_ssize_unlimited, cast_size_ssize by done.
  destruct (n =? unlimited); [done|].
  destruct (Z.ltb_spec n (size p)), (Z.ltb_spec (size p) n); try reflexivity; lia.
Qed.

Lemma p_set_arguments_id p : set_arguments_ p (arguments_ p) = p.
Proof. by destruct p. Qed.

(** A run of positional arguments is appended in order. *)
Lemma p_parser_parse_next_positional flags args : forall p d stderr,
  parser_parse_next parseoptions_ flags (map ev_arg args) (p, d) stderr
  = (Returned 0, (set_arguments_ p (arguments_ p ++ args), d), stderr).
Proof.
  induction args as [|a args IH]; intros p d stderr; simpl.
  - by rewrite app_nil_r, p_set_arguments_id.
  - rewrite IH. simpl. by rewrite <- app_assoc.
Qed.

(** The whole engine run on a command line of positional arguments only:
    nothing but the end event calls the engine. *)
Lemma p_argp_parse_positional n flags args p d stderr :
  0 <= n < 2 ^ 64 ->
  expected_argument_count_ p = cast t_ssize_t n ->
  no_reserved_key (convert_ p) = true ->
  argp_parse parseoptions_ flags (map ev_arg args) (p, d) stderr
  = match perform_all flags
            (arity_calls too_few too_many n (Z.of_nat (List.length args))) stderr with
    | (stderr', Some status) => (Exited status, (set_arguments_ p args, d), stderr')
    | (stderr', None) => (Returned 0, (set_arguments_ p args, d), stderr')
    end.
Proof.
  intros Hn He Hres.
  assert (Hkey : forall k, In k reserved_keys -> convert_ p !! k = None)
    by (intros; by apply no_reserved_key_lookup).
  assert (Hquiet : forall k a stderr0, In k reserved_keys ->
    k <> ARGP_KEY_INIT -> k <> ARGP_KEY_ARG -> k <> ARGP_KEY_END ->
    group_parse parseoptions_ flags k a (set_arguments_ p args, d) stderr0
    = (Returned 0, (set_arguments_ p args, d), stderr0)).
  { intros k a stderr0 Hin H1 H2 H3. apply group_parse_quiet.
    apply p_parseoptions_unknown; try done. by apply Hkey. }
  unfold argp_parse.
  rewrite (group_parse_quiet _ _ _ _ _ _ _ _ (p_parseoptions_init "" p d)).
  simpl.
  rewrite p_parser_parse_next_positional. simpl.
  change (set_arguments_ (set_arguments_ p []) args) with (set_arguments_ p args).
  unfold parser_finalize. simpl.
  assert (Hend :
    group_parse parseoptions_ flags ARGP_KEY_END "" (set_arguments_ p args, d) stderr
    = match perform_all flags
              (arity_calls too_few too_many n (Z.of_nat (List.length args))) stderr with
      | (stderr', Some status) => (Exited status, (set_arguments_ p args, d), stderr')
      | (stderr', None) => (Returned 0, (set_arguments_ p args, d), stderr')
      end).
  { unfold group_parse. rewrite (p_parseoptions_end n) by done. reflexivity. }
  rewrite has_args_ev_arg.
  assert (Hna : (if match args with [] => false | _ => true end
                 then (Returned 0, (set_arguments_ p args, d), stderr)
                 else group_parse parseoptions_ flags ARGP_KEY_NO_ARGS ""
                        (set_arguments_ p args, d) stderr)
                = (Returned 0, (set_arguments_ p args, d), stderr)).
  { destruct args; [|done]. apply Hquiet; [simpl; tauto|done..]. }
  rewrite Hna. simpl. rewrite Hend.
  destruct (perform_all flags _ stderr) as [stderr' [status|]]; [done|]. simpl.
  rewrite Hquiet by (try done; simpl; tauto). simpl.
  rewrite Hquiet by (try done; simpl; tauto). reflexivity.
Qed.

(** The driver on positional arguments only. *)
Lemma p_parse_positional n args p d stderr :
  0 <= n < 2 ^ 64 -> n <> unlimited ->
  expected_argument_count_ p = cast t_ssize_t n ->
  no_reserved_key (convert_ p) = true ->
  has (flags_ p) ARGP_NO_ERRS = false ->
  (parse (map ev_arg args) p d stderr).1.1 = Returned true
  <-> Z.of_nat (List.length args) = n.
Proof.
  intros Hn Hu He Hres Hf. unfold parse.
  rewrite (p_argp_parse_positional n) by done.
  assert (Hun : (n =? unlimited) = false) by by apply Z.eqb_neq.
  unfold arity_calls. rewrite Hun.
  assert (Hne : (cast t_ssize_t n =? -1) = false)
    by by rewrite cast_ssize_unlimited.
  destruct (Z.ltb_spec (Z.of_nat (List.length args)) n) as [Hlt|Hge];
    [|destruct (Z.ltb_spec n (Z.of_nat (List.length args))) as [Hgt|Hle]].
  - destruct (perform_all (flags_ p) _ stderr) as [stderr' [status|]] eqn:E; simpl.
    + split; [done|lia].
    + rewrite Hf, He, Hne, cast_size_ssize by done. unfold size. simpl.
      destruct (Z.eqb_spec n (Z.of_nat (List.length args))); simpl; [lia|].
      split; [done|lia].
  - destruct (perform_all (flags_ p) _ stderr) as [stderr' [status|]] eqn:E; simpl.
    + split; [done|lia].
    + rewrite Hf, He, Hne, cast_size_ssize by done. unfold size. simpl.
      destruct (Z.eqb_spec n (Z.of_nat (List.length args))); simpl; [lia|].
      split; [done|lia].
  - simpl. rewrite Hf, He, Hne, cast_size_ssize by done. unfold size. simpl.
    destruct (Z.eqb_spec n (Z.of_nat (List.length args))); simpl; [|lia].
    split; [lia|done].
Qed.

(** On any command line: with an expected count and without
    [ARGP_NO_ERRS], a [true] from [parse] means the count was met. *)
Lemma p_parse_true_arity n evs p d stderr :
  0 <= n < 2 ^ 64 -> n <> unlimited ->
  expected_argument_count_ p = cast t_ssize_t n ->
  has (flags_ p) ARGP_NO_ERRS = false ->
  (parse evs p d stderr).1.1 = Returned true ->
  size (parse evs p d stderr).1.2.1 = n.
Proof.
  intros Hn Hu He Hf. unfold parse.
  pose proof (p_argp_parse_config (flags_ p) evs p d stderr) as Hc.
  destruct (argp_parse parseoptions_ (flags_ p) evs (p, d) stderr)
    as [[[ret|status] [p' d']] stderr']; simpl in *; [|done].
  unfold config in Hc. injection Hc as _ _ He' Hf' _. rewrite Hf', Hf, He', He.
  rewrite cast_ssize_unlimited, cast_size_ssize by done.
  rewrite (proj2 (Z.eqb_neq _ _) Hu). simpl.
  destruct (ret =? 0); simpl; [|done].
  destruct (Z.eqb_spec n (size p')); simpl; [done|done].
Qed.

(** Without an expected count the driver accepts any number of positional
    arguments. *)
Lemma p_parse_positional_unlimited args p d stderr :
  expected_argument_count_ p = -1 ->
  no_reserved_key (convert_ p) = true ->
  (parse (map ev_arg args) p d stderr).1.1 = Returned true.
Proof.
  intros He Hres. unfold parse.
  rewrite (p_argp_parse_positional unlimited); [|done|by rewrite He|done].
  unfold arity_calls. simpl. rewrite He. simpl.
  by destruct (has (flags_ p) ARGP_NO_ERRS).
Qed.

End WithDestinations.
End Part000Facts.

(** * Runs of the engine over a command line *)

Import Libc Argp Views.

(** ** What a run of the engine does to the positional arguments and to
    the destinations *)

Section EngineRuns.
Context {St : Type}.
Variable cb : callback St.

Ltac step_engine :=
  repeat match goal with
  | |- context [group_parse ?c ?f ?k ?a ?s ?e] =>
      let H := fresh "Hstep" in
      pose proof (ArgpFacts.group_parse_state c f k a s e) as H;
      destruct (group_parse c f k a s e) as [[[?|?] ?] ?]; simpl in H; simpl
  end.

(** A property of the state kept by the handler on the keys in [K] is kept
    by the events of a command line whose keys are in [K]. *)
Lemma parser_parse_next_keeps_on (I : St -> Prop) (K : Z -> Prop) flags evs :
  (forall key arg st, K key -> I st -> I (cb key arg st).1.2) ->
  forall st stderr,
  Forall (fun ev => K ev.1) evs -> I st ->
  I (parser_parse_next cb flags evs st stderr).1.2.
Proof.
  intros Hcb. induction evs as [|[key arg] evs IH]; intros st stderr HK HI; simpl;
    [done|].
  inversion HK as [|? ? Hk HK']; subst. simpl in Hk.
  apply ArgpFacts.and_then_keeps.
  - rewrite ArgpFacts.group_parse_state. by apply Hcb.
  - intros e st' stderr' HI'. destruct (e =? 0); [by apply IH|done].
Qed.

(** The closing keys: the property is kept, and status 0 comes out only
    when status 0 went in. *)
Lemma parser_finalize_keeps_on (I : St -> Prop) (K : Z -> Prop) flags b e st stderr :
  (forall key arg st, K key -> I st -> I (cb key arg st).1.2) ->
  K ARGP_KEY_NO_ARGS -> K ARGP_KEY_END -> K ARGP_KEY_SUCCESS ->
  K ARGP_KEY_ERROR -> K ARGP_KEY_FINI ->
  I st ->
  I (parser_finalize cb flags b e st stderr).1.2
  /\ ((parser_finalize cb flags b e st stderr).1.1 = Returned 0 -> e = 0).
Proof.
  intros Hcb K1 K2 K3 K4 K5 HI. unfold parser_finalize.
  destruct (Z.eqb_spec e 0) as [->|Hne].
  - split; [|done].
    destruct b; simpl; step_engine;
      repeat match goal with
      | |- context [if ?c then _ else _] => destruct c; simpl; step_engine
      end;
      repeat match goal with
      | H : ?s = (cb ?k ?a ?s0).1.2 |- _ => subst s
      end; eauto 10.
  - split.
    + step_engine;
        repeat match goal with
        | H : ?s = (cb ?k ?a ?s0).1.2 |- _ => subst s
        end; eauto 10.
    + step_engine; intros H; congruence.
Qed.

Lemma argp_parse_keeps_on (I : St -> Prop) (K : Z -> Prop) flags evs st stderr :
  (forall key arg st, K key -> I st -> I (cb key arg st).1.2) ->
  Forall K reserved_keys -> Forall (fun ev => K ev.1) evs ->
  I st -> I (argp_parse cb flags evs st stderr).1.2.
Proof.
  intros Hcb HK Hev HI.
  assert (Hin : forall k, In k reserved_keys -> K k).
  { intros k Hk. rewrite Forall_forall in HK. apply HK. by apply list_elem_of_In. }
  unfold argp_parse. apply ArgpFacts.and_then_keeps.
  - rewrite ArgpFacts.group_parse_state. apply Hcb; [|done].
    apply Hin. simpl. tauto.
  - intros e0 st0 stderr0 H0. destruct (e0 =? 0); [|done].
    apply ArgpFacts.and_then_keeps; [by apply (parser_parse_next_keeps_on I K)|].
    intros e1 st1 stderr1 H1.
    apply (parser_finalize_keeps_on I K); try done; apply Hin; simpl; tauto.
Qed.

End EngineRuns.

Section PositionalOrder.
Context {St : Type}.
Variable cb : callback St.
Variable args : St -> list string.
Variable Inv : St -> Prop.
Hypothesis cb_inv : forall key arg st, Inv st -> Inv (cb key arg st).1.2.
Hypothesis cb_init : forall arg st,
  Inv st -> args (cb ARGP_KEY_INIT arg st).1.2 = [].
Hypothesis cb_arg : forall arg st,
  Inv st -> args (cb ARGP_KEY_ARG arg st).1.2 = args st ++ [arg].
Hypothesis cb_other : forall key arg st,
  Inv st -> key <> ARGP_KEY_INIT -> key <> ARGP_KEY_ARG ->
  args (cb key arg st).1.2 = args st.

Lemma parser_parse_next_args flags evs : forall st stderr,
  Inv st ->
  Forall (fun ev => ev.1 <> ARGP_KEY_INIT) evs ->
  let r := parser_parse_next cb flags evs st stderr in
  (exists rest, args st ++ arg_texts evs = args r.1.2 ++ rest)
  /\ (r.1.1 = Returned 0 -> args r.1.2 = args st ++ arg_texts evs).
Proof.
  induction evs as [|[key arg] evs IH]; intros st stderr Hinv Hev; simpl.
  { rewrite app_nil_r. split; [by exists []; rewrite app_nil_r|done]. }
  inversion Hev as [|? ? Hk Hev']; subst. simpl in Hk.
  pose proof (ArgpFacts.group_parse_state cb flags key arg st stderr) as Hst.
  assert (Hargs : args (cb key arg st).1.2 ++ arg_texts evs
                  = args st ++ (if key =? ARGP_KEY_ARG then arg :: arg_texts evs
                                else arg_texts evs)).
  { destruct (Z.eqb_spec key ARGP_KEY_ARG) as [->|Hne].
    - by rewrite cb_arg, <- app_assoc.
    - by rewrite cb_other. }
  pose proof (cb_inv key arg st Hinv) as Hinv'.
  destruct (group_parse cb flags key arg st stderr) as [[[e|status] st'] stderr'];
    simpl in *; subst st'.
  - destruct (Z.eqb_spec e 0) as [->|Hne].
    + destruct (IH (cb key arg st).1.2 stderr' Hinv' Hev') as [[rest Hrest] Hall].
      rewrite Hargs in Hrest, Hall. split; [by exists rest|done].
    + simpl. split; [|intros H; congruence].
      rewrite <- Hargs. by eexists.
  - split; [|done]. rewrite <- Hargs. by eexists.
Qed.

(** After a whole run of the engine the positional arguments are the
    texts of the positional events up to where the run stopped, in order;
    all of them when the run returned 0. *)
Lemma argp_parse_args flags evs st stderr :
  Inv st ->
  Forall (fun ev => ev.1 <> ARGP_KEY_INIT) evs ->
  let r := argp_parse cb flags evs st stderr in
  (exists rest, arg_texts evs = args r.1.2 ++ rest)
  /\ (r.1.1 = Returned 0 -> args r.1.2 = arg_texts evs).
Proof.
  intros Hinv Hev. unfold argp_parse.
  pose proof (cb_inv ARGP_KEY_INIT "" st Hinv) as Hinv0.
  pose proof (ArgpFacts.group_parse_state cb flags ARGP_KEY_INIT "" st stderr) as Hst.
  destruct (group_parse cb flags ARGP_KEY_INIT "" st stderr)
    as [[[e0|status] st0] stderr0]; simpl in *; subst st0.
  2:{ rewrite cb_init by done. split; [by exists (arg_texts evs)|done]. }
  destruct (Z.eqb_spec e0 0) as [->|Hne]; simpl.
  2:{ rewrite cb_init by done.
      split; [by exists (arg_texts evs)|intros H; congruence]. }
  destruct (parser_parse_next_args flags evs (cb ARGP_KEY_INIT "" st).1.2 stderr0
              Hinv0 Hev) as [[rest Hrest] Hall].
  pose proof (ArgpFacts.parser_parse_next_keeps Inv cb cb_inv flags evs
                (cb ARGP_KEY_INIT "" st).1.2 stderr0 Hinv0) as Hinv1.
  rewrite cb_init in Hrest, Hall by done. simpl in Hrest, Hall.
  destruct (parser_parse_next cb flags evs (cb ARGP_KEY_INIT "" st).1.2 stderr0)
    as [[[e1|status] st1] stderr1]; simpl in *.
  2:{ split; [by exists rest|done]. }
  destruct (parser_finalize_keeps_on cb (fun s => Inv s /\ args s = args st1)
              (fun key => key <> ARGP_KEY_INIT /\ key <> ARGP_KEY_ARG)
              flags (has_args evs) e1 st1 stderr1) as [[_ Hkeep] Hzero];
    try done.
  { intros key arg s [H1 H2] [Hs1 Hs2]. split; [by apply cb_inv|].
    by rewrite cb_other. }
  rewrite Hkeep. split; [by exists rest|].
  intros H. apply Hzero in H. subst e1. by apply Hall.
Qed.

End PositionalOrder.

Lemma h_cb_args {D} (p0 : ParserH.parser D) key arg (st : ParserH.parser D * D) :
  ParserH.convert_ p0 !! ARGP_KEY_INIT = None ->
  ParserH.convert_ p0 !! ARGP_KEY_ARG = None ->
  ParserH.convert_ st.1 = ParserH.convert_ p0 ->
  ParserH.convert_ (ParserH.parseoptions_ key arg st).1.2.1 = ParserH.convert_ p0
  /\ ParserH.arguments_ (ParserH.parseoptions_ key arg st).1.2.1
     = if key =? ARGP_KEY_INIT then []
       else if key =? ARGP_KEY_ARG then ParserH.arguments_ st.1 ++ [arg]
       else ParserH.arguments_ st.1.
Proof.
  destruct st as [p d]. simpl. intros Hi Ha Hc.
  pose proof (ParserHFacts.h_parseoptions_config key arg (p, d)) as Hcfg.
  unfold ParserH.config in Hcfg. injection Hcfg as _ Hcv _ _. simpl in Hcv.
  split; [by rewrite Hcv|].
  unfold ParserH.parseoptions_.
  destruct (ParserH.convert_ p !! key) as [opt|] eqn:E.
  - assert (key <> ARGP_KEY_INIT) by (intros ->; rewrite Hc in E; congruence).
    assert (key <> ARGP_KEY_ARG) by (intros ->; rewrite Hc in E; congruence).
    rewrite (proj2 (Z.eqb_neq _ _) H), (proj2 (Z.eqb_neq _ _) H0).
    by destruct (opt arg d) as [[] d'].
  - repeat case_match; done.
Qed.

Lemma p_cb_args {D} key arg (st : Part000.parser D * D) :
  Part000.arguments_ (Part000.parseoptions_ key arg st).1.2.1
  = if key =? ARGP_KEY_INIT then []
    else if key =? ARGP_KEY_ARG then Part000.arguments_ st.1 ++ [arg]
    else Part000.arguments_ st.1.
Proof.
  destruct st as [p d]. unfold Part000.parseoptions_. simpl.
  repeat case_match; done.
Qed.

(** ** Command lines whose events are all accepted *)

(** The engine returns 0 only when every event has been accepted. *)
Lemma argp_parse_zero_events {St} (cb : callback St) flags evs st stderr :
  (argp_parse cb flags evs st stderr).1.1 = Returned 0 ->
  exists st1 stderr1,
    parse_events cb flags evs st stderr = (Returned 0, st1, stderr1).
Proof.
  unfold argp_parse, parse_events.
  destruct (group_parse cb flags ARGP_KEY_INIT "" st stderr)
    as [[[e0|status] st0] stderr0]; simpl; [|done].
  destruct (Z.eqb_spec e0 0) as [->|Hne]; simpl.
  - destruct (parser_parse_next cb flags evs st0 stderr0)
      as [[[e1|status] st1] stderr1]; simpl; [|done].
    intros H.
    destruct (parser_finalize_keeps_on cb (fun _ => True) (fun _ => True)
                flags (has_args evs) e1 st1 stderr1) as [_ Hzero]; try done.
    rewrite (Hzero H). by eexists _, _.
  - intros H. congruence.
Qed.

Section Accepted.
Context {D : Type}.

Lemma h_parse_events_config flags evs (p : ParserH.parser D) d stderr :
  ParserH.config (parse_events ParserH.parseoptions_ flags evs (p, d) stderr).1.2.1
  = ParserH.config p.
Proof.
  unfold parse_events.
  apply (ArgpFacts.and_then_keeps (fun st => ParserH.config st.1 = ParserH.config p)).
  - rewrite ArgpFacts.group_parse_state.
    by rewrite ParserHFacts.h_parseoptions_config.
  - intros e0 st0 stderr0 H0. destruct (e0 =? 0); [|done].
    apply (ArgpFacts.parser_parse_next_keeps
             (fun st => ParserH.config st.1 = ParserH.config p)); [|done].
    intros key arg st H. by rewrite ParserHFacts.h_parseoptions_config.
Qed.

Lemma p_parse_events_config flags evs (p : Part000.parser D) d stderr :
  Part000.config (parse_events Part000.parseoptions_ flags evs (p, d) stderr).1.2.1
  = Part000.config p.
Proof.
  unfold parse_events.
  apply (ArgpFacts.and_then_keeps (fun st => Part000.config st.1 = Part000.config p)).
  - rewrite ArgpFacts.group_parse_state.
    by rewrite Part000Facts.p_parseoptions_config.
  - intros e0 st0 stderr0 H0. destruct (e0 =? 0); [|done].
    apply (ArgpFacts.parser_parse_next_keeps
             (fun st => Part000.config st.1 = Part000.config p)); [|done].
    intros key arg st H. by rewrite Part000Facts.p_parseoptions_config.
Qed.

(** The whole engine run once the events have been accepted: nothing but
    the end event calls the engine. *)
Lemma h_argp_parse_accepted n flags evs (p : ParserH.parser D) d stderr p1 d1 stderr1 :
  0 <= n < 2 ^ 64 ->
  ParserH.expected_argument_count_ p = cast t_ssize_t n ->
  no_reserved_key (ParserH.convert_ p) = true ->
  parse_events ParserH.parseoptions_ flags evs (p, d) stderr
  = (Returned 0, (p1, d1), stderr1) ->
  argp_parse ParserH.parseoptions_ flags evs (p, d) stderr
  = match perform_all flags
            (arity_calls ParserH.too_few ParserH.too_many n (ParserH.size p1))
            stderr1 with
    | (stderr', Some status) => (Exited status, (p1, d1), stderr')
    | (stderr', None) => (Returned 0, (p1, d1), stderr')
    end.
Proof.
  intros Hn He Hres Hev.
  pose proof (h_parse_events_config flags evs p d stderr) as Hc.
  rewrite Hev in Hc. simpl in Hc. unfold ParserH.config in Hc.
  injection Hc as _ Hcv He1 _.
  assert (Hkey : forall k, In k reserved_keys -> ParserH.convert_ p1 !! k = None)
    by (intros; rewrite Hcv; by apply no_reserved_key_lookup).
  assert (Hquiet : forall k a stderr0, In k reserved_keys ->
    k <> ARGP_KEY_INIT -> k <> ARGP_KEY_ARG -> k <> ARGP_KEY_END ->
    group_parse ParserH.parseoptions_ flags k a (p1, d1) stderr0
    = (Returned 0, (p1, d1), stderr0)).
  { intros k a stderr0 Hin H1 H2 H3. apply ArgpFacts.group_parse_quiet.
    apply ParserHFacts.h_parseoptions_unknown; try done. by apply Hkey. }
  rewrite (ArgpFacts.argp_parse_after_events _ _ _ _ _ _ _ Hev).
  unfold parser_finalize. simpl.
  assert (Hna : (if has_args evs then (Returned 0, (p1, d1), stderr1)
                 else group_parse ParserH.parseoptions_ flags ARGP_KEY_NO_ARGS ""
                        (p1, d1) stderr1)
                = (Returned 0, (p1, d1), stderr1)).
  { destruct (has_args evs); [done|]. apply Hquiet; [simpl; tauto|done..]. }
  rewrite Hna. simpl.
  unfold group_parse at 1.
  rewrite (ParserHFacts.h_parseoptions_end n);
    [|done|by rewrite He1|apply Hkey; simpl; tauto].
  destruct (perform_all flags _ stderr1) as [stderr' [status|]]; [done|]. simpl.
  rewrite Hquiet by (try done; simpl; tauto). simpl.
  rewrite Hquiet by (try done; simpl; tauto). reflexivity.
Qed.

Lemma p_argp_parse_accepted n flags evs (p : Part000.parser D) d stderr p1 d1 stderr1 :
  0 <= n < 2 ^ 64 ->
  Part000.expected_argument_count_ p = cast t_ssize_t n ->
  no_reserved_key (Part000.convert_ p) = true ->
  parse_events Part000.parseoptions_ flags evs (p, d) stderr
  = (Returned 0, (p1, d1), stderr1) ->
  argp_parse Part000.parseoptions_ flags evs (p, d) stderr
  = match perform_all flags
            (arity_calls Part000.too_few Part000.too_many n (Part000.size p1))
            stderr1 with
    | (stderr', Some status) => (Exited status, (p1, d1), stderr')
    | (stderr', None) => (Returned 0, (p1, d1), stderr')
    end.
Proof.
  intros Hn He Hres Hev.
  pose proof (p_parse_events_config flags evs p d stderr) as Hc.
  rewrite Hev in Hc. simpl in Hc. unfold Part000.config in Hc.
  injection Hc as _ Hcv He1 _ _.
  assert (Hkey : forall k, In k reserved_keys -> Part000.convert_ p1 !! k = None)
    by (intros; rewrite Hcv; by apply no_reserved_key_lookup).
  assert (Hquiet : forall k a stderr0, In k reserved_keys ->
    k <> ARGP_KEY_INIT -> k <> ARGP_KEY_ARG -> k <> ARGP_KEY_END ->
    group_parse Part000.parseoptions_ flags k a (p1, d1) stderr0
    = (Returned 0, (p1, d1), stderr0)).
  { intros k a stderr0 Hin H1 H2 H3. apply ArgpFacts.group_parse_quiet.
    apply Part000Facts.p_parseoptions_unknown; try done. by apply Hkey. }
  rewrite (ArgpFacts.argp_parse_after_events _ _ _ _ _ _ _ Hev).
  unfold parser_finalize. simpl.
  assert (Hna : (if has_args evs then (Returned 0, (p1, d1), stderr1)
                 else group_parse Part000.parseoptions_ flags ARGP_KEY_NO_ARGS ""
                        (p1, d1) stderr1)
                = (Returned 0, (p1, d1), stderr1)).
  { destruct (has_args evs); [done|]. apply Hquiet; [simpl; tauto|done..]. }
  rewrite Hna. simpl.
  unfold group_parse at 1.
  rewrite (Part000Facts.p_parseoptions_end n); [|done|by rewrite He1].
  destruct (perform_all flags _ stderr1) as [stderr' [status|]]; [done|]. simpl.
  rewrite Hquiet by (try done; simpl; tauto). simpl.
  rewrite Hquiet by (try done; simpl; tauto). reflexivity.
Qed.

(** The driver once the events have been accepted: the arity decides. *)
Lemma h_parse_accepted n evs (p : ParserH.parser D) d stderr p1 d1 stderr1 :
  0 <= n < 2 ^ 64 ->
  ParserH.expected_argument_count_ p = cast t_ssize_t n ->
  no_reserved_key (ParserH.convert_ p) = true ->
  parse_events ParserH.parseoptions_ (ParserH.flags_ p) evs (p, d) stderr
  = (Returned 0, (p1, d1), stderr1) ->
  (n <> unlimited -> has (ParserH.flags_ p) ARGP_NO_ERRS = false ->
   (ParserH.parse evs p d stderr).1.1 = Returned true <-> ParserH.size p1 = n)
  /\ (n = unlimited -> (ParserH.parse evs p d stderr).1.1 = Returned true).
Proof.
  intros Hn He Hres Hev.
  pose proof (h_parse_events_config (ParserH.flags_ p) evs p d stderr) as Hc.
  rewrite Hev in Hc. simpl in Hc. unfold ParserH.config in Hc.
  injection Hc as _ _ He1 Hf1.
  unfold ParserH.parse. rewrite (h_argp_parse_accepted n _ _ _ _ _ _ _ _ Hn He Hres Hev).
  unfold arity_calls. split.
  - intros Hu Hf.
    rewrite (proj2 (Z.eqb_neq _ _) Hu).
    assert (Hne : (cast t_ssize_t n =? -1) = false)
      by by rewrite cast_ssize_unlimited, (proj2 (Z.eqb_neq _ _) Hu).
    destruct (Z.ltb_spec (ParserH.size p1) n) as [Hlt|Hge];
      [|destruct (Z.ltb_spec n (ParserH.size p1)) as [Hgt|Hle]].
    + destruct (perform_all (ParserH.flags_ p) _ stderr1) as [stderr' [status|]];
        simpl; [split; [done|lia]|].
      rewrite Hf1, Hf, He1, He, Hne, cast_size_ssize by done. simpl.
      destruct (Z.eqb_spec n (ParserH.size p1)); simpl; [lia|]. split; [done|lia].
    + destruct (perform_all (ParserH.flags_ p) _ stderr1) as [stderr' [status|]];
        simpl; [split; [done|lia]|].
      rewrite Hf1, Hf, He1, He, Hne, cast_size_ssize by done. simpl.
      destruct (Z.eqb_spec n (ParserH.size p1)); simpl; [lia|]. split; [done|lia].
    + simpl. rewrite Hf1, Hf, He1, He, Hne, cast_size_ssize by done. simpl.
      destruct (Z.eqb_spec n (ParserH.size p1)); simpl; [|lia]. split; [lia|done].
  - intros ->. simpl. rewrite He1, He. simpl.
    by destruct (has (ParserH.flags_ p1) ARGP_NO_ERRS).
Qed.

Lemma p_parse_accepted n evs (p : Part000.parser D) d stderr p1 d1 stderr1 :
  0 <= n < 2 ^ 64 ->
  Part000.expected_argument_count_ p = cast t_ssize_t n ->
  no_reserved_key (Part000.convert_ p) = true ->
  parse_events Part000.parseoptions_ (Part000.flags_ p) evs (p, d) stderr
  = (Returned 0, (p1, d1), stderr1) ->
  (n <> unlimited -> has (Part000.flags_ p) ARGP_NO_ERRS = false ->
   (Part000.parse evs p d stderr).1.1 = Returned true <-> Part000.size p1 = n)
  /\ (n = unlimited -> (Part000.parse evs p d stderr).1.1 = Returned true).
Proof.
  intros Hn He Hres Hev.
  pose proof (p_parse_events_config (Part000.flags_ p) evs p d stderr) as Hc.
  rewrite Hev in Hc. simpl in Hc. unfold Part000.config in Hc.
  injection Hc as _ _ He1 Hf1 _.
  unfold Part000.parse. rewrite (p_argp_parse_accepted n _ _ _ _ _ _ _ _ Hn He Hres Hev).
  unfold arity_calls. split.
  - intros Hu Hf.
    rewrite (proj2 (Z.eqb_neq _ _) Hu).
    assert (Hne : (cast t_ssize_t n =? -1) = false)
      by by rewrite cast_ssize_unlimited, (proj2 (Z.eqb_neq _ _) Hu).
    destruct (Z.ltb_spec (Part000.size p1) n) as [Hlt|Hge];
      [|destruct (Z.ltb_spec n (Part000.size p1)) as [Hgt|Hle]].
    + destruct (perform_all (Part000.flags_ p) _ stderr1) as [stderr' [status|]];
        simpl; [split; [done|lia]|].
      rewrite Hf1, Hf, He1, He, Hne, cast_size_ssize by done. simpl.
      destruct (Z.eqb_spec n (Part000.size p1)); simpl; [lia|]. split; [done|lia].
    + destruct (perform_all (Part000.flags_ p) _ stderr1) as [stderr' [status|]];
        simpl; [split; [done|lia]|].
      rewrite Hf1, Hf, He1, He, Hne, cast_size_ssize by done. simpl.
      destruct (Z.eqb_spec n (Part000.size p1)); simpl; [lia|]. split; [done|lia].
    + simpl. rewrite Hf1, Hf, He1, He, Hne, cast_size_ssize by done. simpl.
      destruct (Z.eqb_spec n (Part000.size p1)); simpl; [|lia]. split; [lia|done].
  - intros ->. simpl. rewrite He1, He. simpl.
    by destruct (has (Part000.flags_ p1) ARGP_NO_ERRS).
Qed.

(** Without [ARGP_NO_ERRS], a [true] from the driver means that every event
    was accepted. *)
Lemma h_parse_true_accepted evs (p : ParserH.parser D) d stderr :
  has (ParserH.flags_ p) ARGP_NO_ERRS = false ->
  (ParserH.parse evs p d stderr).1.1 = Returned true ->
  exists p1 d1 stderr1,
    parse_events ParserH.parseoptions_ (ParserH.flags_ p) evs (p, d) stderr
    = (Returned 0, (p1, d1), stderr1).
Proof.
  intros Hf. unfold ParserH.parse.
  pose proof (ParserHFacts.h_argp_parse_config (ParserH.flags_ p) evs p d stderr) as Hc.
  pose proof (argp_parse_zero_events ParserH.parseoptions_ (ParserH.flags_ p)
                evs (p, d) stderr) as Hz.
  destruct (argp_parse ParserH.parseoptions_ (ParserH.flags_ p) evs (p, d) stderr)
    as [[[ret|status] [p' d']] stderr']; simpl in *; [|done].
  unfold ParserH.config in Hc. injection Hc as _ _ _ Hf'. rewrite Hf', Hf.
  destruct (Z.eqb_spec ret 0) as [->|Hne]; simpl; [|done].
  intros _. destruct (Hz eq_refl) as ([p1 d1] & stderr1 & H). by eexists _, _, _.
Qed.

Lemma p_parse_true_accepted evs (p : Part000.parser D) d stderr :
  has (Part000.flags_ p) ARGP_NO_ERRS = false ->
  (Part000.parse evs p d stderr).1.1 = Returned true ->
  exists p1 d1 stderr1,
    parse_events Part000.parseoptions_ (Part000.flags_ p) evs (p, d) stderr
    = (Returned 0, (p1, d1), stderr1).
Proof.
  intros Hf. unfold Part000.parse.
  pose proof (Part000Facts.p_argp_parse_config (Part000.flags_ p) evs p d stderr) as Hc.
  pose proof (argp_parse_zero_events Part000.parseoptions_ (Part000.flags_ p)
                evs (p, d) stderr) as Hz.
  destruct (argp_parse Part000.parseoptions_ (Part000.flags_ p) evs (p, d) stderr)
    as [[[ret|status] [p' d']] stderr']; simpl in *; [|done].
  unfold Part000.config in Hc. injection Hc as _ _ _ Hf' _. rewrite Hf', Hf.
  destruct (Z.eqb_spec ret 0) as [->|Hne]; simpl; [|done].
  intros _. destruct (Hz eq_refl) as ([p1 d1] & stderr1 & H). by eexists _, _, _.
Qed.

(** The positional arguments accumulated by accepted events are the texts
    of the positional events. *)
Lemma h_parse_events_args flags evs (p : ParserH.parser D) d stderr p1 d1 stderr1 :
  ParserH.convert_ p !! ARGP_KEY_INIT = None ->
  ParserH.convert_ p !! ARGP_KEY_ARG = None ->
  Forall (fun ev => ev.1 <> ARGP_KEY_INIT) evs ->
  parse_events ParserH.parseoptions_ flags evs (p, d) stderr
  = (Returned 0, (p1, d1), stderr1) ->
  ParserH.arguments_ p1 = arg_texts evs.
Proof.
  intros Hi Ha Hall. unfold parse_events.
  rewrite (ArgpFacts.group_parse_quiet _ _ _ _ _ _ _ _
             (ParserHFacts.h_parseoptions_init "" p d Hi)).
  simpl. intros Hev.
  pose proof (parser_parse_next_args ParserH.parseoptions_
    (fun st : ParserH.parser D * D => ParserH.arguments_ st.1)
    (fun st => ParserH.convert_ st.1 = ParserH.convert_ p)) as Hrun.
  specialize (Hrun (fun key arg st H => proj1 (h_cb_args p key arg st Hi Ha H))).
  specialize (Hrun (fun arg st H => proj2 (h_cb_args p ARGP_KEY_ARG arg st Hi Ha H))).
  assert (Hother : forall key arg (st : ParserH.parser D * D),
    ParserH.convert_ st.1 = ParserH.convert_ p ->
    key <> ARGP_KEY_INIT -> key <> ARGP_KEY_ARG ->
    ParserH.arguments_ (ParserH.parseoptions_ key arg st).1.2.1
    = ParserH.arguments_ st.1).
  { intros key arg st H H1 H2.
    rewrite (proj2 (h_cb_args p key arg st Hi Ha H)).
    by rewrite (proj2 (Z.eqb_neq _ _) H1), (proj2 (Z.eqb_neq _ _) H2). }
  specialize (Hrun Hother flags evs (ParserH.set_arguments_ p [], d) stderr
                eq_refl Hall).
  rewrite Hev in Hrun. simpl in Hrun. destruct Hrun as [_ Hrun]. by apply Hrun.
Qed.

Lemma p_parse_events_args flags evs (p : Part000.parser D) d stderr p1 d1 stderr1 :
  Forall (fun ev => ev.1 <> ARGP_KEY_INIT) evs ->
  parse_events Part000.parseoptions_ flags evs (p, d) stderr
  = (Returned 0, (p1, d1), stderr1) ->
  Part000.arguments_ p1 = arg_texts evs.
Proof.
  intros Hall. unfold parse_events.
  rewrite (ArgpFacts.group_parse_quiet _ _ _ _ _ _ _ _
             (Part000Facts.p_parseoptions_init "" p d)).
  simpl. intros Hev.
  pose proof (parser_parse_next_args Part000.parseoptions_
    (fun st : Part000.parser D * D => Part000.arguments_ st.1)
    (fun _ => True)) as Hrun.
  specialize (Hrun (fun _ _ _ _ => Logic.I)).
  specialize (Hrun (fun arg st _ => p_cb_args ARGP_KEY_ARG arg st)).
  assert (Hother : forall key arg (st : Part000.parser D * D),
    True -> key <> ARGP_KEY_INIT -> key <> ARGP_KEY_ARG ->
    Part000.arguments_ (Part000.parseoptions_ key arg st).1.2.1
    = Part000.arguments_ st.1).
  { intros key arg st _ H1 H2. rewrite p_cb_args.
    by rewrite (proj2 (Z.eqb_neq _ _) H1), (proj2 (Z.eqb_neq _ _) H2). }
  specialize (Hrun Hother flags evs (Part000.set_arguments_ p [], d) stderr
                Logic.I Hall).
  rewrite Hev in Hrun. simpl in Hrun. destruct Hrun as [_ Hrun]. by apply Hrun.
Qed.

End Accepted.

(** * The claims *)

Import Libc Argp Runs.

(** C1. For an expected arity [n] and [m] accumulated positional arguments,
    the end event makes no engine call when [m = n], raises "too few
    arguments" when [m < n] and "too many arguments" when [m > n], and
    makes no call for any [m] when [n] is the unlimited sentinel; a command
    line of [m] positional arguments is accepted by [parse] iff [m = n],
    always when [n] is the sentinel, and on any command line a [true] from
    [parse] means that the count was met. More generally, on every command
    line, options included, whose events the parser function accepts, with
    [m] the number of positional arguments accumulated when the end event
    arrives (they are the texts of the positional events), [parse] returns
    [true] iff [m = n], and always when [n] is the sentinel; and a command
    line with an event that is not accepted never makes [parse] return
    [true]: [parse] returns [true] exactly when every event is accepted and
    [m = n]. In both headers. *)
Theorem arity_enforcement (D : Type) (n : Z) (args : list string) :
  0 <= n < 2 ^ 64 ->
  let m := Z.of_nat (List.length args) in
  (forall (p : ParserH.parser D) d,
     ParserH.expected_argument_count_ p = cast t_ssize_t n ->
     ParserH.arguments_ p = args ->
     ParserH.convert_ p !! ARGP_KEY_END = None ->
     ParserH.parseoptions_ ARGP_KEY_END "" (p, d)
     = (0, (p, d),
        arity_calls (argp_failure 1 0 "too few arguments given" [])
                    (argp_failure 1 0 "too many arguments given" []) n m))
  /\ (forall (p : ParserH.parser D) d stderr,
     ParserH.expected_argument_count_ p = cast t_ssize_t n ->
     no_reserved_key (ParserH.convert_ p) = true ->
     (n <> unlimited -> has (ParserH.flags_ p) ARGP_NO_ERRS = false ->
      (ParserH.parse (map ev_arg args) p d stderr).1.1 = Returned true <-> m = n)
     /\ (n = unlimited ->
         (ParserH.parse (map ev_arg args) p d stderr).1.1 = Returned true))
  /\ (forall (p : ParserH.parser D) evs d stderr,
     ParserH.expected_argument_count_ p = cast t_ssize_t n ->
     n <> unlimited -> has (ParserH.flags_ p) ARGP_NO_ERRS = false ->
     (ParserH.parse evs p d stderr).1.1 = Returned true ->
     ParserH.size (ParserH.parse evs p d stderr).1.2.1 = n)
  /\ (forall (p : Part000.parser D) d,
     Part000.expected_argument_count_ p = cast t_ssize_t n ->
     Part000.arguments_ p = args ->
     Part000.parseoptions_ ARGP_KEY_END "" (p, d)
     = (0, (p, d),
        arity_calls (argp_error "too few arguments given" [])
                    (argp_error "too many arguments given" []) n m))
  /\ (forall (p : Part000.parser D) d stderr,
     Part000.expected_argument_count_ p = cast t_ssize_t n ->
     no_reserved_key (Part000.convert_ p) = true ->
     (n <> unlimited -> has (Part000.flags_ p) ARGP_NO_ERRS = false ->
      (Part000.parse (map ev_arg args) p d stderr).1.1 = Returned true <-> m = n)
     /\ (n = unlimited ->
         (Part000.parse (map ev_arg args) p d stderr).1.1 = Returned true))
  /\ (forall (p : Part000.parser D) evs d stderr,
     Part000.expected_argument_count_ p = cast t_ssize_t n ->
     n <> unlimited -> has (Part000.flags_ p) ARGP_NO_ERRS = false ->
     (Part000.parse evs p d stderr).1.1 = Returned true ->
     Part000.size (Part000.parse evs p d stderr).1.2.1 = n)
  /\ (forall (p : ParserH.parser D) evs d stderr p1 d1 stderr1,
     ParserH.expected_argument_count_ p = cast t_ssize_t n ->
     no_reserved_key (ParserH.convert_ p) = true ->
     parse_events ParserH.parseoptions_ (ParserH.flags_ p) evs (p, d) stderr
     = (Returned 0, (p1, d1), stderr1) ->
     (n <> unlimited -> has (ParserH.flags_ p) ARGP_NO_ERRS = false ->
      (ParserH.parse evs p d stderr).1.1 = Returned true <-> ParserH.size p1 = n)
     /\ (n = unlimited -> (ParserH.parse evs p d stderr).1.1 = Returned true)
     /\ (Forall (fun ev => ev.1 <> ARGP_KEY_INIT) evs ->
         ParserH.arguments_ p1 = arg_texts evs))
  /\ (forall (p : Part000.parser D) evs d stderr p1 d1 stderr1,
     Part000.expected_argument_count_ p = cast t_ssize_t n ->
     no_reserved_key (Part000.convert_ p) = true ->
     parse_events Part000.parseoptions_ (Part000.flags_ p) evs (p, d) stderr
     = (Returned 0, (p1, d1), stderr1) ->
     (n <> unlimited -> has (Part000.flags_ p) ARGP_NO_ERRS = false ->
      (Part000.parse evs p d stderr).1.1 = Returned true <-> Part000.size p1 = n)
     /\ (n = unlimited -> (Part000.parse evs p d stderr).1.1 = Returned true)
     /\ (Forall (fun ev => ev.1 <> ARGP_KEY_INIT) evs ->
         Part000.arguments_ p1 = arg_texts evs))
  /\ (forall (p : ParserH.parser D) evs d stderr,
     ParserH.expected_argument_count_ p = cast t_ssize_t n ->
     no_reserved_key (ParserH.convert_ p) = true ->
     n <> unlimited -> has (ParserH.flags_ p) ARGP_NO_ERRS = false ->
     ((ParserH.parse evs p d stderr).1.1 = Returned true
      <-> exists p1 d1 stderr1,
            parse_events ParserH.parseoptions_ (ParserH.flags_ p) evs (p, d) stderr
            = (Returned 0, (p1, d1), stderr1)
            /\ ParserH.size p1 = n))
  /\ (forall (p : Part000.parser D) evs d stderr,
     Part000.expected_argument_count_ p = cast t_ssize_t n ->
     no_reserved_key (Part000.convert_ p) = true ->
     n <> unlimited -> has (Part000.flags_ p) ARGP_NO_ERRS = false ->
     ((Part000.parse evs p d stderr).1.1 = Returned true
      <-> exists p1 d1 stderr1,
            parse_events Part000.parseoptions_ (Part000.flags_ p) evs (p, d) stderr
            = (Returned 0, (p1, d1), stderr1)
            /\ Part000.size p1 = n)).
Proof.
  intros Hn m.
  split; [|split; [|split; [|split; [|split; [|split; [|split; [|split; [|split]]]]]]]].
  - intros p d He Ha Hk. rewrite (ParserHFacts.h_parseoptions_end n) by done.
    unfold ParserH.size. by rewrite Ha.
  - intros p d stderr He Hres. split.
    + intros. by apply ParserHFacts.h_parse_positional.
    + intros ->. apply ParserHFacts.h_parse_positional_unlimited; [|done].
      by rewrite He.
  - intros. by apply ParserHFacts.h_parse_true_arity.
  - intros p d He Ha. rewrite (Part000Facts.p_parseoptions_end n) by done.
    unfold Part000.size. by rewrite Ha.
  - intros p d stderr He Hres. split.
    + intros. by apply Part000Facts.p_parse_positional.
    + intros ->. apply Part000Facts.p_parse_positional_unlimited; [|done].
      by rewrite He.
  - intros. by apply Part000Facts.p_parse_true_arity.
  - intros p evs d stderr p1 d1 stderr1 He Hres Hev.
    destruct (h_parse_accepted n evs p d stderr p1 d1 stderr1 Hn He Hres Hev)
      as [Hiff Hun].
    split; [done|split; [done|]]. intros Hall.
    apply (h_parse_events_args (ParserH.flags_ p) evs p d stderr p1 d1 stderr1);
      try done; apply no_reserved_key_lookup; try done; simpl; tauto.
  - intros p evs d stderr p1 d1 stderr1 He Hres Hev.
    destruct (p_parse_accepted n evs p d stderr p1 d1 stderr1 Hn He Hres Hev)
      as [Hiff Hun].
    split; [done|split; [done|]]. intros Hall.
    by apply (p_parse_events_args (Part000.flags_ p) evs p d stderr p1 d1 stderr1).
  - intros p evs d stderr He Hres Hu Hf. split.
    + intros Htrue.
      destruct (h_parse_true_accepted evs p d stderr Hf Htrue)
        as (p1 & d1 & stderr1 & Hev).
      exists p1, d1, stderr1. split; [done|].
      destruct (h_parse_accepted n evs p d stderr p1 d1 stderr1 Hn He Hres Hev)
        as [Hiff _].
      by apply Hiff.
    + intros (p1 & d1 & stderr1 & Hev & Hm).
      destruct (h_parse_accepted n evs p d stderr p1 d1 stderr1 Hn He Hres Hev)
        as [Hiff _].
      by apply Hiff.
  - intros p evs d stderr He Hres Hu Hf. split.
    + intros Htrue.
      destruct (p_parse_true_accepted evs p d stderr Hf Htrue)
        as (p1 & d1 & stderr1 & Hev).
      exists p1, d1, stderr1. split; [done|].
      destruct (p_parse_accepted n evs p d stderr p1 d1 stderr1 Hn He Hres Hev)
        as [Hiff _].
      by apply Hiff.
    + intros (p1 & d1 & stderr1 & Hev & Hm).
      destruct (p_parse_accepted n evs p d stderr p1 d1 stderr1 Hn He Hres Hev)
        as [Hiff _].
      by apply Hiff.
Qed.

Lemma arity_enforcement_witness :
  (ParserH.parse (map ev_arg ["a"; "b"]) h_parser 0 []).1.1 = Returned true
  /\ (Part000.parse (map ev_arg ["a"; "b"]) p_parser 0 []).1.1 = Returned true
  /\ (ParserH.parseoptions_ ARGP_KEY_END ""
        (ParserH.set_arguments_ h_parser ["a"; "b"], 0)).2 = []
  /\ (Part000.parseoptions_ ARGP_KEY_END ""
        (Part000.set_arguments_ p_parser ["a"; "b"], 0)).2 = []
  /\ (ParserH.parse good_line h_parser 0 []).1.1 = Returned true
  /\ (Part000.parse good_line p_parser 0 []).1.1 = Returned true.
Proof.
  destruct (arity_enforcement Z 2 ["a"; "b"] ltac:(lia))
    as (H1 & H2 & _ & H4 & H5 & _ & H7 & H8 & _).
  destruct (H2 h_parser 0 [] ltac:(reflexivity) ltac:(vm_compute; reflexivity))
    as [H2' _].
  destruct (H5 p_parser 0 [] ltac:(reflexivity) ltac:(vm_compute; reflexivity))
    as [H5' _].
  pose (hr := parse_events ParserH.parseoptions_ (ParserH.flags_ h_parser)
                good_line (h_parser, 0) []).
  pose (pr := parse_events Part000.parseoptions_ (Part000.flags_ p_parser)
                good_line (p_parser, 0) []).
  destruct (H7 h_parser good_line 0 [] hr.1.2.1 hr.1.2.2 hr.2
              ltac:(reflexivity) ltac:(vm_compute; reflexivity) ltac:(reflexivity))
    as [H7' _].
  destruct (H8 p_parser good_line 0 [] pr.1.2.1 pr.1.2.2 pr.2
              ltac:(reflexivity) ltac:(vm_compute; reflexivity) ltac:(reflexivity))
    as [H8' _].
  split; [|split; [|split; [|split; [|split]]]].
  - apply H2'; [discriminate|reflexivity|reflexivity].
  - apply H5'; [discriminate|reflexivity|reflexivity].
  - rewrite H1; reflexivity.
  - rewrite H4; reflexivity.
  - apply H7'; [discriminate|reflexivity|reflexivity].
  - apply H8'; [discriminate|reflexivity|reflexivity].
Defined.

Lemma has_lor flags bit :
  0 < bit -> bit = 2 ^ Z.log2 bit -> has (Z.lor flags bit) bit = true.
Proof.
  intros Hpos Hpow. unfold has.
  destruct (Z.eqb_spec (Z.land (Z.lor flags bit) bit) 0) as [E|]; [|done].
  exfalso.
  assert (Hbit : Z.testbit (Z.land (Z.lor flags bit) bit) (Z.log2 bit) = true).
  { rewrite Z.land_spec, Z.lor_spec.
    rewrite (Z.bit_log2 bit Hpos). by rewrite orb_true_r. }
  rewrite E in Hbit. by rewrite Z.bits_0 in Hbit.
Qed.

(** C6. With [ARGP_NO_ERRS] among the flags, whether found in [flags_] or
    just set through [add_flags], [parse] returns [true] on every command
    line handed to the dispatcher, whatever the converters and the arity
    check do. In both headers. *)
Theorem no_errs_parse_succeeds (D : Type) (evs : list (Z * string)) (d : D)
    (stderr : list call) :
  (forall p : ParserH.parser D,
     has (ParserH.flags_ p) ARGP_NO_ERRS = true ->
     (ParserH.parse evs p d stderr).1.1 = Returned true)
  /\ (forall p : ParserH.parser D,
     (ParserH.parse evs (ParserH.add_flags ARGP_NO_ERRS p) d stderr).1.1
     = Returned true)
  /\ (forall p : Part000.parser D,
     has (Part000.flags_ p) ARGP_NO_ERRS = true ->
     (Part000.parse evs p d stderr).1.1 = Returned true)
  /\ (forall p : Part000.parser D,
     (Part000.parse evs (Part000.add_flags ARGP_NO_ERRS p) d stderr).1.1
     = Returned true).
Proof.
  assert (H1 : forall p : ParserH.parser D,
     has (ParserH.flags_ p) ARGP_NO_ERRS = true ->
     (ParserH.parse evs p d stderr).1.1 = Returned true).
  { intros p Hf. unfold ParserH.parse.
    pose proof (ParserHFacts.h_argp_parse_config (ParserH.flags_ p) evs p d stderr) as Hc.
    destruct (ArgpFacts.argp_parse_returns ParserH.parseoptions_ _ Hf evs (p, d) stderr)
      as [ret Hret].
    destruct (argp_parse ParserH.parseoptions_ (ParserH.flags_ p) evs (p, d) stderr)
      as [[[ret'|status] [p' d']] stderr']; simpl in *; [|done].
    unfold ParserH.config in Hc. injection Hc as _ _ _ Hf'.
    by rewrite Hf', Hf. }
  assert (H2 : forall p : Part000.parser D,
     has (Part000.flags_ p) ARGP_NO_ERRS = true ->
     (Part000.parse evs p d stderr).1.1 = Returned true).
  { intros p Hf. unfold Part000.parse.
    pose proof (Part000Facts.p_argp_parse_config (Part000.flags_ p) evs p d stderr) as Hc.
    destruct (ArgpFacts.argp_parse_returns Part000.parseoptions_ _ Hf evs (p, d) stderr)
      as [ret Hret].
    destruct (argp_parse Part000.parseoptions_ (Part000.flags_ p) evs (p, d) stderr)
      as [[[ret'|status] [p' d']] stderr']; simpl in *; [|done].
    unfold Part000.config in Hc. injection Hc as _ _ _ Hf' _.
    by rewrite Hf', Hf. }
  split; [done|split; [|split; [done|]]].
  - intros p. apply H1. simpl. by apply has_lor.
  - intros p. apply H2. simpl. by apply has_lor.
Qed.

Lemma no_errs_parse_succeeds_witness :
  (ParserH.parse bad_both (ParserH.add_flags ARGP_NO_ERRS h_parser) 0 []).1.1
  = Returned true
  /\ (Part000.parse bad_both (Part000.add_flags ARGP_NO_ERRS p_parser) 0 []).1.1
  = Returned true.
Proof.
  destruct (no_errs_parse_succeeds Z bad_both 0 []) as (H1 & _ & H3 & _).
  split; [apply H1|apply H3]; reflexivity.
Defined.

(** C8. An event whose key has no entry in the registry and is none of the
    lifecycle cases of the switch is answered with status 0, without any
    call on the engine state and without any change to the parser
    (positional arguments included) or to the destinations. In both
    headers. *)
Theorem unknown_key_ignored (D : Type) (key : Z) (arg : string) (d : D) :
  key <> ARGP_KEY_INIT -> key <> ARGP_KEY_ARG ->
  key <> ARGP_KEY_END -> key <> ARGP_KEY_ERROR ->
  (forall p : ParserH.parser D,
     ParserH.convert_ p !! key = None ->
     ParserH.parseoptions_ key arg (p, d) = (0, (p, d), []))
  /\ (forall p : Part000.parser D,
     Part000.convert_ p !! key = None ->
     Part000.parseoptions_ key arg (p, d) = (0, (p, d), [])).
Proof.
  intros H1 H2 H3 _. split; intros p Hk.
  - by apply ParserHFacts.h_parseoptions_unknown.
  - by apply Part000Facts.p_parseoptions_unknown.
Qed.

Lemma unknown_key_ignored_witness :
  ParserH.parseoptions_ 120 "7" (h_parser, 0) = (0, (h_parser, 0), [])
  /\ Part000.parseoptions_ 120 "7" (p_parser, 0) = (0, (p_parser, 0), []).
Proof.
  destruct (unknown_key_ignored Z 120 "7" 0) as [H1 H2]; [discriminate..|].
  split; [apply H1|apply H2]; reflexivity.
Defined.

(** C9. [arguments()] is a read of [arguments_]: it is empty on a freshly
    constructed parser, and no sequence of the other public operations
    short of [parse] (registrations, flag changes, [arguments()] itself)
    changes what it returns. In both headers. *)
Theorem arguments_stable (D : Type) :
  (forall n, ParserH.arguments (ParserH.new_parser (D := D) n) = [])
  /\ (forall (ms : list (ParserH.method D)) p,
     ParserH.arguments (fold_left ParserH.invoke ms p) = ParserH.arguments p)
  /\ (forall n, Part000.arguments (Part000.new_parser (D := D) n) = [])
  /\ (forall (ms : list (Part000.method D)) p,
     Part000.arguments (fold_left Part000.invoke ms p) = Part000.arguments p).
Proof.
  split; [done|split; [|split; [done|]]].
  - induction ms as [|m ms IH]; intros p; simpl; [done|].
    rewrite IH. by destruct m.
  - induction ms as [|m ms IH]; intros p; simpl; [done|].
    rewrite IH. by destruct m.
Qed.

(** ** Sequence destinations *)

Section Vectors.
Context {D : Type}.

Lemma h_push_back_all_load (x : ref D (list string)) vals : forall d,
  load x (ParserH.push_back_all x vals d) = load x d ++ vals.
Proof.
  induction vals as [|val vals IH]; intros d; simpl.
  - by rewrite app_nil_r.
  - rewrite IH. unfold ParserH.push_back. rewrite load_store.
    by rewrite <- app_assoc.
Qed.

Lemma h_push_back_stoi_self T vals : forall acc,
  (ParserH.push_back_stoi T (self_ref (list Z)) vals acc).2
  = acc ++ (ParserH.push_back_stoi T (self_ref (list Z)) vals []).2.
Proof.
  induction vals as [|val vals IH]; intros acc; simpl.
  - by rewrite app_nil_r.
  - destruct (stoi val) as [v|e]; simpl; [|by rewrite app_nil_r].
    rewrite (IH (acc ++ [cast T v])), (IH [cast T v]).
    by rewrite <- app_assoc.
Qed.

Lemma h_push_back_stoi_load T (x : ref D (list Z)) vals : forall d,
  load x (ParserH.push_back_stoi T x vals d).2
  = load x d ++ (ParserH.push_back_stoi T (self_ref (list Z)) vals []).2.
Proof.
  induction vals as [|val vals IH]; intros d; simpl.
  - by rewrite app_nil_r.
  - destruct (stoi val) as [v|e]; simpl; [|by rewrite app_nil_r].
    rewrite IH, (h_push_back_stoi_self T vals [cast T v]).
    unfold ParserH.push_back. rewrite ?load_store. by rewrite <- app_assoc.
Qed.

Lemma p_and_more_dest {A} (cs : list call) (r : Z * A * list call) :
  (let '(e', d', cs') := r in (e', d', cs ++ cs')).1.2 = r.1.2.
Proof. by destruct r as [[? ?] ?]. Qed.

Lemma p_vector_loop_self {T} (make : ref T T -> Part000.arg_parser T) val0
    key arg vals : forall acc,
  (Part000.vector_loop make val0 (self_ref (list T)) key arg vals acc).1.2
  = acc ++ (Part000.vector_loop make val0 (self_ref (list T)) key arg vals []).1.2.
Proof.
  induction vals as [|val vals IH]; intros acc; simpl.
  - by rewrite app_nil_r.
  - destruct (make (self_ref T) key arg val0) as [[e v] cs].
    destruct (negb (e =? 0)); simpl; [by rewrite app_nil_r|].
    rewrite !p_and_more_dest.
    rewrite (IH (acc ++ [v])), (IH [v]). by rewrite <- app_assoc.
Qed.

Lemma p_vector_loop_load {T} (make : ref T T -> Part000.arg_parser T) val0
    (x : ref D (list T)) key arg vals : forall d,
  load x (Part000.vector_loop make val0 x key arg vals d).1.2
  = load x d
    ++ (Part000.vector_loop make val0 (self_ref (list T)) key arg vals []).1.2.
Proof.
  induction vals as [|val vals IH]; intros d; simpl.
  - by rewrite app_nil_r.
  - destruct (make (self_ref T) key arg val0) as [[e v] cs].
    destruct (negb (e =? 0)); simpl; [by rewrite app_nil_r|].
    rewrite !p_and_more_dest.
    rewrite IH, (p_vector_loop_self make val0 key arg vals [v]).
    unfold Part000.push_back. rewrite ?load_store. by rewrite <- app_assoc.
Qed.

End Vectors.

(** C10. A converter of a sequence destination only appends: after the
    conversion of any text, accepted or refused, the vector is its previous
    content followed by the new elements, which are the ones the same
    conversion commits to an empty vector. For the three vector converters
    (strings and numbers in cxx_argp_parser.h, the generic one of
    part_000). *)
Theorem vector_converters_append (D : Type) (arg : string) (d : D) :
  (forall x : ref D (list string),
     load x (ParserH.make_check_function_vector_string x arg d).2
     = load x d ++ pieces arg)
  /\ (forall T (x : ref D (list Z)),
     load x (ParserH.make_check_function_vector T x arg d).2
     = load x d
       ++ (ParserH.make_check_function_vector T (self_ref (list Z)) arg []).2)
  /\ (forall (T : Type) (make : ref T T -> Part000.arg_parser T) (val0 : T)
        (x : ref D (list T)) (key : Z),
     load x (Part000.make_check_function_vector make val0 x key arg d).1.2
     = load x d
       ++ (Part000.make_check_function_vector make val0 (self_ref (list T))
             key arg []).1.2).
Proof.
  split; [|split].
  - intros x. apply h_push_back_all_load.
  - intros T x. apply h_push_back_stoi_load.
  - intros T make val0 x key. apply p_vector_loop_load.
Qed.

(** C3. The sequence converters at [1,2,3] and [1,x,3]. The one of
    cxx_argp_parser.h converts piece by piece: [1; 2; 3], and a refusal at
    [x] after [1] has been committed. The one of part_000 hands the whole
    raw text to the element converter once per piece: [1; 1; 1] for both
    texts, no refusal, and [parse] accepts [-v 1,x,3]. *)
Theorem sequence_conversion_runs :
  ParserH.make_check_function_vector t_int (self_ref (list Z)) "1,2,3" []
  = (true, [1; 2; 3])
  /\ ParserH.make_check_function_vector t_int (self_ref (list Z)) "1,x,3" []
     = (false, [1])
  /\ (ParserH.parse [(118, "1,x,3")]
        (ParserH.add_flags ARGP_NO_EXIT h_vector_parser) [] []).1.1
     = Returned false
  /\ Part000.make_check_function_vector
       (Part000.make_check_function_integer t_int) 0 (self_ref (list Z))
       118 "1,2,3" []
     = (0, [1; 1; 1], [])
  /\ Part000.make_check_function_vector
       (Part000.make_check_function_integer t_int) 0 (self_ref (list Z))
       118 "1,x,3" []
     = (0, [1; 1; 1], [])
  /\ (let r := Part000.parse [(118, "1,x,3")] p_vector_parser [] [] in
      (r.1.1, r.1.2.2)) = (Returned true, [1; 1; 1]).
Proof. repeat split; vm_compute; reflexivity. Qed.

(** ** Registering a key twice *)

Lemma map_insert_taken {V} (k : Z) (v : V) (m : gmap Z V) :
  is_Some (m !! k) -> map_insert k v m = m.
Proof. intros [v' Hv]. unfold map_insert. by rewrite Hv. Qed.

Lemma map_insert_free {V} (k : Z) (v : V) (m : gmap Z V) :
  m !! k = None -> map_insert k v m !! k = Some v.
Proof. intros Hk. unfold map_insert. rewrite Hk. apply lookup_insert_eq. Qed.

Lemma map_insert_is_Some {V} (k : Z) (v : V) (m : gmap Z V) :
  is_Some (map_insert k v m !! k).
Proof.
  unfold map_insert. destruct (m !! k) as [v'|] eqn:E.
  - rewrite E. by exists v'.
  - rewrite lookup_insert_eq. by exists v.
Qed.

(** C4, as stated, fails: if the later registration won, the event of the
    doubly registered key would run the second converter. With a first
    converter that writes 1 and a second that writes 2, the store holds 1
    after the event. In both headers. *)
Lemma last_registration_does_not_win :
  ~ (forall (o1 o2 : argp_option) (c1 c2 : ParserH.check_function Z)
            (p : ParserH.parser Z) (arg : string) (d : Z),
       o_key o1 = o_key o2 ->
       (ParserH.parseoptions_ (o_key o2) arg
          (ParserH.add_option o2 c2 (ParserH.add_option o1 c1 p), d)).1.2.2
       = (c2 arg d).2)
  /\ ~ (forall (o1 o2 : argp_option) (c1 c2 : Part000.arg_parser Z)
               (p : Part000.parser Z) (arg : string) (d : Z),
       o_key o1 = o_key o2 ->
       (Part000.parseoptions_ (o_key o2) arg
          (Part000.add_option o2 c2 (Part000.add_option o1 c1 p), d)).1.2.2
       = (c2 (o_key o2) arg d).1.2).
Proof.
  split; intros H.
  - specialize (H opt_n opt_n (h_writes 1) (h_writes 2) (ParserH.new_parser 0)
                  "5" 0 eq_refl).
    vm_compute in H. discriminate.
  - specialize (H opt_n opt_n (p_writes 1) (p_writes 2) (Part000.new_parser 0)
                  "5" 0 eq_refl).
    vm_compute in H. discriminate.
Qed.

(** C4, amended. A registration under a key that is already registered
    leaves the registry as it is, so of two registrations under one key
    the first stays: the lookup yields the first converter, and the event
    of that key runs it. In both headers (in part_000 for keys that are
    not lifecycle cases of the switch, which comes first there). *)
Theorem first_registration_wins (D : Type) (o1 o2 : argp_option)
    (arg : string) (d : D) :
  o_key o2 = o_key o1 ->
  (forall (c1 c2 : ParserH.check_function D) (p : ParserH.parser D),
     let p2 := ParserH.add_option o2 c2 (ParserH.add_option o1 c1 p) in
     ParserH.convert_ p2 = ParserH.convert_ (ParserH.add_option o1 c1 p)
     /\ (ParserH.convert_ p !! o_key o1 = None ->
         ParserH.convert_ p2 !! o_key o1 = Some c1
         /\ (ParserH.parseoptions_ (o_key o1) arg (p2, d)).1.1
            = (if (c1 arg d).1 then 0 else -1)
         /\ (ParserH.parseoptions_ (o_key o1) arg (p2, d)).1.2.2 = (c1 arg d).2))
  /\ (forall (c1 c2 : Part000.arg_parser D) (p : Part000.parser D),
     let p2 := Part000.add_option o2 c2 (Part000.add_option o1 c1 p) in
     Part000.convert_ p2 = Part000.convert_ (Part000.add_option o1 c1 p)
     /\ (Part000.convert_ p !! o_key o1 = None ->
         Part000.convert_ p2 !! o_key o1 = Some c1
         /\ (o_key o1 <> ARGP_KEY_INIT -> o_key o1 <> ARGP_KEY_ARG ->
             o_key o1 <> ARGP_KEY_END -> o_key o1 <> ARGP_KEY_ERROR ->
             Part000.parseoptions_ (o_key o1) arg (p2, d)
             = let '(e, d', cs) := c1 (o_key o1) arg d in (e, (p2, d'), cs)))).
Proof.
  intros Hkey. split.
  - intros c1 c2 p p2.
    assert (Hreg : ParserH.convert_ p2
                   = ParserH.convert_ (ParserH.add_option o1 c1 p)).
    { subst p2. simpl. rewrite Hkey. apply map_insert_taken, map_insert_is_Some. }
    split; [done|]. intros Hfree.
    assert (Hl : ParserH.convert_ p2 !! o_key o1 = Some c1).
    { rewrite Hreg. simpl. by apply map_insert_free. }
    split; [done|].
    unfold ParserH.parseoptions_. rewrite Hl.
    by destruct (c1 arg d) as [[] d'].
  - intros c1 c2 p p2.
    assert (Hreg : Part000.convert_ p2
                   = Part000.convert_ (Part000.add_option o1 c1 p)).
    { subst p2. simpl. rewrite Hkey. apply map_insert_taken, map_insert_is_Some. }
    split; [done|]. intros Hfree.
    assert (Hl : Part000.convert_ p2 !! o_key o1 = Some c1).
    { rewrite Hreg. simpl. by apply map_insert_free. }
    split; [done|]. intros H1 H2 H3 H4.
    unfold Part000.parseoptions_. rewrite Hl.
    by rewrite (proj2 (Z.eqb_neq _ _) H1), (proj2 (Z.eqb_neq _ _) H2),
      (proj2 (Z.eqb_neq _ _) H3), (proj2 (Z.eqb_neq _ _) H4).
Qed.

Lemma first_registration_wins_witness :
  (ParserH.parseoptions_ 110 "5"
     (ParserH.add_option opt_n (h_writes 2)
        (ParserH.add_option opt_n (h_writes 1) (ParserH.new_parser 0)), 0)).1.2.2
  = 1
  /\ (Part000.parseoptions_ 110 "5"
        (Part000.add_option opt_n (p_writes 2)
           (Part000.add_option opt_n (p_writes 1) (Part000.new_parser 0)), 0)).1.2.2
     = 1.
Proof.
  destruct (first_registration_wins Z opt_n opt_n "5" 0 eq_refl) as [H1 H2].
  destruct (H1 (h_writes 1) (h_writes 2) (ParserH.new_parser 0)) as [_ H1'].
  destruct (H1' eq_refl) as (_ & _ & H1'').
  destruct (H2 (p_writes 1) (p_writes 2) (Part000.new_parser 0)) as [_ H2'].
  destruct (H2' eq_refl) as [_ H2''].
  split.
  - apply H1''.
  - change 110 with (o_key opt_n). rewrite H2''; [reflexivity|discriminate..].
Defined.

(** ** Conversion failures and arity mismatches *)

(** C5, as stated, fails. With the default flags, a refused option text
    ends the process with [argp_err_exit_status] (64), requested through
    [argp_error], not with 1; and an arity mismatch does not come back
    from [parse] as [false]: the end handler has the engine end the
    process, with status 1 through [argp_failure] in cxx_argp_parser.h and
    with 64 through [argp_error] in part_000. *)
Lemma exit_statuses_counterexample :
  (ParserH.parseoptions_ 110 "x" (h_parser, 0)).2
  = [argp_error "argument '%s' not usable for '%c'" [FmtString "x"; FmtChar 110]]
  /\ (ParserH.parse bad_option h_parser 0 []).1.1 = Exited 64
  /\ (ParserH.parse bad_option h_parser 0 []).1.1 <> Exited 1
  /\ (ParserH.parse bad_arity h_parser 0 []).1.1 = Exited 1
  /\ (ParserH.parse bad_arity h_parser 0 []).1.1 <> Returned false
  /\ (Part000.parse bad_option p_parser 0 []).1.1 = Exited 64
  /\ (Part000.parse bad_option p_parser 0 []).1.1 <> Exited 1
  /\ (Part000.parse bad_arity p_parser 0 []).1.1 = Exited 64
  /\ (Part000.parse bad_arity p_parser 0 []).1.1 <> Returned false.
Proof. repeat split; vm_compute; (reflexivity || discriminate). Qed.

Lemma h_parse_returned (D : Type) evs (p : ParserH.parser D) d stderr ret
    (st' : ParserH.parser D * D) stderr' :
  argp_parse ParserH.parseoptions_ (ParserH.flags_ p) evs (p, d) stderr
  = (Returned ret, st', stderr') ->
  has (ParserH.flags_ p) ARGP_NO_ERRS = false ->
  (ParserH.parse evs p d stderr).1.1
  = Returned (negb (negb (ret =? 0)
                    || negb (ParserH.expected_argument_count_ p =? -1)
                       && negb (cast t_size_t (ParserH.expected_argument_count_ p)
                                =? ParserH.size st'.1))).
Proof.
  intros Hrun Hf. unfold ParserH.parse.
  pose proof (ParserHFacts.h_argp_parse_config (ParserH.flags_ p) evs p d stderr) as Hc.
  rewrite Hrun in *. simpl in *.
  unfold ParserH.config in Hc. injection Hc as _ _ He' Hf'.
  rewrite Hf', Hf, He'.
  destruct (ret =? 0); simpl; [|done].
  by destruct (negb _ && negb _).
Qed.

Lemma p_parse_returned (D : Type) evs (p : Part000.parser D) d stderr ret
    (st' : Part000.parser D * D) stderr' :
  argp_parse Part000.parseoptions_ (Part000.flags_ p) evs (p, d) stderr
  = (Returned ret, st', stderr') ->
  has (Part000.flags_ p) ARGP_NO_ERRS = false ->
  (Part000.parse evs p d stderr).1.1
  = Returned (negb (negb (ret =? 0)
                    || negb (Part000.expected_argument_count_ p =? -1)
                       && negb (cast t_size_t (Part000.expected_argument_count_ p)
                                =? Part000.size st'.1))).
Proof.
  intros Hrun Hf. unfold Part000.parse.
  pose proof (Part000Facts.p_argp_parse_config (Part000.flags_ p) evs p d stderr) as Hc.
  rewrite Hrun in *. simpl in *.
  unfold Part000.config in Hc. injection Hc as _ _ He' Hf' _.
  rewrite Hf', Hf, He'.
  destruct (ret =? 0); simpl; [|done].
  by destruct (negb _ && negb _).
Qed.

(** C5, amended. A refused option text makes the handler call [argp_error]
    once, which carries no exit status of its own, and return -1. An arity
    mismatch makes the end handler return 0 after one call:
    [argp_failure] with status 1 in cxx_argp_parser.h, [argp_error] in
    part_000. With none of the flags set the engine ends the process on
    [argp_error] with [argp_err_exit_status] and on [argp_failure] with the
    status passed. Whenever the engine returns to the driver instead and
    [ARGP_NO_ERRS] is not set, [parse] returns [false] after a non-zero
    status as well as after an arity mismatch. *)
Theorem failure_reporting (D : Type) (key : Z) (arg : string) (d : D) :
  (forall (p : ParserH.parser D) opt,
     ParserH.convert_ p !! key = Some opt -> (opt arg d).1 = false ->
     (ParserH.parseoptions_ key arg (p, d)).1.1 = -1
     /\ (ParserH.parseoptions_ key arg (p, d)).2
        = [argp_error "argument '%s' not usable for '%c'"
                      [FmtString arg; FmtChar key]])
  /\ (forall (p : ParserH.parser D) n,
     0 <= n < 2 ^ 64 -> n <> unlimited ->
     ParserH.expected_argument_count_ p = cast t_ssize_t n ->
     ParserH.convert_ p !! ARGP_KEY_END = None ->
     ParserH.size p <> n ->
     exists msg,
       ParserH.parseoptions_ ARGP_KEY_END "" (p, d)
       = (0, (p, d), [argp_failure 1 0 msg []]))
  /\ (forall (x : ref D Z) T (custom : string -> D -> bool * D),
     (forall err, stol arg = inr err ->
      Part000.make_check_function_integer T x key arg d
      = (-1, d, [argp_error "unable to interpret '%s' as a whole number, %s"
                            [FmtString arg; FmtWhat err]]))
     /\ ((custom arg d).1 = false ->
         (Part000.wrap_custom custom key arg d).1.1 = -1
         /\ (Part000.wrap_custom custom key arg d).2
            = [argp_error "argument '%s' not usable for '%c'"
                          [FmtString arg; FmtChar key]]))
  /\ (forall (p : Part000.parser D) n,
     0 <= n < 2 ^ 64 -> n <> unlimited ->
     Part000.expected_argument_count_ p = cast t_ssize_t n ->
     Part000.size p <> n ->
     exists msg,
       Part000.parseoptions_ ARGP_KEY_END "" (p, d)
       = (0, (p, d), [argp_error msg []]))
  /\ (forall fmt args status,
     perform 0 (argp_error fmt args)
     = ([argp_error fmt args], Some argp_err_exit_status)
     /\ (status <> 0 ->
         perform 0 (argp_failure status 0 fmt args)
         = ([argp_failure status 0 fmt args], Some status)))
  /\ (forall evs (p : ParserH.parser D) stderr ret st' stderr',
     argp_parse ParserH.parseoptions_ (ParserH.flags_ p) evs (p, d) stderr
     = (Returned ret, st', stderr') ->
     has (ParserH.flags_ p) ARGP_NO_ERRS = false ->
     ret <> 0
     \/ (ParserH.expected_argument_count_ p <> -1
         /\ cast t_size_t (ParserH.expected_argument_count_ p) <> ParserH.size st'.1) ->
     (ParserH.parse evs p d stderr).1.1 = Returned false)
  /\ (forall evs (p : Part000.parser D) stderr ret st' stderr',
     argp_parse Part000.parseoptions_ (Part000.flags_ p) evs (p, d) stderr
     = (Returned ret, st', stderr') ->
     has (Part000.flags_ p) ARGP_NO_ERRS = false ->
     ret <> 0
     \/ (Part000.expected_argument_count_ p <> -1
         /\ cast t_size_t (Part000.expected_argument_count_ p) <> Part000.size st'.1) ->
     (Part000.parse evs p d stderr).1.1 = Returned false).
Proof.
  split; [|split; [|split; [|split; [|split; [|split]]]]].
  - intros p opt Hk Hno. unfold ParserH.parseoptions_. rewrite Hk.
    destruct (opt arg d) as [ok d']. simpl in Hno. by subst ok.
  - intros p n Hn Hu He Hk Hm.
    rewrite (ParserHFacts.h_parseoptions_end n) by done.
    unfold arity_calls. rewrite (proj2 (Z.eqb_neq _ _) Hu).
    destruct (Z.ltb_spec (ParserH.size p) n); [by eexists|].
    destruct (Z.ltb_spec n (ParserH.size p)); [by eexists|lia].
  - intros x T custom. split.
    + intros err Herr. unfold Part000.make_check_function_integer.
      by rewrite Herr.
    + intros Hno. unfold Part000.wrap_custom.
      destruct (custom arg d) as [ok d']. simpl in Hno. by subst ok.
  - intros p n Hn Hu He Hm.
    rewrite (Part000Facts.p_parseoptions_end n) by done.
    unfold arity_calls. rewrite (proj2 (Z.eqb_neq _ _) Hu).
    destruct (Z.ltb_spec (Part000.size p) n); [by eexists|].
    destruct (Z.ltb_spec n (Part000.size p)); [by eexists|lia].
  - intros fmt args status. split; [done|]. intros Hs. simpl.
    by rewrite (proj2 (Z.eqb_neq _ _) Hs).
  - intros evs p stderr ret st' stderr' Hrun Hf Hbad.
    rewrite (h_parse_returned _ _ _ _ _ _ _ _ Hrun Hf). f_equal.
    destruct Hbad as [Hret|[He Hsz]].
    + by rewrite (proj2 (Z.eqb_neq _ _) Hret).
    + rewrite (proj2 (Z.eqb_neq _ _) He), (proj2 (Z.eqb_neq _ _) Hsz).
      by destruct (ret =? 0).
  - intros evs p stderr ret st' stderr' Hrun Hf Hbad.
    rewrite (p_parse_returned _ _ _ _ _ _ _ _ Hrun Hf). f_equal.
    destruct Hbad as [Hret|[He Hsz]].
    + by rewrite (proj2 (Z.eqb_neq _ _) Hret).
    + rewrite (proj2 (Z.eqb_neq _ _) He), (proj2 (Z.eqb_neq _ _) Hsz).
      by destruct (ret =? 0).
Qed.

Lemma failure_reporting_witness :
  (ParserH.parseoptions_ 110 "x" (h_parser, 0)).1.1 = -1
  /\ (ParserH.parse bad_option (ParserH.add_flags ARGP_NO_EXIT h_parser) 0 []).1.1
     = Returned false
  /\ (Part000.parse bad_arity (Part000.add_flags ARGP_NO_EXIT p_parser) 0 []).1.1
     = Returned false.
Proof.
  destruct (failure_reporting Z 110 "x" 0) as (H1 & _ & _ & _ & _ & H6 & H7).
  split; [|split].
  - eapply H1; reflexivity.
  - pose (r := argp_parse ParserH.parseoptions_
                 (ParserH.flags_ (ParserH.add_flags ARGP_NO_EXIT h_parser))
                 bad_option (ParserH.add_flags ARGP_NO_EXIT h_parser, 0) []).
    apply (H6 bad_option (ParserH.add_flags ARGP_NO_EXIT h_parser) []
              (-1) r.1.2 r.2).
    + assert (Ho : r.1.1 = Returned (-1)) by (vm_compute; reflexivity).
      subst r. destruct (argp_parse _ _ _ _ _) as [[o st] e]. simpl in *.
      by rewrite Ho.
    + reflexivity.
    + left; discriminate.
  - pose (r := argp_parse Part000.parseoptions_
                 (Part000.flags_ (Part000.add_flags ARGP_NO_EXIT p_parser))
                 bad_arity (Part000.add_flags ARGP_NO_EXIT p_parser, 0) []).
    apply (H7 bad_arity (Part000.add_flags ARGP_NO_EXIT p_parser) []
              0 r.1.2 r.2).
    + assert (Ho : r.1.1 = Returned 0) by (vm_compute; reflexivity).
      subst r. destruct (argp_parse _ _ _ _ _) as [[o st] e]. simpl in *.
      by rewrite Ho.
    + reflexivity.
    + right. split; [vm_compute; discriminate|].
      assert (Hs : Part000.size r.1.2.1 = 1) by (vm_compute; reflexivity).
      rewrite Hs. vm_compute. discriminate.
Defined.

(** ** State across invocations *)

Section Invocations.
Context {D : Type}.

(** The handler of cxx_argp_parser.h never reads [counter_]. *)
Lemma h_parseoptions_sim key arg (s1 s2 : ParserH.parser D * D) :
  ParserH.alike s1 s2 -> cb_sim ParserH.alike ParserH.parseoptions_ key arg s1 s2.
Proof.
  destruct s1 as [[o1 c1 e1 a1 n1 f1] d1], s2 as [[o2 c2 e2 a2 n2 f2] d2].
  unfold ParserH.alike, ParserH.config. simpl. intros (Hc & Ha & Hd). simplify_eq.
  unfold cb_sim, ParserH.parseoptions_, ParserH.alike, ParserH.config,
    ParserH.size. simpl.
  destruct (c2 !! key) as [opt|].
  - by destruct (opt arg d2) as [[] d'].
  - repeat case_match; done.
Qed.

Lemma h_init_sim (p1 p2 : ParserH.parser D) d :
  ParserH.config p1 = ParserH.config p2 ->
  ParserH.convert_ p1 !! ARGP_KEY_INIT = None ->
  cb_sim ParserH.alike ParserH.parseoptions_ ARGP_KEY_INIT "" (p1, d) (p2, d).
Proof.
  destruct p1 as [o1 c1 e1 a1 n1 f1], p2 as [o2 c2 e2 a2 n2 f2].
  unfold ParserH.config. simpl. intros Hc Hk. simplify_eq.
  unfold cb_sim, ParserH.parseoptions_, ParserH.alike, ParserH.config.
  simpl. by rewrite Hk.
Qed.

Lemma h_parse_sim evs (p1 p2 : ParserH.parser D) d stderr :
  ParserH.config p1 = ParserH.config p2 ->
  ParserH.convert_ p1 !! ARGP_KEY_INIT = None ->
  sim ParserH.alike (ParserH.parse evs p1 d stderr)
                        (ParserH.parse evs p2 d stderr).
Proof.
  intros Hc Hk. unfold ParserH.parse.
  assert (Hf : ParserH.flags_ p1 = ParserH.flags_ p2)
    by (unfold ParserH.config in Hc; by simplify_eq).
  rewrite Hf. apply ArgpFacts.and_then_sim.
  - apply ArgpFacts.argp_parse_sim; [apply h_parseoptions_sim|by apply h_init_sim].
  - intros ret [[o1 c1 x1 a1 n1 f1] e1] [[o2 c2 x2 a2 n2 f2] e2] stderr'
      (Hq & Ha & Hd).
    unfold sim, ParserH.alike, ParserH.config, ParserH.usage_unless_no_help,
      ParserH.size in *.
    simpl in *. simplify_eq. repeat case_match; done.
Qed.

Lemma h_parse_config evs (p : ParserH.parser D) d stderr :
  ParserH.config (ParserH.parse evs p d stderr).1.2.1 = ParserH.config p.
Proof.
  unfold ParserH.parse.
  pose proof (ParserHFacts.h_argp_parse_config (ParserH.flags_ p) evs p d stderr) as Hc.
  destruct (argp_parse ParserH.parseoptions_ (ParserH.flags_ p) evs (p, d) stderr)
    as [[[ret|status] [p' d']] stderr']; simpl in *; [|done].
  repeat case_match; done.
Qed.

Lemma p_set_arguments_config (p1 p2 : Part000.parser D) a :
  Part000.config p1 = Part000.config p2 ->
  Part000.set_arguments_ p1 a = Part000.set_arguments_ p2 a.
Proof.
  destruct p1, p2. unfold Part000.config. simpl. intros H. by simplify_eq.
Qed.

Lemma p_parse_eq evs (p1 p2 : Part000.parser D) d stderr :
  Part000.config p1 = Part000.config p2 ->
  Part000.parse evs p1 d stderr = Part000.parse evs p2 d stderr.
Proof.
  intros Hc. unfold Part000.parse.
  assert (Hf : Part000.flags_ p1 = Part000.flags_ p2)
    by (unfold Part000.config in Hc; by simplify_eq).
  rewrite Hf. f_equal. unfold argp_parse, group_parse.
  rewrite !Part000Facts.p_parseoptions_init.
  by rewrite (p_set_arguments_config p1 p2 [] Hc).
Qed.

Lemma p_parse_config evs (p : Part000.parser D) d stderr :
  Part000.config (Part000.parse evs p d stderr).1.2.1 = Part000.config p.
Proof.
  unfold Part000.parse.
  pose proof (Part000Facts.p_argp_parse_config (Part000.flags_ p) evs p d stderr) as Hc.
  destruct (argp_parse Part000.parseoptions_ (Part000.flags_ p) evs (p, d) stderr)
    as [[[ret|status] [p' d']] stderr']; simpl in *; [|done].
  repeat case_match; done.
Qed.

End Invocations.

(** C7, as stated, fails for cxx_argp_parser.h: were every piece of
    dispatcher state reset, the state left by a second invocation would be
    the one left by a first. After [-n 5 a b] twice [counter_] holds 2 for
    [-n], after once it holds 1. *)
Lemma counter_outlives_invocation :
  ~ (forall evs1 evs2 (p : ParserH.parser Z) d1 d stderr1 stderr,
       ParserH.counter_
         (ParserH.parse evs2 (ParserH.parse evs1 p d1 stderr1).1.2.1 d stderr).1.2.1
       = ParserH.counter_ (ParserH.parse evs2 p d stderr).1.2.1)
  /\ ParserH.counter_ (ParserH.parse good_line h_parser 0 []).1.2.1 !! 110 = Some 1
  /\ ParserH.counter_
       (ParserH.parse good_line
          (ParserH.parse good_line h_parser 0 []).1.2.1 0 []).1.2.1 !! 110
     = Some 2.
Proof.
  split; [|split; vm_compute; reflexivity].
  intros H. specialize (H good_line good_line h_parser 0 0 [] []).
  apply (f_equal (fun m => m !! 110)) in H. vm_compute in H. discriminate.
Qed.

(** C7, amended. What an invocation reports does not depend on an earlier
    invocation on the same instance: [parse] after an earlier [parse] ends
    the same way, with the same positional arguments, the same effect on
    the destinations and the same output as without it (in
    cxx_argp_parser.h as long as the key of the init event has not been
    registered as an option). In part_000 the parser is then in the very
    same state. In cxx_argp_parser.h [counter_] is the exception: the init
    event leaves it as it is, and every event of a registered key adds one
    to what it holds. *)
Theorem invocations_independent (D : Type) (evs0 evs : list (Z * string))
    (d0 d : D) (stderr0 stderr : list call) :
  (forall p : ParserH.parser D,
     ParserH.convert_ p !! ARGP_KEY_INIT = None ->
     let earlier := (ParserH.parse evs0 p d0 stderr0).1.2.1 in
     let r1 := ParserH.parse evs earlier d stderr in
     let r2 := ParserH.parse evs p d stderr in
     r1.1.1 = r2.1.1
     /\ ParserH.arguments r1.1.2.1 = ParserH.arguments r2.1.2.1
     /\ r1.1.2.2 = r2.1.2.2
     /\ r1.2 = r2.2)
  /\ (forall (p : ParserH.parser D) key arg,
     (ParserH.convert_ p !! ARGP_KEY_INIT = None ->
      ParserH.counter_ (ParserH.parseoptions_ ARGP_KEY_INIT arg (p, d)).1.2.1
      = ParserH.counter_ p)
     /\ (is_Some (ParserH.convert_ p !! key) ->
         ParserH.counter_ (ParserH.parseoptions_ key arg (p, d)).1.2.1 !! key
         = Some (cast t_size_t (default 0 (ParserH.counter_ p !! key) + 1))))
  /\ (forall p : Part000.parser D,
     let earlier := (Part000.parse evs0 p d0 stderr0).1.2.1 in
     Part000.parse evs earlier d stderr = Part000.parse evs p d stderr).
Proof.
  split; [|split].
  - intros p Hk earlier r1 r2.
    assert (Hc : ParserH.config earlier = ParserH.config p)
      by apply h_parse_config.
    assert (Hk' : ParserH.convert_ earlier !! ARGP_KEY_INIT = None).
    { unfold ParserH.config in Hc. injection Hc as _ Hcv _ _. by rewrite Hcv. }
    destruct (h_parse_sim evs earlier p d stderr Hc Hk') as (Ho & He & _ & Ha & Hd).
    done.
  - intros p key arg. split.
    + intros Hk. unfold ParserH.parseoptions_. by rewrite Hk.
    + intros [opt Hopt]. unfold ParserH.parseoptions_. rewrite Hopt.
      destruct (opt arg d) as [[] d']; simpl; apply lookup_insert_eq.
  - intros p earlier. apply p_parse_eq, p_parse_config.
Qed.

Lemma invocations_independent_witness :
  (ParserH.parse good_line (ParserH.parse bad_arity h_parser 5 []).1.2.1 0 []).1.1
  = (ParserH.parse good_line h_parser 0 []).1.1
  /\ ParserH.counter_ (ParserH.parseoptions_ 110 "5" (h_parser, 0)).1.2.1 !! 110
     = Some 1.
Proof.
  destruct (invocations_independent Z bad_arity good_line 5 0 [] [])
    as (H1 & H2 & _).
  split.
  - apply (H1 h_parser). reflexivity.
  - destruct (H2 h_parser 110 "5") as [_ H2']. rewrite H2'; [reflexivity|].
    eexists. reflexivity.
Defined.

(** ** Integer destinations *)

(** C2. The two integer converters on a text [arg], for any integer
    destination. In cxx_argp_parser.h the converter is [strtol] with base
    0 on the whole text, as the claim has it: a text is accepted only if,
    after the white space, the sign and the prefix, every character up to
    the end is a digit of the base in effect; a text with a character that
    is neither white space, a sign, [x], [X] nor a hexadecimal digit is
    refused, and so is a decimal numeral without leading zero followed by
    anything that does not start with a digit; a refusal leaves the
    destination as it was; [0x1F] is 31, [010] is 8, [12abc] is refused.
    In part_000 the converter is [std::stol], base 10, which reads a
    numeral at the start and does not look at what follows: a decimal
    numeral that fits a [long] is accepted and stored whatever follows it,
    so [12abc] stores 12, [0x1F] stores 0 and [010] stores 10, and [parse]
    accepts [-n 12abc a b]; only a text without a leading digit is refused
    (with [invalid_argument]); a refusal leaves the destination as it
    was. *)
Theorem integer_conversion (D : Type) (T : int_type) (x : ref D Z) (key : Z)
    (arg : string) (d : D) :
  let h := ParserH.make_check_function_integer T x in
  let p := Part000.make_check_function_integer T x key in
  ((h arg d).1 = false -> (h arg d).2 = d)
  /\ ((h arg d).1 = true ->
      all_chars (digit_of_base (base_in_effect arg)) (numeral_body arg) = true)
  /\ (all_chars numeric_char arg = false -> h arg d = (false, d))
  /\ (forall c0 ds c tail,
        arg = String c0 ds +:+ String c tail ->
        is_digit c0 = true -> code c0 <> 48 ->
        all_chars is_digit ds = true -> is_digit c = false ->
        h arg d = (false, d)
        /\ (decimal 0 (String c0 ds) <= LONG_MAX ->
            p arg d = (0, store x (cast T (decimal 0 (String c0 ds))) d, [])))
  /\ h "0x1F" d = (true, store x (cast T 31) d)
  /\ h "010" d = (true, store x (cast T 8) d)
  /\ h "12abc" d = (false, d)
  /\ ((p arg d).1.1 <> 0 -> (p arg d).1.2 = d)
  /\ (leading_digit arg = false ->
      p arg d
      = (-1, d, [argp_error "unable to interpret '%s' as a whole number, %s"
                            [FmtString arg; FmtWhat invalid_argument]]))
  /\ p "12abc" d = (0, store x (cast T 12) d, [])
  /\ p "0x1F" d = (0, store x (cast T 0) d, [])
  /\ p "010" d = (0, store x (cast T 10) d, [])
  /\ (let r := Part000.parse [(110, "12abc"); ev_arg "a"; ev_arg "b"] p_parser 7 [] in
      (r.1.1, r.1.2.2)) = (Returned true, 12)
  /\ (let r := ParserH.parse [(110, "12abc"); ev_arg "a"; ev_arg "b"]
                 (ParserH.add_flags ARGP_NO_EXIT h_parser) 7 [] in
      (r.1.1, r.1.2.2)) = (Returned false, 7).
Proof.
  intros h p. subst h p.
  unfold ParserH.make_check_function_integer, Part000.make_check_function_integer.
  repeat lazymatch goal with |- _ /\ _ => split end.
  - by destruct (_ && _).
  - destruct ((errno (strtol arg 0) =? 0)
              && (String.length (endptr (strtol arg 0)) =? 0)%nat) eqn:E; [|done].
    intros _. apply andb_true_iff in E as [_ E]. apply Nat.eqb_eq in E.
    apply StrtolFacts.strtol_full_body. by destruct (endptr (strtol arg 0)).
  - intros Hbad.
    destruct ((errno (strtol arg 0) =? 0)
              && (String.length (endptr (strtol arg 0)) =? 0)%nat) eqn:E; [|done].
    apply andb_true_iff in E as [_ E]. apply Nat.eqb_eq in E.
    assert (Hend : endptr (strtol arg 0) = EmptyString)
      by by destruct (endptr (strtol arg 0)).
    by rewrite (StrtolFacts.strtol_full_numeric arg Hend) in Hbad.
  - intros c0 ds c tail -> H0 Hnz Hds Hc. split.
    + rewrite (StrtolFacts.strtol_decimal_then 0) by (try done; by left).
      by destruct (LONG_MAX <? _).
    + intros Hfit. unfold stol.
      rewrite (StrtolFacts.strtol_decimal_then 10) by (try done; by right).
      destruct (Z.ltb_spec LONG_MAX (decimal 0 (String c0 ds))); [lia|]. simpl.
      assert (Hlen : (String.length tail
                      < String.length (ds +:+ String c tail))%nat).
      { clear. induction ds as [|c1 ds IH]; simpl; lia. }
      destruct (Nat.eqb_spec (String.length tail)
                  (String.length (ds +:+ String c tail))) as [E|]; [lia|done].
  - reflexivity.
  - reflexivity.
  - reflexivity.
  - destruct (stol arg); [|done]. simpl. by intros [].
  - intros Hnd. unfold stol. rewrite (StrtolFacts.strtol_no_digit arg Hnd). simpl.
    by rewrite Nat.eqb_refl.
  - reflexivity.
  - reflexivity.
  - reflexivity.
  - vm_compute. reflexivity.
  - vm_compute. reflexivity.
Qed.

Lemma integer_conversion_witness :
  ParserH.make_check_function_integer t_int (self_ref Z) "12abc" 7 = (false, 7)
  /\ Part000.make_check_function_integer t_int (self_ref Z) 110 "12abc" 7
     = (0, 12, [])
  /\ ParserH.make_check_function_integer t_int (self_ref Z) "1,5" 7 = (false, 7)
  /\ (Part000.make_check_function_integer t_int (self_ref Z) 110 "abc" 7).1.2 = 7
  /\ all_chars (digit_of_base 16) "1F" = true.
Proof.
  destruct (integer_conversion Z t_int (self_ref Z) 110 "12abc" 7)
    as (_ & _ & _ & H3 & _).
  destruct (H3 "1"%char "2" "a"%char "bc") as [H3a H3b];
    [reflexivity|reflexivity|discriminate|reflexivity|reflexivity|].
  destruct (integer_conversion Z t_int (self_ref Z) 110 "1,5" 7)
    as (_ & _ & H2 & _).
  destruct (integer_conversion Z t_int (self_ref Z) 110 "abc" 7)
    as (_ & _ & _ & _ & _ & _ & _ & H6 & _).
  destruct (integer_conversion Z t_int (self_ref Z) 110 "0x1F" 7)
    as (_ & H1 & _).
  split; [|split; [|split; [|split]]].
  - apply H3a.
  - apply H3b. vm_compute. discriminate.
  - apply H2. reflexivity.
  - apply H6. vm_compute. discriminate.
  - apply H1. reflexivity.
Defined.

(** * Further properties of the two headers *)

Import Views.

(** ** The option table and the registry *)

Lemma insert_before_end_snoc o l t :
  insert_before_end o (l ++ [t]) = l ++ [o; t].
Proof.
  induction l as [|x l IH]; simpl; [done|].
  rewrite IH. by destruct l.
Qed.

(** X1. The option table handed to the engine always ends with the zeroed
    terminator, preceded by the registered descriptors in the order of
    their registration: after any sequence of public operations on a new
    parser, and still after a [parse]. In both headers. *)
Theorem option_table_terminated (D : Type) (n : Z) :
  (forall (ms : list (ParserH.method D)) evs d stderr,
     let p := fold_left ParserH.invoke ms (ParserH.new_parser n) in
     ParserH.options_ p = h_registered ms ++ [option_end]
     /\ ParserH.options_ (ParserH.parse evs p d stderr).1.2.1
        = h_registered ms ++ [option_end])
  /\ (forall (ms : list (Part000.method D)) evs d stderr,
     let p := fold_left Part000.invoke ms (Part000.new_parser n) in
     Part000.options_ p = p_registered ms ++ [option_end]
     /\ Part000.options_ (Part000.parse evs p d stderr).1.2.1
        = p_registered ms ++ [option_end]).
Proof.
  split.
  - intros ms evs d stderr p.
    assert (H : ParserH.options_ p = h_registered ms ++ [option_end]).
    { subst p.
      assert (G : forall q reg, ParserH.options_ q = reg ++ [option_end] ->
        ParserH.options_ (fold_left ParserH.invoke ms q)
        = reg ++ h_registered ms ++ [option_end]).
      { induction ms as [|m ms IH]; intros q reg Hq; simpl; [done|].
        destruct m as [o c|f|f|]; simpl.
        - rewrite (IH _ (reg ++ [o])); [by rewrite <- app_assoc|].
          simpl. rewrite Hq, insert_before_end_snoc. by rewrite <- app_assoc.
        - by apply IH.
        - by apply IH.
        - by apply IH. }
      by apply (G _ []). }
    split; [done|].
    pose proof (h_parse_config evs p d stderr) as Hc.
    unfold ParserH.config in Hc. injection Hc as Ho _ _ _. by rewrite Ho.
  - intros ms evs d stderr p.
    assert (H : Part000.options_ p = p_registered ms ++ [option_end]).
    { subst p.
      assert (G : forall q reg, Part000.options_ q = reg ++ [option_end] ->
        Part000.options_ (fold_left Part000.invoke ms q)
        = reg ++ p_registered ms ++ [option_end]).
      { induction ms as [|m ms IH]; intros q reg Hq; simpl; [done|].
        destruct m as [o c|o c|f|f|b|]; simpl.
        - rewrite (IH _ (reg ++ [o])); [by rewrite <- app_assoc|].
          simpl. rewrite Hq, insert_before_end_snoc. by rewrite <- app_assoc.
        - rewrite (IH _ (reg ++ [o])); [by rewrite <- app_assoc|].
          simpl. rewrite Hq, insert_before_end_snoc. by rewrite <- app_assoc.
        - by apply IH.
        - by apply IH.
        - by apply IH.
        - by apply IH. }
      by apply (G _ []). }
    split; [done|].
    pose proof (p_parse_config evs p d stderr) as Hc.
    unfold Part000.config in Hc. injection Hc as Ho _ _ _ _. by rewrite Ho.
Qed.

Lemma map_insert_old {V} (k k' : Z) (v : V) (m : gmap Z V) :
  is_Some (m !! k') -> map_insert k v m !! k' = m !! k'.
Proof.
  intros [v' Hv]. unfold map_insert.
  destruct (m !! k) as [w|] eqn:E; [done|].
  rewrite lookup_insert_ne; [done|]. intros ->. congruence.
Qed.

Lemma map_insert_dom {V} (k k' : Z) (v : V) (m : gmap Z V) :
  is_Some (map_insert k v m !! k') <-> k' = k \/ is_Some (m !! k').
Proof.
  unfold map_insert. destruct (m !! k) as [w|] eqn:E.
  - split; [by right|]. intros [->|H]; [by rewrite E|done].
  - destruct (decide (k = k')) as [->|Hne].
    + rewrite lookup_insert_eq. split; [by left|by eexists].
    + rewrite lookup_insert_ne by done. split; [by right|].
      intros [->|H]; [done|done].
Qed.

(** X2. A registration is permanent: the converter found under a key is
    never replaced or removed, neither by any later public operation
    (registrations under the same or another key, flag changes) nor by a
    [parse]. In both headers. *)
Theorem registration_permanent (D : Type) (k : Z) :
  (forall (p : ParserH.parser D) (ms : list (ParserH.method D)) evs d stderr,
     is_Some (ParserH.convert_ p !! k) ->
     let q := fold_left ParserH.invoke ms p in
     ParserH.convert_ q !! k = ParserH.convert_ p !! k
     /\ ParserH.convert_ (ParserH.parse evs q d stderr).1.2.1 !! k
        = ParserH.convert_ p !! k)
  /\ (forall (p : Part000.parser D) (ms : list (Part000.method D)) evs d stderr,
     is_Some (Part000.convert_ p !! k) ->
     let q := fold_left Part000.invoke ms p in
     Part000.convert_ q !! k = Part000.convert_ p !! k
     /\ Part000.convert_ (Part000.parse evs q d stderr).1.2.1 !! k
        = Part000.convert_ p !! k).
Proof.
  split.
  - intros p ms evs d stderr Hk q.
    assert (H : ParserH.convert_ q !! k = ParserH.convert_ p !! k).
    { subst q. revert p Hk. induction ms as [|m ms IH]; intros p Hk; simpl; [done|].
      assert (Hm : ParserH.convert_ (ParserH.invoke p m) !! k
                   = ParserH.convert_ p !! k).
      { destruct m; simpl; try done. by apply map_insert_old. }
      rewrite IH; [done|]. by rewrite Hm. }
    split; [done|].
    pose proof (h_parse_config evs q d stderr) as Hc.
    unfold ParserH.config in Hc. injection Hc as _ Hcv _ _. by rewrite Hcv.
  - intros p ms evs d stderr Hk q.
    assert (H : Part000.convert_ q !! k = Part000.convert_ p !! k).
    { subst q. revert p Hk. induction ms as [|m ms IH]; intros p Hk; simpl; [done|].
      assert (Hm : Part000.convert_ (Part000.invoke p m) !! k
                   = Part000.convert_ p !! k).
      { destruct m; simpl; try done; by apply map_insert_old. }
      rewrite IH; [done|]. by rewrite Hm. }
    split; [done|].
    pose proof (p_parse_config evs q d stderr) as Hc.
    unfold Part000.config in Hc. injection Hc as _ Hcv _ _ _. by rewrite Hcv.
Qed.

Lemma registration_permanent_witness :
  ParserH.convert_
    (ParserH.parse good_line
       (ParserH.add_flags ARGP_NO_EXIT (ParserH.add_option opt_n (h_writes 2) h_parser))
       0 []).1.2.1 !! 110
  = ParserH.convert_ h_parser !! 110.
Proof.
  destruct (registration_permanent Z 110) as [H _].
  destruct (H h_parser [ParserH.call_add_option opt_n (h_writes 2);
                        ParserH.call_add_flags ARGP_NO_EXIT] good_line 0 [])
    as [_ H2]; [eexists; reflexivity|].
  exact H2.
Defined.

Lemma h_parseoptions_same_keys {D} key arg (st : ParserH.parser D * D) :
  same_keys st.1 -> same_keys (ParserH.parseoptions_ key arg st).1.2.1.
Proof.
  destruct st as [p d]. unfold same_keys, ParserH.parseoptions_. simpl. intros H.
  destruct (ParserH.convert_ p !! key) as [opt|] eqn:E.
  - assert (Hk : forall k, is_Some (<[key := cast t_size_t
        (default 0 (ParserH.counter_ p !! key) + 1)]> (ParserH.counter_ p) !! k)
        <-> is_Some (ParserH.counter_ p !! k)).
    { intros k. destruct (decide (key = k)) as [->|Hne].
      - rewrite lookup_insert_eq. split; [|by eexists].
        intros _. apply H. by rewrite E.
      - by rewrite lookup_insert_ne. }
    destruct (opt arg d) as [[] d']; simpl; intros k; by rewrite Hk.
  - repeat case_match; done.
Qed.

(** X3. In cxx_argp_parser.h the counters and the registry always have the
    same keys: after any sequence of public operations on a new parser,
    and still after a [parse] of any command line. *)
Theorem counters_follow_registry (D : Type) (n : Z)
    (ms : list (ParserH.method D)) (evs : list (Z * string)) (d : D)
    (stderr : list call) (k : Z) :
  let p := fold_left ParserH.invoke ms (ParserH.new_parser n) in
  (is_Some (ParserH.convert_ p !! k) <-> is_Some (ParserH.counter_ p !! k))
  /\ (is_Some (ParserH.convert_ (ParserH.parse evs p d stderr).1.2.1 !! k)
      <-> is_Some (ParserH.counter_ (ParserH.parse evs p d stderr).1.2.1 !! k)).
Proof.
  intros p.
  assert (Hp : same_keys p).
  { subst p.
    assert (G : forall q, same_keys q -> same_keys (fold_left ParserH.invoke ms q)).
    { induction ms as [|m ms IH]; intros q Hq; simpl; [done|].
      apply IH. destruct m; simpl; try done.
      intros k'. simpl. rewrite !map_insert_dom. by rewrite (Hq k'). }
    apply G. intros k'. simpl. by rewrite !lookup_empty. }
  split; [apply Hp|].
  assert (Hr : same_keys (ParserH.parse evs p d stderr).1.2.1).
  { unfold ParserH.parse.
    pose proof (ArgpFacts.argp_parse_keeps (fun st => same_keys st.1)
      ParserH.parseoptions_ (fun key arg st => h_parseoptions_same_keys key arg st)
      (ParserH.flags_ p) evs (p, d) stderr Hp) as Hk.
    destruct (argp_parse ParserH.parseoptions_ (ParserH.flags_ p) evs (p, d) stderr)
      as [[[ret|status] [p' d']] stderr']; simpl in *; [|done].
    repeat case_match; done. }
  apply Hr.
Qed.

(** ** The positional arguments and the destinations after a run *)

(** X4. The positional arguments come out in the order of the command
    line, whatever options are interleaved with them: after [parse],
    [arguments()] is an initial part of the texts of the positional events,
    and it is all of them when [parse] returns [true] without
    [ARGP_NO_ERRS]. In both headers (in cxx_argp_parser.h as long as the
    keys of the init and argument events are not registered as options). *)
Theorem positional_arguments_in_order (D : Type) (evs : list (Z * string))
    (d : D) (stderr : list call) :
  Forall (fun ev => ev.1 <> ARGP_KEY_INIT) evs ->
  (forall p : ParserH.parser D,
     ParserH.convert_ p !! ARGP_KEY_INIT = None ->
     ParserH.convert_ p !! ARGP_KEY_ARG = None ->
     let r := ParserH.parse evs p d stderr in
     (exists rest, arg_texts evs = ParserH.arguments r.1.2.1 ++ rest)
     /\ (has (ParserH.flags_ p) ARGP_NO_ERRS = false ->
         r.1.1 = Returned true ->
         ParserH.arguments r.1.2.1 = arg_texts evs))
  /\ (forall p : Part000.parser D,
     let r := Part000.parse evs p d stderr in
     (exists rest, arg_texts evs = Part000.arguments r.1.2.1 ++ rest)
     /\ (has (Part000.flags_ p) ARGP_NO_ERRS = false ->
         r.1.1 = Returned true ->
         Part000.arguments r.1.2.1 = arg_texts evs)).
Proof.
  intros Hev. split.
  - intros p Hi Ha r. subst r. unfold ParserH.parse, ParserH.arguments.
    pose proof (argp_parse_args ParserH.parseoptions_
      (fun st : ParserH.parser D * D => ParserH.arguments_ st.1)
      (fun st => ParserH.convert_ st.1 = ParserH.convert_ p)) as Hrun.
    specialize (Hrun (fun key arg st H =>
      proj1 (h_cb_args p key arg st Hi Ha H))).
    specialize (Hrun (fun arg st H =>
      proj2 (h_cb_args p ARGP_KEY_INIT arg st Hi Ha H))).
    specialize (Hrun (fun arg st H =>
      proj2 (h_cb_args p ARGP_KEY_ARG arg st Hi Ha H))).
    assert (Hother : forall key arg (st : ParserH.parser D * D),
      ParserH.convert_ st.1 = ParserH.convert_ p ->
      key <> ARGP_KEY_INIT -> key <> ARGP_KEY_ARG ->
      ParserH.arguments_ (ParserH.parseoptions_ key arg st).1.2.1
      = ParserH.arguments_ st.1).
    { intros key arg st H H1 H2.
      rewrite (proj2 (h_cb_args p key arg st Hi Ha H)).
      by rewrite (proj2 (Z.eqb_neq _ _) H1), (proj2 (Z.eqb_neq _ _) H2). }
    specialize (Hrun Hother (ParserH.flags_ p) evs (p, d) stderr eq_refl Hev).
    pose proof (ParserHFacts.h_argp_parse_config (ParserH.flags_ p) evs p d stderr) as Hc.
    destruct (argp_parse ParserH.parseoptions_ (ParserH.flags_ p) evs (p, d) stderr)
      as [[[ret|status] [p' d']] stderr']; simpl in *.
    + destruct Hrun as [Hpre Hall].
      unfold ParserH.config in Hc. injection Hc as _ _ _ Hf. rewrite Hf.
      destruct (has (ParserH.flags_ p) ARGP_NO_ERRS); simpl; [by split|].
      destruct (Z.eqb_spec ret 0) as [->|Hne]; simpl; [|by split].
      destruct (negb _ && negb _); simpl; split; try done; intros; by apply Hall.
    + destruct Hrun as [Hpre _]. by split.
  - intros p r. subst r. unfold Part000.parse, Part000.arguments.
    pose proof (argp_parse_args Part000.parseoptions_
      (fun st : Part000.parser D * D => Part000.arguments_ st.1)
      (fun _ => True)) as Hrun.
    specialize (Hrun (fun _ _ _ _ => Logic.I)).
    specialize (Hrun (fun arg st _ => p_cb_args ARGP_KEY_INIT arg st)).
    specialize (Hrun (fun arg st _ => p_cb_args ARGP_KEY_ARG arg st)).
    assert (Hother : forall key arg (st : Part000.parser D * D),
      True -> key <> ARGP_KEY_INIT -> key <> ARGP_KEY_ARG ->
      Part000.arguments_ (Part000.parseoptions_ key arg st).1.2.1
      = Part000.arguments_ st.1).
    { intros key arg st _ H1 H2. rewrite p_cb_args.
      by rewrite (proj2 (Z.eqb_neq _ _) H1), (proj2 (Z.eqb_neq _ _) H2). }
    specialize (Hrun Hother (Part000.flags_ p) evs (p, d) stderr Logic.I Hev).
    pose proof (Part000Facts.p_argp_parse_config (Part000.flags_ p) evs p d stderr) as Hc.
    destruct (argp_parse Part000.parseoptions_ (Part000.flags_ p) evs (p, d) stderr)
      as [[[ret|status] [p' d']] stderr']; simpl in *.
    + destruct Hrun as [Hpre Hall].
      unfold Part000.config in Hc. injection Hc as _ _ _ Hf _. rewrite Hf.
      destruct (has (Part000.flags_ p) ARGP_NO_ERRS); simpl; [by split|].
      destruct (Z.eqb_spec ret 0) as [->|Hne]; simpl; [|by split].
      destruct (negb _ && negb _); simpl; split; try done; intros; by apply Hall.
    + destruct Hrun as [Hpre _]. by split.
Qed.

Lemma positional_arguments_in_order_witness :
  ParserH.arguments (ParserH.parse [ev_arg "a"; (110, "5"); ev_arg "b"] h_parser 0 []).1.2.1
  = ["a"; "b"]
  /\ Part000.arguments
       (Part000.parse [ev_arg "a"; (110, "5"); ev_arg "b"] p_parser 0 []).1.2.1
     = ["a"; "b"].
Proof.
  destruct (positional_arguments_in_order Z [ev_arg "a"; (110, "5"); ev_arg "b"] 0 [])
    as [H1 H2].
  { repeat constructor; discriminate. }
  split.
  - destruct (H1 h_parser) as [_ H]; [reflexivity|reflexivity|].
    apply H; [reflexivity|vm_compute; reflexivity].
  - destruct (H2 p_parser) as [_ H].
    apply H; [reflexivity|vm_compute; reflexivity].
Defined.

(** X5. The dispatcher itself never touches a destination: a command line
    none of whose events carries a registered key leaves all destinations
    as they were, whatever the outcome of [parse] (no option of the
    registry using a key of the engine). In both headers. *)
Theorem unregistered_events_leave_destinations (D : Type)
    (evs : list (Z * string)) (d : D) (stderr : list call) :
  (forall p : ParserH.parser D,
     no_reserved_key (ParserH.convert_ p) = true ->
     Forall (fun ev => ParserH.convert_ p !! ev.1 = None) evs ->
     (ParserH.parse evs p d stderr).1.2.2 = d)
  /\ (forall p : Part000.parser D,
     no_reserved_key (Part000.convert_ p) = true ->
     Forall (fun ev => Part000.convert_ p !! ev.1 = None) evs ->
     (Part000.parse evs p d stderr).1.2.2 = d).
Proof.
  split.
  - intros p Hres Hev. unfold ParserH.parse.
    pose proof (argp_parse_keeps_on ParserH.parseoptions_
      (fun st => ParserH.convert_ st.1 = ParserH.convert_ p /\ st.2 = d)
      (fun key => ParserH.convert_ p !! key = None)
      (ParserH.flags_ p) evs (p, d) stderr) as Hrun.
    destruct Hrun as [_ Hd]; try done.
    { intros key arg [q e] Hk [Hc He]. simpl in *. subst e.
      pose proof (ParserHFacts.h_parseoptions_config key arg (q, d)) as Hcfg.
      unfold ParserH.config in Hcfg. injection Hcfg as _ Hcv _ _. simpl in Hcv.
      split; [by rewrite Hcv|].
      unfold ParserH.parseoptions_. rewrite Hc, Hk. repeat case_match; done. }
    { rewrite Forall_forall. intros k Hk.
      apply no_reserved_key_lookup; [done|by apply list_elem_of_In]. }
    destruct (argp_parse ParserH.parseoptions_ (ParserH.flags_ p) evs (p, d) stderr)
      as [[[ret|status] [p' d']] stderr']; simpl in *; [|done].
    repeat case_match; done.
  - intros p Hres Hev. unfold Part000.parse.
    pose proof (argp_parse_keeps_on Part000.parseoptions_
      (fun st => Part000.convert_ st.1 = Part000.convert_ p /\ st.2 = d)
      (fun key => Part000.convert_ p !! key = None)
      (Part000.flags_ p) evs (p, d) stderr) as Hrun.
    destruct Hrun as [_ Hd]; try done.
    { intros key arg [q e] Hk [Hc He]. simpl in *. subst e.
      pose proof (Part000Facts.p_parseoptions_config key arg (q, d)) as Hcfg.
      unfold Part000.config in Hcfg. injection Hcfg as _ Hcv _ _ _. simpl in Hcv.
      split; [by rewrite Hcv|].
      unfold Part000.parseoptions_. rewrite Hc, Hk. repeat case_match; done. }
    { rewrite Forall_forall. intros k Hk.
      apply no_reserved_key_lookup; [done|by apply list_elem_of_In]. }
    destruct (argp_parse Part000.parseoptions_ (Part000.flags_ p) evs (p, d) stderr)
      as [[[ret|status] [p' d']] stderr']; simpl in *; [|done].
    repeat case_match; done.
Qed.

Lemma unregistered_events_leave_destinations_witness :
  (ParserH.parse [ev_arg "a"; (120, "9")] h_parser 7 []).1.2.2 = 7
  /\ (Part000.parse [ev_arg "a"; (120, "9")] p_parser 7 []).1.2.2 = 7.
Proof.
  destruct (unregistered_events_leave_destinations Z [ev_arg "a"; (120, "9")] 7 [])
    as [H1 H2].
  split.
  - apply H1; [vm_compute; reflexivity|repeat constructor].
  - apply H2; [vm_compute; reflexivity|repeat constructor].
Defined.

(** ** Flags *)

Lemma has_lor_any p f b : has (Z.lor p f) b = has p b || has f b.
Proof.
  unfold has. rewrite Z.land_lor_distr_l.
  destruct (Z.eqb_spec (Z.land p b) 0) as [E1|N1],
           (Z.eqb_spec (Z.land f b) 0) as [E2|N2]; simpl.
  - by rewrite E1, E2.
  - destruct (Z.eqb_spec (Z.lor (Z.land p b) (Z.land f b)) 0) as [E|]; [|done].
    apply Z.lor_eq_0_iff in E. tauto.
  - destruct (Z.eqb_spec (Z.lor (Z.land p b) (Z.land f b)) 0) as [E|]; [|done].
    apply Z.lor_eq_0_iff in E. tauto.
  - destruct (Z.eqb_spec (Z.lor (Z.land p b) (Z.land f b)) 0) as [E|]; [|done].
    apply Z.lor_eq_0_iff in E. tauto.
Qed.

Lemma land_not_unsigned p f b :
  0 <= b < 2 ^ 32 ->
  Z.land (Z.land p (cast t_unsigned (Z.lnot f))) b
  = Z.land p (Z.land (Z.lnot f) b).
Proof.
  intros Hb. unfold cast. cbn [is_signed bits t_unsigned].
  rewrite <- Z.land_assoc. f_equal.
  apply Z.bits_inj'. intros i Hi. rewrite !Z.land_spec.
  destruct (Z.lt_ge_cases i 32) as [Hlt|Hge].
  - by rewrite Z.mod_pow2_bits_low by lia.
  - assert (Hbi : Z.testbit b i = false).
    { destruct (Z.eq_dec b 0) as [->|Hnz]; [apply Z.bits_0|].
      apply Z.bits_above_log2; [lia|].
      assert (Z.log2 b < 32) by (apply Z.log2_lt_pow2; lia). lia. }
    by rewrite Hbi, !andb_false_r.
Qed.

Lemma has_remove_other p f b :
  0 <= b < 2 ^ 32 -> Z.land f b = 0 ->
  has (Z.land p (cast t_unsigned (Z.lnot f))) b = has p b.
Proof.
  intros Hb Hd. unfold has. rewrite land_not_unsigned by done.
  assert (H : Z.land (Z.lnot f) b = b).
  { apply Z.bits_inj'. intros i Hi. rewrite Z.land_spec, Z.lnot_spec by done.
    assert (Hfi : Z.testbit (Z.land f b) i = false) by (rewrite Hd; apply Z.bits_0).
    rewrite Z.land_spec in Hfi.
    destruct (Z.testbit f i), (Z.testbit b i); simpl in *; congruence. }
  by rewrite H.
Qed.

Lemma has_remove_same p f b :
  0 <= b < 2 ^ 32 -> Z.land f b = b ->
  has (Z.land p (cast t_unsigned (Z.lnot f))) b = false.
Proof.
  intros Hb Hd. unfold has. rewrite land_not_unsigned by done.
  assert (H : Z.land (Z.lnot f) b = 0).
  { apply Z.bits_inj'. intros i Hi. rewrite Z.land_spec, Z.lnot_spec, Z.bits_0 by done.
    assert (Hfi : Z.testbit (Z.land f b) i = Z.testbit b i) by by rewrite Hd.
    rewrite Z.land_spec in Hfi.
    destruct (Z.testbit f i), (Z.testbit b i); simpl in *; congruence. }
  by rewrite H, Z.land_0_r.
Qed.

(** X6. [add_flags] sets the bits it is given and [remove_flags] clears
    them, each leaving every other flag as it was: a flag is on after
    [add_flags(f)] iff it was on or is in [f]; after [remove_flags(f)] a
    flag outside [f] is as before and a flag inside [f] is off, so that
    [remove_flags(f)] undoes [add_flags(f)]. In both headers. *)
Theorem flags_set_and_cleared (D : Type) (f b : Z) :
  (forall p : ParserH.parser D,
     has (ParserH.flags_ (ParserH.add_flags f p)) b
     = has (ParserH.flags_ p) b || has f b)
  /\ (forall p : Part000.parser D,
     has (Part000.flags_ (Part000.add_flags f p)) b
     = has (Part000.flags_ p) b || has f b)
  /\ (0 <= b < 2 ^ 32 ->
      (forall p : ParserH.parser D,
         (Z.land f b = 0 ->
          has (ParserH.flags_ (ParserH.remove_flags f p)) b = has (ParserH.flags_ p) b)
         /\ (Z.land f b = b ->
             has (ParserH.flags_ (ParserH.remove_flags f p)) b = false
             /\ has (ParserH.flags_
                       (ParserH.remove_flags f (ParserH.add_flags f p))) b = false))
      /\ (forall p : Part000.parser D,
         (Z.land f b = 0 ->
          has (Part000.flags_ (Part000.remove_flags f p)) b = has (Part000.flags_ p) b)
         /\ (Z.land f b = b ->
             has (Part000.flags_ (Part000.remove_flags f p)) b = false
             /\ has (Part000.flags_
                       (Part000.remove_flags f (Part000.add_flags f p))) b = false))).
Proof.
  split; [|split].
  - intros p. apply has_lor_any.
  - intros p. apply has_lor_any.
  - intros Hb. split; intros p; simpl; (split; [by apply has_remove_other|]);
      intros H; split; by apply has_remove_same.
Qed.

Lemma flags_set_and_cleared_witness :
  has (ParserH.flags_
         (ParserH.remove_flags ARGP_NO_ERRS
            (ParserH.add_flags (Z.lor ARGP_NO_ERRS ARGP_NO_EXIT) h_parser)))
      ARGP_NO_ERRS = false
  /\ has (Part000.flags_
            (Part000.remove_flags ARGP_NO_ERRS
               (Part000.add_flags (Z.lor ARGP_NO_ERRS ARGP_NO_EXIT) p_parser)))
         ARGP_NO_EXIT = true.
Proof.
  destruct (flags_set_and_cleared Z ARGP_NO_ERRS ARGP_NO_ERRS) as (_ & _ & H).
  destruct (H ltac:(unfold ARGP_NO_ERRS; lia)) as [H1 _].
  destruct (flags_set_and_cleared Z ARGP_NO_ERRS ARGP_NO_EXIT) as (_ & _ & H').
  destruct (H' ltac:(unfold ARGP_NO_EXIT; lia)) as [_ H2].
  split.
  - destruct (H1 (ParserH.add_flags (Z.lor ARGP_NO_ERRS ARGP_NO_EXIT) h_parser))
      as [_ H1']. apply H1'. reflexivity.
  - destruct (H2 (Part000.add_flags (Z.lor ARGP_NO_ERRS ARGP_NO_EXIT) p_parser))
      as [H2' _]. rewrite H2' by reflexivity. reflexivity.
Defined.

(** ** Splitting at commas *)

Lemma pieces_empty : pieces EmptyString = [].
Proof. reflexivity. Qed.

Lemma getlines_S fuel ss delim :
  getlines (Datatypes.S fuel) ss delim
  = match getline ss delim with
    | None => []
    | Some (v, ss') => v :: getlines fuel ss' delim
    end.
Proof. reflexivity. Qed.

Lemma getline_fresh s :
  getline (StringStream s false) ","%char
  = match read_until ","%char s with
    | (v, Some rest) => Some (v, StringStream rest false)
    | (v, None) =>
        match v with
        | EmptyString => None
        | _ => Some (v, StringStream EmptyString true)
        end
    end.
Proof. reflexivity. Qed.

Lemma getlines_eof fuel s delim : getlines fuel (StringStream s true) delim = [].
Proof. by destruct fuel. Qed.

(** The successive values of the loop, character by character. *)
Lemma pieces_String c s :
  pieces (String c s)
  = if Ascii.eqb c ","%char then EmptyString :: pieces s
    else match pieces s with
         | [] => [String c EmptyString]
         | v :: vs => String c v :: vs
         end.
Proof.
  unfold pieces. change (String.length (String c s)) with (Datatypes.S (String.length s)).
  rewrite (getlines_S (Datatypes.S (String.length s))), getline_fresh.
  cbn [read_until]. destruct (Ascii.eqb c ","%char) eqn:Ec.
  { reflexivity. }
  destruct s as [|c' s'].
  { reflexivity. }
  change (String.length (String c' s')) with (Datatypes.S (String.length s')).
  rewrite (getlines_S (Datatypes.S (String.length s'))), getline_fresh.
  destruct (read_until ","%char (String c' s')) as [v [rest|]] eqn:E.
  - f_equal. apply LibcFacts.getlines_fuel; simpl; [|lia].
    apply LibcFacts.read_until_rest in E. simpl in E. lia.
  - rewrite getlines_eof. destruct v as [|cv v'].
    + apply LibcFacts.read_until_none in E. discriminate.
    + by rewrite getlines_eof.
Qed.

Lemma pieces_not_empty c s : pieces (String c s) <> [].
Proof.
  rewrite pieces_String. destruct (Ascii.eqb c ","%char); [done|].
  by destruct (pieces s).
Qed.

Lemma pieces_no_comma s : Forall (fun v => all_chars not_comma v = true) (pieces s).
Proof.
  induction s as [|c s IH]; [constructor|].
  rewrite pieces_String. destruct (Ascii.eqb c ","%char) eqn:Ec.
  - by constructor.
  - destruct (pieces s) as [|v vs].
    + repeat constructor. simpl. unfold not_comma. by rewrite Ec.
    + inversion IH as [|? ? Hv Hvs]; subst. constructor; [|done].
      simpl. unfold not_comma at 1. by rewrite Ec.
Qed.

Lemma join_cons_String c v vs : join (String c v :: vs) = String c (join (v :: vs)).
Proof. by destruct vs. Qed.

Lemma pieces_join s :
  join (pieces s) = s \/ join (pieces s) +:+ String ","%char EmptyString = s.
Proof.
  induction s as [|c s IH]; [by left|].
  rewrite pieces_String. destruct (Ascii.eqb_spec c ","%char) as [->|Hc].
  - destruct (pieces s) as [|v vs] eqn:Ep.
    + destruct s as [|c' s']; [by right|]. by destruct (pieces_not_empty c' s').
    + change (join (EmptyString :: v :: vs)) with (String ","%char (join (v :: vs))).
      destruct IH as [IH|IH]; [left|right]; simpl; by rewrite <- IH.
  - destruct (pieces s) as [|v vs] eqn:Ep.
    + destruct s as [|c' s']; [by left|]. by destruct (pieces_not_empty c' s').
    + rewrite join_cons_String.
      destruct IH as [IH|IH]; [left|right]; simpl; by rewrite <- IH.
Qed.

Lemma pieces_one v :
  all_chars not_comma v = true -> v <> EmptyString -> pieces v = [v].
Proof.
  induction v as [|c v IH]; [done|]. cbn [all_chars]. intros H _.
  apply andb_true_iff in H as [Hc Hv]. rewrite pieces_String.
  unfold not_comma in Hc. apply negb_true_iff in Hc. rewrite Hc.
  destruct v as [|c' v']; [done|]. by rewrite IH.
Qed.

Lemma pieces_then v s :
  all_chars not_comma v = true ->
  pieces (v +:+ String ","%char s) = v :: pieces s.
Proof.
  induction v as [|c v IH]; cbn [all_chars]; intros H.
  - change (EmptyString +:+ String ","%char s) with (String ","%char s).
    by rewrite pieces_String.
  - apply andb_true_iff in H as [Hc Hv].
    change (String c v +:+ String ","%char s)
      with (String c (v +:+ String ","%char s)).
    rewrite pieces_String.
    unfold not_comma in Hc. apply negb_true_iff in Hc. rewrite Hc.
    by rewrite IH.
Qed.

Lemma pieces_of_join l :
  Forall (fun v => all_chars not_comma v = true) l ->
  last l <> Some EmptyString ->
  pieces (join l) = l.
Proof.
  induction l as [|v l IH]; [done|]. intros Hl Hlast.
  inversion Hl as [|? ? Hv Hl']; subst.
  destruct l as [|w l'].
  - simpl. apply pieces_one; [done|]. intros ->. by apply Hlast.
  - change (join (v :: w :: l')) with (v +:+ String ","%char (join (w :: l'))).
    rewrite pieces_then by done. f_equal. apply IH; [done|].
    intros H. apply Hlast. by rewrite last_cons, H.
Qed.

(** X7. What the vector converters split a text into: no piece contains a
    comma; put together again with commas the pieces give the text, up to
    one comma at its very end, which is dropped (so the empty text has no
    piece at all and [a,] has one); and the converter for vectors of
    strings of cxx_argp_parser.h, which always accepts, appends exactly
    these pieces. *)
Theorem comma_pieces (D : Type) (x : ref D (list string)) (arg : string) (d : D) :
  Forall (fun v => all_chars not_comma v = true) (pieces arg)
  /\ (join (pieces arg) = arg
      \/ join (pieces arg) +:+ String ","%char EmptyString = arg)
  /\ (pieces arg = [] <-> arg = EmptyString)
  /\ ParserH.make_check_function_vector_string x arg d
     = (true, ParserH.push_back_all x (pieces arg) d)
  /\ load x (ParserH.make_check_function_vector_string x arg d).2
     = load x d ++ pieces arg.
Proof.
  split; [apply pieces_no_comma|]. split; [apply pieces_join|].
  split; [|split; [done|apply h_push_back_all_load]].
  split.
  - destruct arg as [|c s]; [done|]. intros H. by destruct (pieces_not_empty c s).
  - by intros ->.
Qed.

(** X8. Writing a sequence as comma separated text and converting it
    gives the sequence back: for strings without commas, the last of them
    not empty, the converter for vectors of strings of cxx_argp_parser.h
    appends exactly these strings, in order. *)
Theorem string_sequence_round_trip (D : Type) (x : ref D (list string))
    (l : list string) (d : D) :
  Forall (fun v => all_chars not_comma v = true) l ->
  last l <> Some EmptyString ->
  ParserH.make_check_function_vector_string x (join l) d
  = (true, ParserH.push_back_all x l d)
  /\ load x (ParserH.make_check_function_vector_string x (join l) d).2
     = load x d ++ l.
Proof.
  intros Hl Hlast. unfold ParserH.make_check_function_vector_string.
  rewrite pieces_of_join by done. split; [done|]. apply h_push_back_all_load.
Qed.

Lemma string_sequence_round_trip_witness :
  ParserH.make_check_function_vector_string (self_ref (list string))
    "a,,b c" ["z"]
  = (true, ["z"; "a"; ""; "b c"]).
Proof.
  destruct (string_sequence_round_trip (list string) (self_ref (list string))
              ["a"; ""; "b c"] ["z"]) as [H _].
  - repeat constructor.
  - discriminate.
  - exact H.
Defined.

(** ** Lifecycle keys and the registry *)

(** X9. The two headers order the registry lookup and the lifecycle switch
    differently. In part_000 the switch comes first: a converter
    registered under the key of the init, argument, end or error event is
    never run, the event is answered with 0 and leaves the destinations
    alone. In cxx_argp_parser.h the lookup comes first: such a converter
    is run in place of the lifecycle case, so that the positional
    arguments are neither cleared nor extended and no arity check is
    made. *)
Theorem lifecycle_keys_and_registry (D : Type) (key : Z) (arg : string) (d : D) :
  key = ARGP_KEY_INIT \/ key = ARGP_KEY_ARG \/ key = ARGP_KEY_END
  \/ key = ARGP_KEY_ERROR ->
  (forall p : Part000.parser D,
     (Part000.parseoptions_ key arg (p, d)).1.1 = 0
     /\ (Part000.parseoptions_ key arg (p, d)).1.2.2 = d)
  /\ (forall (p : ParserH.parser D) (opt : ParserH.check_function D),
     ParserH.convert_ p !! key = Some opt ->
     (ParserH.parseoptions_ key arg (p, d)).1.1 = (if (opt arg d).1 then 0 else -1)
     /\ (ParserH.parseoptions_ key arg (p, d)).1.2.2 = (opt arg d).2
     /\ ParserH.arguments_ (ParserH.parseoptions_ key arg (p, d)).1.2.1
        = ParserH.arguments_ p
     /\ (forall c : call, In c ((ParserH.parseoptions_ key arg (p, d)).2) ->
         c <> ParserH.too_few /\ c <> ParserH.too_many)).
Proof.
  intros Hkey. split.
  - intros p. unfold Part000.parseoptions_.
    destruct Hkey as [-> | [-> | [-> | ->]]]; simpl; [done|done| |done].
    repeat case_match; done.
  - intros p opt Hk. unfold ParserH.parseoptions_. rewrite Hk.
    destruct (opt arg d) as [[] d']; simpl; repeat split; try done;
      intros Heq; destruct H as [<-|[]]; discriminate.
Qed.

Lemma lifecycle_keys_and_registry_witness :
  ParserH.arguments_
    (ParserH.parseoptions_ ARGP_KEY_ARG "a"
       (ParserH.add_option (ArgpOption None ARGP_KEY_ARG None 0 None 0)
          (h_writes 1) (ParserH.new_parser 1), 0)).1.2.1 = []
  /\ (Part000.parseoptions_ ARGP_KEY_ARG "a"
        (Part000.add_option (ArgpOption None ARGP_KEY_ARG None 0 None 0)
           (p_writes 1) (Part000.new_parser 1), 0)).1.2.2 = 0.
Proof.
  destruct (lifecycle_keys_and_registry Z ARGP_KEY_ARG "a" 0) as [H1 H2];
    [tauto|].
  split.
  - destruct (H2 (ParserH.add_option (ArgpOption None ARGP_KEY_ARG None 0 None 0)
                    (h_writes 1) (ParserH.new_parser 1)) (h_writes 1) eq_refl)
      as (_ & _ & H & _).
    rewrite H. reflexivity.
  - apply H1.
Defined.

(** ** Arity mismatches under the default flags *)

(** X10. Where an arity mismatch ends. On a command line of positional
    arguments whose number differs from the expected count, with no flag
    set, [parse] does not return: the end handler has the engine end the
    process, with status 1 in cxx_argp_parser.h and with
    [argp_err_exit_status] in part_000, after the complaint and nothing
    else on stderr. With [ARGP_NO_EXIT] as the only flag [parse] returns
    [false] and the driver adds the usage message. *)
Theorem arity_mismatch_outcome (D : Type) (n : Z) (args : list string) (d : D)
    (stderr : list call) :
  0 <= n < 2 ^ 64 -> n <> unlimited -> Z.of_nat (List.length args) <> n ->
  let m := Z.of_nat (List.length args) in
  (forall p : ParserH.parser D,
     ParserH.expected_argument_count_ p = cast t_ssize_t n ->
     no_reserved_key (ParserH.convert_ p) = true ->
     let complaint := if m <? n then ParserH.too_few else ParserH.too_many in
     (ParserH.flags_ p = 0 ->
      let r := ParserH.parse (map ev_arg args) p d stderr in
      (r.1.1, r.2) = (Exited 1, stderr ++ [complaint]))
     /\ (ParserH.flags_ p = ARGP_NO_EXIT ->
         let r := ParserH.parse (map ev_arg args) p d stderr in
         (r.1.1, r.2)
         = (Returned false, stderr ++ [complaint; argp_help ARGP_HELP_USAGE])))
  /\ (forall p : Part000.parser D,
     Part000.expected_argument_count_ p = cast t_ssize_t n ->
     no_reserved_key (Part000.convert_ p) = true ->
     let complaint := if m <? n then Part000.too_few else Part000.too_many in
     (Part000.flags_ p = 0 ->
      let r := Part000.parse (map ev_arg args) p d stderr in
      (r.1.1, r.2) = (Exited argp_err_exit_status, stderr ++ [complaint]))
     /\ (Part000.flags_ p = ARGP_NO_EXIT ->
         let r := Part000.parse (map ev_arg args) p d stderr in
         (r.1.1, r.2)
         = (Returned false, stderr ++ [complaint; argp_help ARGP_HELP_USAGE]))).
Proof.
  intros Hn Hu Hm m.
  assert (Hcalls : forall too_few too_many,
    arity_calls too_few too_many n m = [if m <? n then too_few else too_many]).
  { intros tf tm. unfold arity_calls. rewrite (proj2 (Z.eqb_neq _ _) Hu).
    destruct (Z.ltb_spec m n); [done|].
    destruct (Z.ltb_spec n m); [done|]. subst m. lia. }
  assert (Hne : (cast t_ssize_t n =? -1) = false)
    by (rewrite cast_ssize_unlimited by done; by apply Z.eqb_neq).
  assert (Hsz : (cast t_size_t (cast t_ssize_t n) =? m) = false).
  { rewrite cast_size_ssize by done. apply Z.eqb_neq. subst m. lia. }
  split.
  - intros p He Hres complaint. split; intros Hf r; subst r; unfold ParserH.parse.
    + rewrite (ParserHFacts.h_argp_parse_positional n) by done.
      fold m. rewrite Hcalls, Hf. subst complaint.
      by destruct (m <? n).
    + rewrite (ParserHFacts.h_argp_parse_positional n) by done.
      fold m. rewrite Hcalls, Hf. subst complaint.
      destruct (m <? n); simpl; rewrite Hf; simpl; rewrite He, Hne;
        unfold ParserH.size; simpl; fold m; rewrite Hsz; simpl;
        unfold ParserH.usage_unless_no_help; simpl; rewrite Hf; simpl;
        by rewrite <- app_assoc.
  - intros p He Hres complaint. split; intros Hf r; subst r; unfold Part000.parse.
    + rewrite (Part000Facts.p_argp_parse_positional n) by done.
      fold m. rewrite Hcalls, Hf. subst complaint.
      by destruct (m <? n).
    + rewrite (Part000Facts.p_argp_parse_positional n) by done.
      fold m. rewrite Hcalls, Hf. subst complaint.
      destruct (m <? n); simpl; rewrite Hf; simpl; rewrite He, Hne;
        unfold Part000.size; simpl; fold m; rewrite Hsz; simpl;
        unfold Part000.usage_unless_disabled; simpl; rewrite Hf; simpl;
        rewrite andb_false_r; by rewrite <- app_assoc.
Qed.

Lemma arity_mismatch_outcome_witness :
  (ParserH.parse (map ev_arg ["a"]) h_parser 0 []).1.1 = Exited 1
  /\ (Part000.parse (map ev_arg ["a"; "b"; "c"]) p_parser 0 []).1.1 = Exited 64.
Proof.
  destruct (arity_mismatch_outcome Z 2 ["a"] 0 []) as [H1 _];
    [lia|discriminate|discriminate|].
  destruct (arity_mismatch_outcome Z 2 ["a"; "b"; "c"] 0 []) as [_ H2];
    [lia|discriminate|discriminate|].
  split.
  - destruct (H1 h_parser eq_refl ltac:(vm_compute; reflexivity)) as [H _].
    exact (f_equal fst (H eq_refl)).
  - destruct (H2 p_parser eq_refl ltac:(vm_compute; reflexivity)) as [H _].
    exact (f_equal fst (H eq_refl)).
Defined.

(** ** Sequences of numbers *)

Lemma h_push_back_stoi_app {D} T (x : ref D (list Z)) good tl : forall d,
  forallb stoi_ok good = true ->
  exists d',
    ParserH.push_back_stoi T x (good ++ tl) d = ParserH.push_back_stoi T x tl d'
    /\ load x d' = load x d ++ map (fun val => cast T (stoi_value val)) good.
Proof.
  induction good as [|val good IH]; intros d Hgood; simpl.
  - exists d. by rewrite app_nil_r.
  - simpl in Hgood. apply andb_true_iff in Hgood as [Hval Hgood].
    unfold stoi_ok in Hval. unfold stoi_value at 1.
    destruct (stoi val) as [v|e]; [|done].
    destruct (IH (ParserH.push_back x (cast T v) d) Hgood) as (d' & Hrun & Hload).
    exists d'. split; [done|]. rewrite Hload. unfold ParserH.push_back.
    rewrite load_store. by rewrite <- app_assoc.
Qed.

(** X11. The converter for vectors of numbers of cxx_argp_parser.h commits
    as it goes and does not roll back: when every piece converts, the text
    is accepted and all values are appended in order; when a piece does
    not convert, the text is refused, the values of the pieces before it
    stay appended and the pieces after it are not looked at. *)
Theorem number_sequence_commits_prefix (D : Type) (T : int_type)
    (x : ref D (list Z)) (arg : string) (d : D) :
  let r := ParserH.make_check_function_vector T x arg d in
  (forallb stoi_ok (pieces arg) = true ->
   r.1 = true
   /\ load x r.2
      = load x d ++ map (fun val => cast T (stoi_value val)) (pieces arg))
  /\ (forall good bad rest,
      pieces arg = good ++ bad :: rest ->
      forallb stoi_ok good = true -> stoi_ok bad = false ->
      r.1 = false
      /\ load x r.2
         = load x d ++ map (fun val => cast T (stoi_value val)) good).
Proof.
  intros r. subst r. unfold ParserH.make_check_function_vector. split.
  - intros Hall.
    destruct (h_push_back_stoi_app T x (pieces arg) [] d Hall) as (d' & Hrun & Hload).
    rewrite app_nil_r in Hrun. by rewrite Hrun.
  - intros good bad rest Hp Hgood Hbad. rewrite Hp.
    destruct (h_push_back_stoi_app T x good (bad :: rest) d Hgood)
      as (d' & Hrun & Hload).
    rewrite Hrun. simpl. unfold stoi_ok in Hbad.
    by destruct (stoi bad).
Qed.

Lemma number_sequence_commits_prefix_witness :
  ParserH.make_check_function_vector t_int (self_ref (list Z)) "4,5,,6" [3]
  = (false, [3; 4; 5]).
Proof.
  destruct (number_sequence_commits_prefix (list Z) t_int (self_ref (list Z))
              "4,5,,6" [3]) as [_ H].
  destruct (H ["4"; "5"] "" ["6"] eq_refl eq_refl eq_refl) as [H1 H2].
  apply injective_projections.
  - exact H1.
  - etrans; [exact H2|]. vm_compute. reflexivity.
Defined.

Lemma p_vector_loop_repeats {D T} (make : ref T T -> Part000.arg_parser T) val0
    (x : ref D (list T)) key arg vals : forall d,
  let r := make (self_ref T) key arg val0 in
  let R := Part000.vector_loop make val0 x key arg vals d in
  (r.1.1 = 0 ->
   R.1.1 = 0
   /\ load x R.1.2 = load x d ++ replicate (List.length vals) r.1.2
   /\ R.2 = List.concat (replicate (List.length vals) r.2))
  /\ (r.1.1 <> 0 -> vals <> [] -> R = (-1, d, r.2)).
Proof.
  induction vals as [|val vals IH]; intros d r R; subst r R; simpl.
  - split; [|done]. intros _. by rewrite app_nil_r.
  - destruct (make (self_ref T) key arg val0) as [[e v] cs] eqn:E. simpl in *.
    split.
    + intros ->. simpl.
      destruct (IH (Part000.push_back x v d)) as [IH1 _].
      destruct (IH1 eq_refl) as (H1 & H2 & H3).
      destruct (Part000.vector_loop make val0 x key arg vals (Part000.push_back x v d))
        as [[e' d'] cs']. simpl in *.
      split; [done|]. split.
      * rewrite H2. unfold Part000.push_back. rewrite load_store.
        by rewrite <- app_assoc.
      * by rewrite H3.
    + intros Hne _. by rewrite (proj2 (Z.eqb_neq _ _) Hne).
Qed.

(** X12. The converter for vectors of part_000 runs the element converter
    on the whole raw text once per piece, so every piece yields the same
    element: a text which the element converter accepts is accepted, and
    as many copies of the one converted value are appended as the text has
    pieces; a text which the element converter refuses is refused at its
    first piece with the destination as it was; the empty text, which has
    no piece, is accepted without the element converter being asked. *)
Theorem part000_sequence_repeats (D T : Type)
    (make : ref T T -> Part000.arg_parser T) (val0 : T) (x : ref D (list T))
    (key : Z) (arg : string) (d : D) :
  let r := make (self_ref T) key arg val0 in
  let R := Part000.make_check_function_vector make val0 x key arg d in
  (r.1.1 = 0 ->
   R.1.1 = 0
   /\ load x R.1.2 = load x d ++ replicate (List.length (pieces arg)) r.1.2)
  /\ (r.1.1 <> 0 -> arg <> EmptyString -> R = (-1, d, r.2))
  /\ (arg = EmptyString -> R = (0, d, [])).
Proof.
  intros r R. subst r R. unfold Part000.make_check_function_vector.
  destruct (p_vector_loop_repeats make val0 x key arg (pieces arg) d) as [H1 H2].
  split; [|split].
  - intros H. destruct (H1 H) as (Ha & Hb & _). by split.
  - intros H Hne. apply H2; [done|].
    destruct arg as [|c s]; [done|]. apply pieces_not_empty.
  - by intros ->.
Qed.

Lemma part000_sequence_repeats_witness :
  (Part000.make_check_function_vector
     (Part000.make_check_function_integer t_int) 0 (self_ref (list Z))
     118 "7,8,9" [1]).1.2 = [1; 7; 7; 7]
  /\ Part000.make_check_function_vector
       (Part000.make_check_function_integer t_int) 0 (self_ref (list Z))
       118 "x,8" [1]
     = (-1, [1],
        [argp_error "unable to interpret '%s' as a whole number, %s"
                    [FmtString "x,8"; FmtWhat invalid_argument]]).
Proof.
  destruct (part000_sequence_repeats (list Z) Z
              (Part000.make_check_function_integer t_int) 0 (self_ref (list Z))
              118 "7,8,9" [1]) as (H1 & _ & _).
  destruct (part000_sequence_repeats (list Z) Z
              (Part000.make_check_function_integer t_int) 0 (self_ref (list Z))
              118 "x,8" [1]) as (_ & H2 & _).
  split.
  - destruct (H1 eq_refl) as [_ H]. exact H.
  - apply H2; discriminate.
Defined.

(** ** Decimal numerals as whole texts *)

Lemma digit_lead c0 :
  is_digit c0 = true -> code c0 <> 48 ->
  isspace c0 = false /\ (code c0 =? 45) = false /\ (code c0 =? 43) = false
  /\ (code c0 =? 48) = false.
Proof.
  unfold is_digit, isspace. intros H Hnz.
  apply andb_true_iff in H as [H1 H2]. apply Z.leb_le in H1, H2.
  repeat split; try (apply Z.eqb_neq; lia).
  destruct (Z.eqb_spec (code c0) 32); [lia|].
  destruct (Z.leb_spec 9 (code c0)), (Z.leb_spec (code c0) 13); simpl; try done; lia.
Qed.

Lemma read_prefix_decimal base c0 s :
  base = 0 \/ base = 10 -> (code c0 =? 48) = false ->
  read_prefix base (String c0 s) = (10, String c0 s, None).
Proof.
  intros Hbase H0. unfold read_prefix. rewrite H0. simpl.
  destruct s; by destruct Hbase as [-> | ->].
Qed.

(** [strtol], base 0 or 10, on a decimal numeral that does not start with
    [0] and is the whole text. *)
Lemma strtol_decimal_whole base c0 ds :
  base = 0 \/ base = 10 ->
  is_digit c0 = true -> code c0 <> 48 -> all_chars is_digit ds = true ->
  strtol (String c0 ds) base
  = if LONG_MAX <? decimal 0 (String c0 ds)
    then StrtolResult LONG_MAX EmptyString ERANGE
    else StrtolResult (decimal 0 (String c0 ds)) EmptyString 0.
Proof.
  intros Hbase H0 Hnz Hds.
  destruct (digit_lead c0 H0 Hnz) as (Hsp & H45 & H43 & H48).
  unfold strtol. cbn [skip_space]. rewrite Hsp. unfold read_sign.
  rewrite H45, H43, read_prefix_decimal by done.
  rewrite StrtolFacts.digits_decimal_end by (simpl; by rewrite H0, Hds).
  reflexivity.
Qed.

(** The same behind a minus sign. *)
Lemma strtol_decimal_minus base c0 ds :
  base = 0 \/ base = 10 ->
  is_digit c0 = true -> code c0 <> 48 -> all_chars is_digit ds = true ->
  strtol (String "-"%char (String c0 ds)) base
  = if 2 ^ 63 <? decimal 0 (String c0 ds)
    then StrtolResult LONG_MIN EmptyString ERANGE
    else StrtolResult (- decimal 0 (String c0 ds)) EmptyString 0.
Proof.
  intros Hbase H0 Hnz Hds.
  destruct (digit_lead c0 H0 Hnz) as (Hsp & H45 & H43 & H48).
  unfold strtol. cbn [skip_space].
  change (isspace "-"%char) with false. cbv iota.
  change (read_sign (String "-"%char (String c0 ds))) with (true, String c0 ds).
  cbv beta iota. rewrite read_prefix_decimal by done.
  rewrite StrtolFacts.digits_decimal_end by (simpl; by rewrite H0, Hds).
  reflexivity.
Qed.

(** X13. Whole decimal numerals and the two integer converters. A decimal
    numeral that does not start with 0, alone or behind a minus sign, is
    accepted by both converters exactly when its value fits a [long], and
    refused with the destination unmodified otherwise (in part_000 with
    [out_of_range]). What is stored is the value converted to the
    destination type: there is no check against the range of the
    destination. *)
Theorem whole_numerals (D : Type) (T : int_type) (x : ref D Z) (key : Z)
    (c0 : ascii) (ds : string) (d : D) :
  is_digit c0 = true -> code c0 <> 48 -> all_chars is_digit ds = true ->
  let text := String c0 ds in
  let v := decimal 0 text in
  let h := ParserH.make_check_function_integer T x in
  let p := Part000.make_check_function_integer T x key in
  h text d = (if v <=? LONG_MAX then (true, store x (cast T v) d) else (false, d))
  /\ h (String "-"%char text) d
     = (if v <=? 2 ^ 63 then (true, store x (cast T (- v)) d) else (false, d))
  /\ p text d
     = (if v <=? LONG_MAX then (0, store x (cast T v) d, [])
        else (-1, d, [argp_error "unable to interpret '%s' as a whole number, %s"
                                 [FmtString text; FmtWhat out_of_range]]))
  /\ p (String "-"%char text) d
     = (if v <=? 2 ^ 63 then (0, store x (cast T (- v)) d, [])
        else (-1, d, [argp_error "unable to interpret '%s' as a whole number, %s"
                                 [FmtString (String "-"%char text);
                                  FmtWhat out_of_range]])).
Proof.
  intros H0 Hnz Hds text v h p. subst h p v text.
  unfold ParserH.make_check_function_integer, Part000.make_check_function_integer,
    stol.
  rewrite (strtol_decimal_whole 0 c0 ds (or_introl eq_refl) H0 Hnz Hds),
    (strtol_decimal_whole 10 c0 ds (or_intror eq_refl) H0 Hnz Hds),
    (strtol_decimal_minus 0 c0 ds (or_introl eq_refl) H0 Hnz Hds),
    (strtol_decimal_minus 10 c0 ds (or_intror eq_refl) H0 Hnz Hds).
  set (v := decimal 0 (String c0 ds)).
  destruct (Z.ltb_spec LONG_MAX v), (Z.leb_spec v LONG_MAX); try lia;
    destruct (Z.ltb_spec (2 ^ 63) v), (Z.leb_spec v (2 ^ 63)); try lia;
    unfold LONG_MAX in *; try lia; done.
Qed.

Lemma whole_numerals_witness :
  ParserH.make_check_function_integer t_int (self_ref Z) "4294967297" 0 = (true, 1)
  /\ Part000.make_check_function_integer t_int (self_ref Z) 110 "-4294967297" 0
     = (0, -1, [])
  /\ ParserH.make_check_function_integer t_long (self_ref Z) "9223372036854775808" 5
     = (false, 5).
Proof.
  destruct (whole_numerals Z t_int (self_ref Z) 110 "4"%char "294967297" 0)
    as (H1 & _ & _ & H4); [reflexivity|discriminate|reflexivity|].
  destruct (whole_numerals Z t_long (self_ref Z) 110 "9"%char "223372036854775808" 5)
    as (H5 & _); [reflexivity|discriminate|reflexivity|].
  split; [|split].
  - etrans; [exact H1|]. vm_compute. reflexivity.
  - etrans; [exact H4|]. vm_compute. reflexivity.
  - etrans; [exact H5|]. vm_compute. reflexivity.
Defined.

(** ** The element rule of sequences in cxx_argp_parser.h *)

Lemma digit_not_comma c : is_digit c = true -> not_comma c = true.
Proof.
  unfold not_comma. destruct (Ascii.eqb_spec c ","%char) as [->|]; [|done].
  by vm_compute.
Qed.

Lemma all_digits_not_comma s :
  all_chars is_digit s = true -> all_chars not_comma s = true.
Proof.
  induction s as [|c s IH]; [done|]. simpl. intros H.
  apply andb_true_iff in H as [Hc Hs]. by rewrite (digit_not_comma c Hc), IH.
Qed.

Lemma all_chars_app f s t :
  all_chars f (s +:+ t) = all_chars f s && all_chars f t.
Proof.
  induction s as [|c s IH]; [done|].
  change (String c s +:+ t) with (String c (s +:+ t)).
  cbn [all_chars]. by rewrite IH, andb_assoc.
Qed.

Lemma length_app_tail s c t :
  (String.length (String c t) < String.length (s +:+ String c t))%nat
  \/ s = EmptyString.
Proof.
  destruct s as [|c' s]; [by right|]. left.
  change (String c' s +:+ String c t) with (String c' (s +:+ String c t)).
  cbn [String.length]. induction s as [|c1 s IH].
  - simpl. lia.
  - change (String c1 s +:+ String c t) with (String c1 (s +:+ String c t)).
    cbn [String.length] in *. lia.
Qed.

(** X14. In cxx_argp_parser.h a piece of a sequence is not converted by
    the rule of a single integer: the sequence converter takes a piece
    made of a decimal numeral followed by anything without a digit in
    front, which the integer converter refuses, and it refuses a numeral
    beyond the range of an [int], whatever the element type, which the
    integer converter accepts up to the range of a [long]. *)
Theorem sequence_element_rule (D : Type) (T : int_type) (x : ref D (list Z))
    (y : ref D Z) (c0 : ascii) (ds : string) (d : D) :
  is_digit c0 = true -> code c0 <> 48 -> all_chars is_digit ds = true ->
  let numeral := String c0 ds in
  let v := decimal 0 numeral in
  (forall c tail,
     is_digit c = false -> all_chars not_comma (String c tail) = true ->
     v <= INT_MAX ->
     ParserH.make_check_function_vector T x (numeral +:+ String c tail) d
     = (true, ParserH.push_back x (cast T v) d)
     /\ ParserH.make_check_function_integer T y (numeral +:+ String c tail) d
        = (false, d))
  /\ (INT_MAX < v ->
      ParserH.make_check_function_vector T x numeral d = (false, d)
      /\ (v <= LONG_MAX ->
          ParserH.make_check_function_integer T y numeral d
          = (true, store y (cast T v) d))).
Proof.
  intros H0 Hnz Hds numeral v.
  assert (Hnum : all_chars not_comma numeral = true).
  { apply all_digits_not_comma. simpl. by rewrite H0, Hds. }
  assert (Hv : 0 <= v).
  { subst v numeral. clear -H0 Hds. simpl.
    assert (G : forall s acc, 0 <= acc -> all_chars is_digit s = true ->
                0 <= decimal acc s).
    { induction s as [|c s IH]; intros acc Hacc Hs; simpl; [done|].
      simpl in Hs. apply andb_true_iff in Hs as [Hc Hs].
      apply IH; [|done]. unfold is_digit in Hc.
      apply andb_true_iff in Hc as [H1 H2]. apply Z.leb_le in H1, H2. lia. }
    apply G; [|done]. unfold is_digit in H0.
    apply andb_true_iff in H0 as [H1 H2]. apply Z.leb_le in H1, H2. lia. }
  split.
  - intros c tail Hc Htail Hfit. split.
    + unfold ParserH.make_check_function_vector.
      rewrite pieces_one; [|by rewrite all_chars_app, Hnum, Htail|done].
      cbn [ParserH.push_back_stoi]. unfold stoi.
      subst numeral.
      rewrite (StrtolFacts.strtol_decimal_then 10 c0 ds c tail
                 (or_intror eq_refl) H0 Hnz Hds Hc).
      fold v. unfold INT_MAX, LONG_MAX, INT_MIN in *.
      destruct (Z.ltb_spec (2 ^ 63 - 1) v); [lia|]. cbn [endptr errno value].
      destruct (length_app_tail (String c0 ds) c tail) as [Hlen|]; [|done].
      destruct (Nat.eqb_spec (String.length (String c tail))
                  (String.length (String c0 ds +:+ String c tail))); [lia|].
      destruct (Z.ltb_spec v (- 2 ^ 31)); [lia|].
      destruct (Z.ltb_spec (2 ^ 31 - 1) v); [lia|]. reflexivity.
    + unfold ParserH.make_check_function_integer. subst numeral.
      rewrite (StrtolFacts.strtol_decimal_then 0 c0 ds c tail
                 (or_introl eq_refl) H0 Hnz Hds Hc).
      by destruct (LONG_MAX <? _).
  - intros Hbig. split.
    + unfold ParserH.make_check_function_vector.
      rewrite pieces_one by done.
      cbn [ParserH.push_back_stoi]. unfold stoi.
      subst numeral.
      rewrite (strtol_decimal_whole 10 c0 ds (or_intror eq_refl) H0 Hnz Hds).
      fold v. unfold INT_MAX, LONG_MAX in *.
      destruct (Z.ltb_spec (2 ^ 63 - 1) v); cbn [endptr errno value]; [done|].
      change (String.length EmptyString) with 0%nat.
      cbn [String.length Nat.eqb].
      destruct (Z.ltb_spec (2 ^ 31 - 1) v); [|lia].
      by rewrite orb_true_r.
    + intros Hfit.
      destruct (whole_numerals D T y 0 c0 ds d H0 Hnz Hds) as (H & _).
      etrans; [exact H|]. fold numeral. fold v.
      by destruct (Z.leb_spec v LONG_MAX); [|lia].
Qed.

Lemma sequence_element_rule_witness :
  ParserH.make_check_function_vector t_int (fst_ref (list Z) Z) "12abc" ([], 0)
  = (true, ([12], 0))
  /\ ParserH.make_check_function_integer t_int (snd_ref (list Z) Z) "12abc" ([], 0)
     = (false, ([], 0))
  /\ ParserH.make_check_function_vector t_long (fst_ref (list Z) Z) "2147483648"
       ([], 0)
     = (false, ([], 0)).
Proof.
  destruct (sequence_element_rule (list Z * Z) t_int (fst_ref (list Z) Z)
              (snd_ref (list Z) Z) "1"%char "2" ([], 0))
    as [H1 _]; [reflexivity|discriminate|reflexivity|].
  destruct (H1 "a"%char "bc") as [Ha Hb];
    [reflexivity|reflexivity|vm_compute; discriminate|].
  destruct (sequence_element_rule (list Z * Z) t_long (fst_ref (list Z) Z)
              (snd_ref (list Z) Z) "2"%char "147483648" ([], 0))
    as [_ H2]; [reflexivity|discriminate|reflexivity|].
  destruct H2 as [Hc _]; [vm_compute; reflexivity|].
  split; [|split].
  - etrans; [exact Ha|]. vm_compute. reflexivity.
  - exact Hb.
  - exact Hc.
Defined.

(** ** A refused option under the default flags *)

Lemma no_reserved_key_registered {V} (m : gmap Z V) k v :
  no_reserved_key m = true -> m !! k = Some v -> ~ In k reserved_keys.
Proof.
  intros Hres Hk Hin. by rewrite (no_reserved_key_lookup m k Hres Hin) in Hk.
Qed.

(** X15. A refused option is fatal at once. On a command line on which,
    after events that were all accepted, an option arrives whose converter
    refuses its text with one [argp_error], with neither [ARGP_NO_ERRS] nor
    [ARGP_NO_EXIT] set, [parse] does not return: the process ends with
    [argp_err_exit_status], stderr gains the complaint and nothing else,
    the positional arguments are those accumulated by the accepted events,
    the destinations are as the refusing converter left them, and nothing
    that follows on the command line is looked at. In both headers (in
    part_000 with no option of the registry using a key of the engine). *)
Theorem refused_option_outcome (D : Type) (pre : list (Z * string)) (key : Z)
    (arg : string) (rest : list (Z * string)) (d : D) (stderr : list call) :
  let evs := pre ++ (key, arg) :: rest in
  (forall (p : ParserH.parser D) opt p1 d1 stderr1,
     has (ParserH.flags_ p) ARGP_NO_ERRS = false ->
     has (ParserH.flags_ p) ARGP_NO_EXIT = false ->
     ParserH.convert_ p !! key = Some opt ->
     parse_events ParserH.parseoptions_ (ParserH.flags_ p) pre (p, d) stderr
     = (Returned 0, (p1, d1), stderr1) ->
     (opt arg d1).1 = false ->
     let r := ParserH.parse evs p d stderr in
     r.1.1 = Exited argp_err_exit_status
     /\ ParserH.arguments r.1.2.1 = ParserH.arguments_ p1
     /\ r.1.2.2 = (opt arg d1).2
     /\ r.2 = stderr1 ++ [argp_error "argument '%s' not usable for '%c'"
                                     [FmtString arg; FmtChar key]])
  /\ (forall (p : Part000.parser D) opt p1 d1 stderr1 d' fmt fmt_args status,
     has (Part000.flags_ p) ARGP_NO_ERRS = false ->
     has (Part000.flags_ p) ARGP_NO_EXIT = false ->
     no_reserved_key (Part000.convert_ p) = true ->
     Part000.convert_ p !! key = Some opt ->
     parse_events Part000.parseoptions_ (Part000.flags_ p) pre (p, d) stderr
     = (Returned 0, (p1, d1), stderr1) ->
     opt key arg d1 = (status, d', [argp_error fmt fmt_args]) ->
     let r := Part000.parse evs p d stderr in
     r.1.1 = Exited argp_err_exit_status
     /\ Part000.arguments r.1.2.1 = Part000.arguments_ p1
     /\ r.1.2.2 = d'
     /\ r.2 = stderr1 ++ [argp_error fmt fmt_args]).
Proof.
  intros evs. subst evs. split.
  - intros p opt p1 d1 stderr1 Hf1 Hf2 Hk Hev Hno r.
    pose proof (h_parse_events_config (ParserH.flags_ p) pre p d stderr) as Hc.
    rewrite Hev in Hc. simpl in Hc. unfold ParserH.config in Hc.
    injection Hc as _ Hcv _ _.
    assert (Hrun : exists p',
      argp_parse ParserH.parseoptions_ (ParserH.flags_ p)
        (pre ++ (key, arg) :: rest) (p, d) stderr
      = (Exited argp_err_exit_status, (p', (opt arg d1).2),
         stderr1 ++ [argp_error "argument '%s' not usable for '%c'"
                                [FmtString arg; FmtChar key]])
      /\ ParserH.arguments_ p' = ParserH.arguments_ p1).
    { eexists. split.
      - apply (ArgpFacts.argp_parse_exits_at _ _ _ _ _ _ _ _ _ _ _ _ _ Hev).
        unfold group_parse, ParserH.parseoptions_. rewrite Hcv, Hk.
        destruct (opt arg d1) as [ok d'] eqn:E. simpl in Hno. subst ok.
        simpl. unfold perform. rewrite Hf1, Hf2. reflexivity.
      - reflexivity. }
    destruct Hrun as (p' & Hrun & Hargs).
    subst r. unfold ParserH.parse, ParserH.arguments. rewrite Hrun. simpl.
    by rewrite Hargs.
  - intros p opt p1 d1 stderr1 d' fmt fmt_args status Hf1 Hf2 Hres Hk Hev Hopt r.
    pose proof (p_parse_events_config (Part000.flags_ p) pre p d stderr) as Hc.
    rewrite Hev in Hc. simpl in Hc. unfold Part000.config in Hc.
    injection Hc as _ Hcv _ _ _.
    pose proof (no_reserved_key_registered _ _ _ Hres Hk) as Hnot.
    assert (H1 : (key =? ARGP_KEY_INIT) = false)
      by (apply Z.eqb_neq; intros ->; apply Hnot; simpl; tauto).
    assert (H2 : (key =? ARGP_KEY_ARG) = false)
      by (apply Z.eqb_neq; intros ->; apply Hnot; simpl; tauto).
    assert (H3 : (key =? ARGP_KEY_END) = false)
      by (apply Z.eqb_neq; intros ->; apply Hnot; simpl; tauto).
    assert (H4 : (key =? ARGP_KEY_ERROR) = false)
      by (apply Z.eqb_neq; intros ->; apply Hnot; simpl; tauto).
    assert (Hrun :
      argp_parse Part000.parseoptions_ (Part000.flags_ p)
        (pre ++ (key, arg) :: rest) (p, d) stderr
      = (Exited argp_err_exit_status, (p1, d'), stderr1 ++ [argp_error fmt fmt_args])).
    { apply (ArgpFacts.argp_parse_exits_at _ _ _ _ _ _ _ _ _ _ _ _ _ Hev).
      unfold group_parse, Part000.parseoptions_. rewrite H1, H2, H3, H4.
      rewrite Hcv, Hk, Hopt. simpl. unfold perform. rewrite Hf1, Hf2. reflexivity. }
    subst r. unfold Part000.parse, Part000.arguments. by rewrite Hrun.
Qed.

Lemma refused_option_outcome_witness :
  (let r := ParserH.parse bad_option h_parser 7 [] in
   (r.1.1, ParserH.arguments r.1.2.1, r.1.2.2))
  = (Exited 64, [], 7)
  /\ (let r := Part000.parse bad_option p_parser 7 [] in
      (r.1.1, Part000.arguments r.1.2.1, r.1.2.2))
     = (Exited 64, [], 7)
  /\ (let r := ParserH.parse [(110, "5"); (110, "x"); ev_arg "a"] h_parser 7 [] in
      (r.1.1, r.1.2.2))
     = (Exited 64, 5).
Proof.
  destruct (refused_option_outcome Z [] 110 "x" [ev_arg "a"; ev_arg "b"] 7 [])
    as [H1 H2].
  destruct (refused_option_outcome Z [(110, "5")] 110 "x" [ev_arg "a"] 7 [])
    as [H3 _].
  pose (hr := parse_events ParserH.parseoptions_ (ParserH.flags_ h_parser)
                [(110, "5")] (h_parser, 7) []).
  split; [|split].
  - destruct (H1 h_parser (ParserH.make_check_function_integer t_int (self_ref Z))
                h_parser 7 [])
      as (Ha & Hb & Hc & _);
      [reflexivity|reflexivity|reflexivity|reflexivity|reflexivity|].
    cbv zeta. apply injective_projections; [apply injective_projections|];
      [exact Ha|exact Hb|exact Hc].
  - destruct (H2 p_parser (Part000.make_check_function_integer t_int (self_ref Z))
                p_parser 7 []
                7 "unable to interpret '%s' as a whole number, %s"
                [FmtString "x"; FmtWhat invalid_argument] (-1))
      as (Ha & Hb & Hc & _);
      [reflexivity|reflexivity|vm_compute; reflexivity|reflexivity|reflexivity
      |reflexivity|].
    cbv zeta. apply injective_projections; [apply injective_projections|];
      [exact Ha|exact Hb|exact Hc].
  - destruct (H3 h_parser (ParserH.make_check_function_integer t_int (self_ref Z))
                hr.1.2.1 hr.1.2.2 hr.2)
      as (Ha & _ & Hc & _);
      [reflexivity|reflexivity|reflexivity|reflexivity|reflexivity|].
    cbv zeta. apply injective_projections; [exact Ha|exact Hc].
Defined.
